(** * Verification of guided_diffusion/gaussian_diffusion.py

    A shallow embedding of the noise-schedule builder, the cumulative
    statistics cache, the time-step respacer, the respaced process with its
    model wrapper, the two transition policies and the sampling loop.

    Numbers.  Python [int] is [Z].  The floats of [space_timesteps] are all
    rationals and are modelled in [Q], which keeps the respacer executable.
    The float64 and float32 arrays of the diffusion process are lists of
    real numbers [R] in exact arithmetic, with [sqrt], [ln], [exp] and [cos]
    of the Standard Library; rounding error is not modelled there.  Where
    rounding decides an integer or the bits of a result, the module [IEEE]
    follows the same source lines over binary64 and binary32 numbers: the
    running position of [space_timesteps] and the step [DDIM.p_sample].

    Effects.  Exceptions are an error result with the monad notation of
    stdpp.  The random generator is an explicit argument of the transition
    policies.  The denoising model, the mean and variance processors, the
    guidance function and the recording code are external: the first three
    are function arguments, the last two are part of the abstract body of a
    repetition of the sampling loop. *)

From Stdlib Require Import ZArith QArith Qround Reals Lra Lia List Bool String.
From Stdlib Require Lqa.
From Stdlib Require Floats.SpecFloat.
From stdpp Require Import base decidable option list gmap sets.

Set Default Proof Using "Type".
Local Open Scope Z_scope.

(** ** Exceptions *)

Inductive exn :=
| NotImplementedError
| ValueError
| AssertionError
| IndexError
| ZeroDivisionError
| RuntimeError
| OverflowError.

Inductive result (A : Type) :=
| Ok (a : A)
| Raise (e : exn).
Arguments Ok {A} a.
Arguments Raise {A} e.

#[global] Instance result_ret : MRet result := fun A a => Ok a.
#[global] Instance result_bind : MBind result := fun A B k m =>
  match m with
  | Ok a => k a
  | Raise e => Raise e
  end.

Definition assert (b : bool) : result unit :=
  if b then Ok tt else Raise AssertionError.

(** ** Python built-ins used by the source *)

(** [len(range(0, stop, step))] for [step > 0]. *)
Definition range_len (stop step : Z) : Z :=
  if stop <=? 0 then 0 else (stop + step - 1) / step.

(** [list(range(0, stop, step))] for [step > 0]. *)
Definition py_range0 (stop step : Z) : list Z :=
  map (fun k => Z.of_nat k * step) (seq 0 (Z.to_nat (range_len stop step))).

(** [list(range(start, stop))]. *)
Definition py_range (start stop : Z) : list Z :=
  map (fun k => start + Z.of_nat k) (seq 0 (Z.to_nat (stop - start))).

(** Python's [round] on a float: to the nearest integer, ties to even. *)
Definition py_round (q : Q) : Z :=
  let f := Qfloor q in
  match Qcompare (q - inject_Z f) (1 # 2) with
  | Lt => f
  | Gt => f + 1
  | Eq => if Z.even f then f else f + 1
  end.

(** ** Time-step respacer: [space_timesteps] *)

(** The [section_counts] argument after Python's dynamic dispatch on its
    type: a string ["ddimK"] carries [K = int(section_counts[4:])], any other
    string is a comma-separated list of integers, an [int] is a one-element
    list. *)
Inductive section_spec :=
| Ddim (desired_count : Z)
| Counts (section_counts : list Z).

(** The [for i in range(1, num_timesteps)] search of the ddim branch, over
    the remaining candidate strides. *)
Fixpoint ddim_search (num_timesteps desired_count : Z) (strides : list Z)
  : result (gset Z) :=
  match strides with
  | [] => Raise ValueError
  | i :: rest =>
      if range_len num_timesteps i =? desired_count
      then Ok (list_to_set (py_range0 num_timesteps i))
      else ddim_search num_timesteps desired_count rest
  end.

(** The inner [for _ in range(section_count)] loop, with [n] iterations
    left, in exact arithmetic; [IEEE.taken_loop] is the loop on Python
    floats. *)
Fixpoint taken_loop (n : nat) (start_idx : Z) (frac_stride cur_idx : Q)
  : list Z :=
  match n with
  | O => []
  | S n' =>
      (start_idx + py_round cur_idx)
        :: taken_loop n' start_idx frac_stride (cur_idx + frac_stride)%Q
  end.

(** One iteration of the loop over sections: the size check, the stride and
    the steps taken in a section of [size] steps starting at [start_idx].
    The stride is the exact quotient; [IEEE.section_steps] has the quotient
    rounded to a Python float. *)
Definition section_steps (start_idx size section_count : Z)
  : result (list Z) :=
  if size <? section_count then Raise ValueError
  else
    let frac_stride : Q :=
      if section_count <=? 1 then 1%Q
      else (inject_Z (size - 1) / inject_Z (section_count - 1))%Q in
    Ok (taken_loop (Z.to_nat section_count) start_idx frac_stride 0%Q).

(** The loop [for i, section_count in enumerate(section_counts)]. *)
Fixpoint sections_loop (i : Z) (section_counts : list Z)
    (size_per extra start_idx : Z) (all_steps : list Z) : result (list Z) :=
  match section_counts with
  | [] => Ok all_steps
  | section_count :: rest =>
      let size := size_per + (if i <? extra then 1 else 0) in
      taken_steps ← section_steps start_idx size section_count;
      sections_loop (i + 1) rest size_per extra (start_idx + size)
                    (all_steps ++ taken_steps)
  end.

Definition space_timesteps (num_timesteps : Z) (spec : section_spec)
  : result (gset Z) :=
  match spec with
  | Ddim desired_count =>
      ddim_search num_timesteps desired_count (py_range 1 num_timesteps)
  | Counts section_counts =>
      let n := Z.of_nat (length section_counts) in
      if n =? 0 then Raise ZeroDivisionError
      else
        let size_per := num_timesteps / n in
        let extra := num_timesteps mod n in
        all_steps ← sections_loop 0 section_counts size_per extra 0 [];
        Ok (list_to_set all_steps)
  end.

(** Names for the quantities of one section, used in the statements about
    [space_timesteps]: the size of section [j] out of [n] and its stride are
    the expressions of the loop body; [section_start] is the closed form of
    the accumulated [start_idx]. *)
Definition section_size (num_timesteps n j : Z) : Z :=
  num_timesteps / n + (if j <? num_timesteps mod n then 1 else 0).

Definition section_stride (size section_count : Z) : Q :=
  if section_count <=? 1 then 1%Q
  else (inject_Z (size - 1) / inject_Z (section_count - 1))%Q.

Definition section_start (num_timesteps n j : Z) : Z :=
  j * (num_timesteps / n) + Z.min j (num_timesteps mod n).

(** The [i]-th position taken in a section. *)
Definition section_position (start_idx size section_count i : Z) : Z :=
  start_idx + py_round (inject_Z i * section_stride size section_count)%Q.

(** ** Arrays of floats *)

#[global] Instance Rlt_decision : RelDecision Rlt := Rlt_dec.
#[global] Instance Rle_decision : RelDecision Rle := Rle_dec.
#[global] Instance Req_decision : EqDecision R := Req_dec_T.

(** A float64 as the schedule code sees it: a real number, or one of the
    values [inf], [-inf], [nan] that numpy returns (with a warning, not an
    exception) from a division by zero. *)
Inductive float64 :=
| Finite (r : R)
| NonFinite.

(** [a / b] on numpy float64 scalars. *)
Definition np_div (a b : R) : float64 :=
  if bool_decide (b = 0%R) then NonFinite else Finite (a / b).

(** [1 - q] for a Python float [1] and a numpy scalar [q]. *)
Definition one_minus (q : float64) : float64 :=
  match q with
  | Finite r => Finite (1 - r)
  | NonFinite => NonFinite
  end.

(** Indexing a sequence with a Python or torch integer index: negative
    indices count from the end, anything out of range raises. *)
Definition py_index {A} (l : list A) (i : Z) : result A :=
  let n := Z.of_nat (length l) in
  let j := if i <? 0 then i + n else i in
  if (j <? 0) || (n <=? j) then Raise IndexError
  else match l !! Z.to_nat j with
       | Some a => Ok a
       | None => Raise IndexError
       end.

(** [np.cumprod], with the running product [acc]. *)
Fixpoint cumprod_from (acc : R) (l : list R) : list R :=
  match l with
  | [] => []
  | a :: l' => (acc * a)%R :: cumprod_from (acc * a)%R l'
  end.

Definition cumprod (l : list R) : list R := cumprod_from 1%R l.

(** A positive list that decreases strictly, starting below [last]. *)
Fixpoint decreasing_below (last : R) (cs : list R) : Prop :=
  match cs with
  | [] => True
  | a :: rest => (0 < a < last)%R /\ decreasing_below a rest
  end.

(** [np.linspace(start, stop, num)] for [num >= 1]. *)
Definition linspace (start stop : R) (num : Z) : list R :=
  if num =? 1 then [start]
  else map (fun i => (start + INR i * ((stop - start) / IZR (num - 1)))%R)
           (seq 0 (Z.to_nat num)).

(** ** Noise-schedule builder *)

(** One iteration of the loop of [betas_for_alpha_bar]; the quotient is a
    division of Python floats, which raises on a zero divisor. *)
Definition alpha_bar_beta (num_diffusion_timesteps : Z) (alpha_bar : R -> R)
    (max_beta : R) (i : Z) : result float64 :=
  let t1 := (IZR i / IZR num_diffusion_timesteps)%R in
  let t2 := (IZR (i + 1) / IZR num_diffusion_timesteps)%R in
  if bool_decide (alpha_bar t1 = 0%R) then Raise ZeroDivisionError
  else Ok (Finite (Rmin (1 - alpha_bar t2 / alpha_bar t1) max_beta)).

Definition betas_for_alpha_bar (num_diffusion_timesteps : Z)
    (alpha_bar : R -> R) (max_beta : R) : result (list float64) :=
  mapM (alpha_bar_beta num_diffusion_timesteps alpha_bar max_beta)
       (py_range 0 num_diffusion_timesteps).

Definition cosine_alpha_bar (t : R) : R :=
  (cos ((t + 0.008) / 1.008 * PI / 2) ^ 2)%R.

Definition get_named_beta_schedule (schedule_name : string)
    (num_diffusion_timesteps : Z) : result (list float64) :=
  if String.eqb schedule_name "linear" then
    if num_diffusion_timesteps =? 0 then Raise ZeroDivisionError
    else if num_diffusion_timesteps <? 0 then Raise ValueError
    else
      let scale := (1000 / IZR num_diffusion_timesteps)%R in
      let beta_start := (scale * 0.0001)%R in
      let beta_end := (scale * 0.02)%R in
      Ok (map Finite (linspace beta_start beta_end num_diffusion_timesteps))
  else if String.eqb schedule_name "cosine" then
    betas_for_alpha_bar num_diffusion_timesteps cosine_alpha_bar 0.999
  else Raise NotImplementedError.

(** ** Cumulative-statistics cache: [GaussianDiffusion.__init__] *)

Record GaussianDiffusion := {
  annealing_time : bool;
  betas : list R;
  num_timesteps : Z;
  rescale_timesteps : bool;
  alphas_cumprod : list R;
  alphas_cumprod_prev : list R;
  alphas_cumprod_next : list R;
  sqrt_alphas_cumprod : list R;
  sqrt_one_minus_alphas_cumprod : list R;
  log_one_minus_alphas_cumprod : list R;
  sqrt_recip_alphas_cumprod : list R;
  sqrt_recipm1_alphas_cumprod : list R;
  posterior_variance : list R;
  posterior_log_variance_clipped : list R;
  posterior_mean_coef1 : list R;
  posterior_mean_coef2 : list R
}.

(** The keyword arguments the constructor reads itself; the remaining ones
    configure the external mean and variance processors. *)
Record kwargs := {
  kw_rescale_timesteps : bool;
  kw_annealing_time : bool
}.

(** [(0 < betas).all() and (betas <= 1).all()]: false on [nan] and on the
    infinities. *)
Definition beta_in_range (b : float64) : bool :=
  match b with
  | Finite r => bool_decide (0 < r)%R && bool_decide (r <= 1)%R
  | NonFinite => false
  end.

Definition finite_value (b : float64) : R :=
  match b with
  | Finite r => r
  | NonFinite => 0%R
  end.

(** Element-wise arithmetic on three arrays of the same length. *)
Definition zip_with3 {A B C D} (f : A -> B -> C -> D)
    (a : list A) (b : list B) (c : list C) : list D :=
  zip_with (fun ab c => f ab.1 ab.2 c) (zip a b) c.

(** The constructor.  Where the cumulative product reaches 0 (after a
    variance equal to 1) numpy stores [inf] in the two reciprocal arrays; the
    model has the value of Rocq's total division there. *)
Definition GaussianDiffusion_init (kw : kwargs) (betas0 : list float64)
  : result GaussianDiffusion :=
  _ ← assert (forallb beta_in_range betas0);
  let betas := map finite_value betas0 in
  let num_timesteps := Z.of_nat (length betas) in
  let alphas := map (fun b => (1 - b)%R) betas in
  let alphas_cumprod := cumprod alphas in
  let alphas_cumprod_prev := 1%R :: removelast alphas_cumprod in
  let alphas_cumprod_next := tail alphas_cumprod ++ [0%R] in
  _ ← assert (Z.of_nat (length alphas_cumprod_prev) =? num_timesteps);
  let posterior_variance :=
    zip_with3 (fun b p c => (b * (1 - p) / (1 - c))%R)
              betas alphas_cumprod_prev alphas_cumprod in
  pv1 ← py_index posterior_variance 1;
  Ok {| annealing_time := kw_annealing_time kw;
        betas := betas;
        num_timesteps := num_timesteps;
        rescale_timesteps := kw_rescale_timesteps kw;
        alphas_cumprod := alphas_cumprod;
        alphas_cumprod_prev := alphas_cumprod_prev;
        alphas_cumprod_next := alphas_cumprod_next;
        sqrt_alphas_cumprod := map sqrt alphas_cumprod;
        sqrt_one_minus_alphas_cumprod :=
          map (fun c => sqrt (1 - c)) alphas_cumprod;
        log_one_minus_alphas_cumprod :=
          map (fun c => ln (1 - c)) alphas_cumprod;
        sqrt_recip_alphas_cumprod :=
          map (fun c => sqrt (1 / c)) alphas_cumprod;
        sqrt_recipm1_alphas_cumprod :=
          map (fun c => sqrt (1 / c - 1)) alphas_cumprod;
        posterior_variance := posterior_variance;
        posterior_log_variance_clipped :=
          map ln (pv1 :: tail posterior_variance);
        posterior_mean_coef1 :=
          zip_with3 (fun b p c => (b * sqrt p / (1 - c))%R)
                    betas alphas_cumprod_prev alphas_cumprod;
        posterior_mean_coef2 :=
          zip_with3 (fun p a c => ((1 - p) * sqrt a / (1 - c))%R)
                    alphas_cumprod_prev alphas alphas_cumprod |}.

(** ** Respaced process: [SpacedDiffusion.__init__] *)

Record SpacedDiffusion := {
  use_timesteps : gset Z;
  timestep_map : list Z;
  original_num_steps : Z;
  diffusion :> GaussianDiffusion
}.

(** The loop [for i, alpha_cumprod in enumerate(base_diffusion.alphas_cumprod)]
    with its three mutable variables, in exact arithmetic;
    [IEEE.respace_loop] computes the new variances in float64. *)
Fixpoint respace_loop (use : gset Z) (i : Z) (cumprods : list R)
    (last_alpha_cumprod : R) (new_betas : list float64) (tmap : list Z)
  : list float64 * list Z :=
  match cumprods with
  | [] => (new_betas, tmap)
  | alpha_cumprod :: rest =>
      if bool_decide (i ∈ use) then
        respace_loop use (i + 1) rest alpha_cumprod
          (new_betas ++ [one_minus (np_div alpha_cumprod last_alpha_cumprod)])
          (tmap ++ [i])
      else respace_loop use (i + 1) rest last_alpha_cumprod new_betas tmap
  end.

Definition SpacedDiffusion_init (use : gset Z) (kw : kwargs)
    (betas0 : list float64) : result SpacedDiffusion :=
  let original_num_steps := Z.of_nat (length betas0) in
  base_diffusion ← GaussianDiffusion_init kw betas0;
  let '(new_betas, tmap) :=
    respace_loop use 0 (alphas_cumprod base_diffusion) 1%R [] [] in
  gd ← GaussianDiffusion_init kw new_betas;
  Ok {| use_timesteps := use;
        timestep_map := tmap;
        original_num_steps := original_num_steps;
        diffusion := gd |}.

(** ** Tensors *)

(** A batch of images: batch, channel, flattened spatial positions. *)
Abbreviation Tensor := (list (list (list R))).

Definition shape (x : Tensor) : list (list nat) := map (map length) x.

(** [x.shape[1]]. *)
Definition channels (x : Tensor) : Z :=
  match x with
  | [] => 0
  | e :: _ => Z.of_nat (length e)
  end.

Definition tmap (f : R -> R) (x : Tensor) : Tensor := map (map (map f)) x.

(** Element-wise binary operation on tensors of one shape. *)
Definition tzip (f : R -> R -> R) (x y : Tensor) : Tensor :=
  zip_with (zip_with (zip_with f)) x y.

Definition tadd : Tensor -> Tensor -> Tensor := tzip Rplus.
Definition tsub : Tensor -> Tensor -> Tensor := tzip Rminus.
Definition tmul : Tensor -> Tensor -> Tensor := tzip Rmult.
Definition tdiv : Tensor -> Tensor -> Tensor := tzip Rdiv.

(** Every entry of a tensor satisfies [P]. *)
Definition tensor_all (P : R -> Prop) (x : Tensor) : Prop :=
  Forall (Forall (Forall P)) x.

Definition same_shape (x y : Tensor) : bool :=
  bool_decide (shape x = shape y).

(** The process-wide random generator as seen by one call: the normal draw
    for each position of the tensor being filled. *)
Definition noise_source := nat -> nat -> nat -> R.

(** [torch.randn_like(x)]. *)
Definition randn_like (omega : noise_source) (x : Tensor) : Tensor :=
  imap (fun n e => imap (fun c ch => imap (fun k _ => omega n c k) ch) e) x.

(** [torch.split(model_output, c, dim=1)] unpacked into two tensors. *)
Definition split_channels (c : Z) (y : Tensor) : Tensor * Tensor :=
  (map (take (Z.to_nat c)) y, map (drop (Z.to_nat c)) y).

(** [array[time]] followed by the broadcast of [expand_as(target)]: one
    value per batch element, or a single value for the whole batch. *)
Definition extract_and_expand (array : list R) (time : list Z)
    (target : Tensor) : result Tensor :=
  vals ← mapM (py_index array) time;
  if bool_decide (length vals = length target) then
    Ok (zip_with (fun v e => map (map (fun _ => v)) e) vals target)
  else
    match vals with
    | [v] => Ok (map (map (map (fun _ => v))) target)
    | _ => Raise RuntimeError
    end.

(** ** The model and its wrapper *)

(** The timestep argument a model receives: the integer indices, or their
    float rescaling. *)
Inductive timesteps :=
| IntT (ts : list Z)
| FloatT (ts : list R).

Definition callable := Tensor -> timesteps -> result Tensor.

Inductive model_t :=
| Model (f : callable)
| _WrappedModel (model : callable) (timestep_map : list Z)
    (rescale_timesteps : bool) (original_num_steps : Z).

Definition _WrappedModel_call (model : callable) (timestep_map : list Z)
    (rescale_timesteps : bool) (original_num_steps : Z)
    (x : Tensor) (ts : timesteps) : result Tensor :=
  match ts with
  | FloatT _ => Raise IndexError
  | IntT ts =>
      new_ts ← mapM (py_index timestep_map) ts;
      if rescale_timesteps then
        if original_num_steps =? 0 then Raise ZeroDivisionError
        else model x (FloatT (map (fun i =>
                        (IZR i * (1000 / IZR original_num_steps))%R) new_ts))
      else model x (IntT new_ts)
  end.

Definition call_model (m : model_t) : callable :=
  match m with
  | Model f => f
  | _WrappedModel model tmap rescale orig =>
      _WrappedModel_call model tmap rescale orig
  end.

Definition _wrap_model (sd : SpacedDiffusion) (m : model_t) : model_t :=
  match m with
  | _WrappedModel _ _ _ _ => m
  | Model f =>
      _WrappedModel f (timestep_map sd) (rescale_timesteps sd)
                    (original_num_steps sd)
  end.

Definition GaussianDiffusion_scale_timesteps (gd : GaussianDiffusion)
    (t : list Z) : timesteps :=
  if rescale_timesteps gd
  then FloatT (map (fun i => (IZR i * (1000 / IZR (num_timesteps gd)))%R) t)
  else IntT t.

Definition SpacedDiffusion_scale_timesteps (sd : SpacedDiffusion)
    (t : list Z) : timesteps := IntT t.

(** ** Reverse-process prediction and the transition policies *)

Record prediction := {
  mean : Tensor;
  variance : Tensor;
  log_variance : Tensor;
  pred_xstart : Tensor
}.

Section Process.

(** The mean and variance processors are external collaborators, built
    from the schedule of the process that owns them. *)
Variable get_mean_and_xstart :
  list R -> Tensor -> list Z -> Tensor -> result (Tensor * Tensor).
Variable get_variance :
  list R -> Tensor -> list Z -> result (Tensor * Tensor).

(** What [p_mean_variance] does with the raw output of the model. *)
Definition process_model_output (gd : GaussianDiffusion) (x : Tensor)
    (t : list Z) (model_output : Tensor) : result prediction :=
  let '(model_output, model_var_values) :=
    if channels model_output =? 2 * channels x
    then split_channels (channels x) model_output
    else (model_output, model_output) in
  '(model_mean, pred_xstart) ←
    get_mean_and_xstart (betas gd) x t model_output;
  '(model_variance, model_log_variance) ←
    get_variance (betas gd) model_var_values t;
  _ ← assert (same_shape model_mean model_log_variance
              && same_shape model_log_variance pred_xstart
              && same_shape pred_xstart x);
  Ok {| mean := model_mean;
        variance := model_variance;
        log_variance := model_log_variance;
        pred_xstart := pred_xstart |}.

(** [GaussianDiffusion.p_mean_variance]; [_scale_timesteps] is the method
    of the dynamic class of [self]. *)
Definition GaussianDiffusion_p_mean_variance
    (_scale_timesteps : list Z -> timesteps) (gd : GaussianDiffusion)
    (model : model_t) (x : Tensor) (t : list Z) : result prediction :=
  model_output ← call_model model x (_scale_timesteps t);
  process_model_output gd x t model_output.

Definition SpacedDiffusion_p_mean_variance (sd : SpacedDiffusion)
    (model : model_t) (x : Tensor) (t : list Z) : result prediction :=
  GaussianDiffusion_p_mean_variance (SpacedDiffusion_scale_timesteps sd)
    sd (_wrap_model sd model) x t.

Definition DDPM_p_sample (sd : SpacedDiffusion) (model : model_t)
    (x : Tensor) (t : list Z) (omega : noise_source)
  : result (Tensor * Tensor) :=
  out ← SpacedDiffusion_p_mean_variance sd model x t;
  let sample := mean out in
  let noise := randn_like omega x in
  t0 ← py_index t 0;
  if negb (t0 =? 0) then
    Ok (tadd sample (tmul (tmap (fun v => exp (0.5 * v)) (log_variance out))
                          noise),
        pred_xstart out)
  else Ok (sample, pred_xstart out).

Definition predict_eps_from_x_start (gd : GaussianDiffusion)
    (x_t : Tensor) (t : list Z) (pred_xstart : Tensor) : result Tensor :=
  coef1 ← extract_and_expand (sqrt_recip_alphas_cumprod gd) t x_t;
  coef2 ← extract_and_expand (sqrt_recipm1_alphas_cumprod gd) t x_t;
  Ok (tdiv (tsub (tmul coef1 x_t) pred_xstart) coef2).

(** The truth value of [t != 0] in an [if]: defined for a tensor of
    exactly one element. *)
Definition tensor_nonzero (t : list Z) : result bool :=
  match t with
  | [t0] => Ok (negb (t0 =? 0))
  | _ => Raise RuntimeError
  end.

(** [DDIM.p_sample] in exact arithmetic, where adding [sigma * noise] with
    [sigma = 0] changes nothing; [IEEE.DDIM_p_sample] is the step on float
    tensors. *)
Definition DDIM_p_sample (sd : SpacedDiffusion) (model : model_t)
    (x : Tensor) (t : list Z) (eta : R) (omega : noise_source)
  : result (Tensor * Tensor) :=
  out ← SpacedDiffusion_p_mean_variance sd model x t;
  eps ← predict_eps_from_x_start sd x t (pred_xstart out);
  alpha_bar ← extract_and_expand (alphas_cumprod sd) t x;
  alpha_bar_prev ← extract_and_expand (alphas_cumprod_prev sd) t x;
  let sigma :=
    tmul (tmap (Rmult eta)
            (tmap sqrt (tzip (fun p a => ((1 - p) / (1 - a))%R)
                             alpha_bar_prev alpha_bar)))
         (tmap sqrt (tzip (fun a p => (1 - a / p)%R)
                          alpha_bar alpha_bar_prev)) in
  let noise := randn_like omega x in
  let mean_pred :=
    tadd (tmul (pred_xstart out) (tmap sqrt alpha_bar_prev))
         (tmul (tmap sqrt (tzip (fun p s => (1 - p - s ^ 2)%R)
                                alpha_bar_prev sigma))
               eps) in
  let sample := mean_pred in
  tensor_nonzero t ≫= λ nz : bool,
  if nz then Ok (tadd sample (tmul sigma noise), pred_xstart out)
  else Ok (sample, pred_xstart out).

End Process.

(** The noise term of the ancestral step. *)
Definition ancestral_noise (out : prediction) (noise : Tensor) : Tensor :=
  tmul (tmap (fun v => exp (0.5 * v)) (log_variance out)) noise.

(** The sample of the deterministic step without its noise term, for the
    interpolation variance [sigma = 0]. *)
Definition ddim_mean_pred (pred_xstart alpha_bar_prev eps : Tensor) : Tensor :=
  tadd (tmul pred_xstart (tmap sqrt alpha_bar_prev))
       (tmul (tmap sqrt (tmap (fun p => (1 - p)%R) alpha_bar_prev)) eps).

(** ** Sampling loop: [GaussianDiffusion.p_sample_loop] *)

(** The [sample_pattern] dictionary. *)
Record sample_pattern := {
  pattern : option string;
  start_guidance : R;
  stop_guidance : R
}.

(** Conversion of a float to [int64] by [torch.tensor]: truncation. *)
Definition trunc (r : R) : Z :=
  if bool_decide (0 <= r)%R then Int_part r else (- Int_part (- r))%Z.

(** The annealing reparameterisation of the time axis, for [factor = 1]:
    the value of the one-element tensor [time]. *)
Definition annealed_time (steps idx : Z) : Z :=
  let factor := 1%R in
  let idx := (IZR idx / factor)%R in
  let t := ((idx + IZR (Int_part (idx / 4)) * cos ((IZR steps - idx) / 50))
            / IZR steps * 1000)%R in
  Z.min (Z.max (trunc t) 1) 1000 - 1.

(** [time.cpu().item()]: defined for a tensor of exactly one element. *)
Definition item (time : list Z) : result Z :=
  match time with
  | [v] => Ok v
  | _ => Raise RuntimeError
  end.

(** A monadic left fold: a [for] loop whose body may raise. *)
Fixpoint for_each {A S} (body : A -> S -> result S) (l : list A) (s : S)
  : result S :=
  match l with
  | [] => Ok s
  | a :: l' => s' ← body a s; for_each body l' s'
  end.

Section Loop.

(** Everything the loop carries besides the sample: losses, diagnostics,
    recordings, the state of the random generator. *)
Variable Aux : Type.

(** The external policy giving the number of repetitions at an index. *)
Variable set_alternate_length : sample_pattern -> Z -> Z -> Z.

(** The body of the inner loop: model call, transition, guidance and
    recording, for the loop index, the time tensor, the guidance flag and
    the repetition counter out of the repetition count. *)
Variable repetition :
  GaussianDiffusion -> Z -> list Z -> bool -> Z -> Z ->
  Tensor * Aux -> result (Tensor * Aux).

Record loop_state := {
  img : Tensor;
  aux : Aux;
  time_val_list : list Z
}.

Definition guidance_flag (gd : GaussianDiffusion) (sp : sample_pattern)
    (time : Z) : bool :=
  bool_decide (pattern sp = Some "original"%string)
  || bool_decide (pattern sp = None)
  || (bool_decide (IZR time <= start_guidance sp * IZR (num_timesteps gd))%R
      && bool_decide (stop_guidance sp * IZR (num_timesteps gd)
                      <= IZR time)%R).

(** One iteration of [for idx in pbar]. *)
Definition loop_body (gd : GaussianDiffusion) (sp : sample_pattern)
    (idx : Z) (st : loop_state) : result loop_state :=
  let steps := num_timesteps gd in
  let time :=
    if annealing_time gd then [annealed_time steps idx]
    else replicate (length (img st)) idx in
  tv ← item time;
  let time_val_list := time_val_list st ++ [tv] in
  let flag := guidance_flag gd sp tv in
  let alternate_len := set_alternate_length sp idx (num_timesteps gd) in
  '(img', aux') ←
    for_each (fun alternate_ii =>
                repetition gd idx time flag alternate_ii alternate_len)
             (py_range 0 alternate_len) (img st, aux st);
  Ok {| img := img'; aux := aux'; time_val_list := time_val_list |}.

(** The indices the loop visits: [list(range(total_steps))[::-1]]. *)
Definition loop_indices (gd : GaussianDiffusion) : list Z :=
  let factor := 1 in
  let total_steps := factor * num_timesteps gd in
  rev (py_range 0 total_steps).

Definition p_sample_loop (gd : GaussianDiffusion) (sp : sample_pattern)
    (x_start : Tensor) (aux0 : Aux) : result loop_state :=
  for_each (loop_body gd sp) (loop_indices gd)
           {| img := x_start; aux := aux0; time_val_list := [] |}.




End Loop.

(** ** Forward process and posterior: [q_mean_variance], [q_sample],
    [q_posterior_mean_variance] *)

Definition q_mean_variance (gd : GaussianDiffusion) (x_start : Tensor)
    (t : list Z) : result (Tensor * Tensor * Tensor) :=
  coef ← extract_and_expand (sqrt_alphas_cumprod gd) t x_start;
  variance ←
    extract_and_expand (map (fun c => (1 - c)%R) (alphas_cumprod gd))
                       t x_start;
  log_variance ←
    extract_and_expand (log_one_minus_alphas_cumprod gd) t x_start;
  Ok (tmul coef x_start, variance, log_variance).

Definition q_sample (gd : GaussianDiffusion) (x_start : Tensor)
    (t : list Z) (omega : noise_source) : result Tensor :=
  let noise := randn_like omega x_start in
  _ ← assert (same_shape noise x_start);
  coef1 ← extract_and_expand (sqrt_alphas_cumprod gd) t x_start;
  coef2 ← extract_and_expand (sqrt_one_minus_alphas_cumprod gd) t x_start;
  Ok (tadd (tmul coef1 x_start) (tmul coef2 noise)).

Definition q_posterior_mean_variance (gd : GaussianDiffusion)
    (x_start x_t : Tensor) (t : list Z)
  : result (Tensor * Tensor * Tensor) :=
  _ ← assert (same_shape x_start x_t);
  coef1 ← extract_and_expand (posterior_mean_coef1 gd) t x_start;
  coef2 ← extract_and_expand (posterior_mean_coef2 gd) t x_t;
  let posterior_mean := tadd (tmul coef1 x_start) (tmul coef2 x_t) in
  posterior_variance ← extract_and_expand (posterior_variance gd) t x_t;
  posterior_log_variance_clipped ←
    extract_and_expand (posterior_log_variance_clipped gd) t x_t;
  _ ← assert (bool_decide (length posterior_mean = length posterior_variance)
              && bool_decide (length posterior_variance
                              = length posterior_log_variance_clipped)
              && bool_decide (length posterior_log_variance_clipped
                              = length x_start));
  Ok (posterior_mean, posterior_variance, posterior_log_variance_clipped).

(** The time index that [extract_and_expand] uses for batch element [n]:
    its own entry of [time], or the single entry that is broadcast. *)
Definition batch_time (time : list Z) (target : Tensor) (n : nat)
  : option Z :=
  if bool_decide (length time = length target) then time !! n
  else head time.

(** The entry of a tensor at a batch, channel and position. *)
Definition tget (x : Tensor) (n c k : nat) : option R :=
  e ← x !! n; r ← e !! c; r !! k.

(** ** Sampler registry and factory: [register_sampler], [get_sampler],
    [create_sampler] *)

(** The result of a registry operation, whose only exception is
    [NameError]. *)
Inductive registry_result (A : Type) :=
| Registered (a : A)
| RaiseNameError.
Arguments Registered {A} a.
Arguments RaiseNameError {A}.

Section Registry.

(** The sampler classes; a class object is truthy. *)
Variable sampler_class : Type.

(** [register_sampler(name)(cls)] on the module dictionary [__SAMPLER__]:
    the dictionary afterwards. *)
Definition register_sampler (name : string) (cls : sampler_class)
    (registry : gmap string sampler_class)
  : registry_result (gmap string sampler_class) :=
  match registry !! name with
  | Some _ => RaiseNameError
  | None => Registered (<[name := cls]> registry)
  end.

Definition get_sampler (name : string)
    (registry : gmap string sampler_class) : registry_result sampler_class :=
  match registry !! name with
  | None => RaiseNameError
  | Some cls => Registered cls
  end.

(** [create_sampler]: the class looked up and the process it is
    instantiated with.  [Counts []] stands for the falsy values of
    [timestep_respacing] (the empty string of the default, an empty list). *)
Definition create_sampler (registry : gmap string sampler_class)
    (sampler : string) (steps : Z) (noise_schedule : string) (kw : kwargs)
    (timestep_respacing : section_spec)
  : registry_result (result (sampler_class * SpacedDiffusion)) :=
  match get_sampler sampler registry with
  | RaiseNameError => RaiseNameError
  | Registered cls =>
      Registered
        (betas0 ← get_named_beta_schedule noise_schedule steps;
         let timestep_respacing :=
           match timestep_respacing with
           | Counts [] => Counts [steps]
           | _ => timestep_respacing
           end in
         use ← space_timesteps steps timestep_respacing;
         sd ← SpacedDiffusion_init use kw betas0;
         Ok (cls, sd))
  end.

End Registry.

(** The two classes that the module registers, and the registry after its
    import: the decorator [register_sampler(name='ddpm')] applied to [DDPM],
    then [register_sampler(name='ddim')] applied to [DDIM]. *)
Inductive sampler :=
| DDPM
| DDIM.

Definition __SAMPLER__ : registry_result (gmap string sampler) :=
  match register_sampler sampler "ddpm" DDPM ∅ with
  | Registered registry => register_sampler sampler "ddim" DDIM registry
  | RaiseNameError => RaiseNameError
  end.

(** * The code in binary floating point

    The definitions above compute in exact arithmetic.  The module [IEEE]
    follows the same source lines over IEEE 754 numbers, for the two places
    where rounding decides an integer or the bits of a result: the running
    position of [space_timesteps] (Python floats, binary64) and the
    deterministic step [DDIM.p_sample] (torch tensors, with the schedule
    arrays that numpy computes in binary64).  The operations are those of
    the Standard Library's [SpecFloat]: correctly rounded, to nearest with
    ties to even, one [nan]. *)

Module IEEE.

Abbreviation float := SpecFloat.spec_float.

(** The two dtypes of the code, with the bits of their mantissa and the
    exponent of their infinities: torch's default float32, and the float64
    of numpy and of Python's [float]. *)
Inductive dtype :=
| float32
| float64.

Definition prec (d : dtype) : Z :=
  match d with float32 => 24 | float64 => 53 end.

Definition emax (d : dtype) : Z :=
  match d with float32 => 128 | float64 => 1024 end.

Definition fadd (d : dtype) : float -> float -> float :=
  SpecFloat.SFadd (prec d) (emax d).
Definition fsub (d : dtype) : float -> float -> float :=
  SpecFloat.SFsub (prec d) (emax d).
Definition fmul (d : dtype) : float -> float -> float :=
  SpecFloat.SFmul (prec d) (emax d).
Definition fdiv (d : dtype) : float -> float -> float :=
  SpecFloat.SFdiv (prec d) (emax d).
Definition fsqrt (d : dtype) : float -> float :=
  SpecFloat.SFsqrt (prec d) (emax d).

(** Conversion of a float to a format: [.float()] and torch's type
    promotion. *)
Definition cast (d : dtype) (x : float) : float :=
  match x with
  | SpecFloat.S754_finite s m e =>
      SpecFloat.binary_round (prec d) (emax d) s m e
  | _ => x
  end.

(** An integer as a float of a format. *)
Definition of_int (d : dtype) (z : Z) : float :=
  SpecFloat.binary_normalize (prec d) (emax d) z 0 false.

Definition is_zero (x : float) : Prop :=
  match x with
  | SpecFloat.S754_zero _ => True
  | _ => False
  end.

(** Neither an infinity nor [nan]. *)
Definition is_finite (x : float) : Prop :=
  match x with
  | SpecFloat.S754_zero _ | SpecFloat.S754_finite _ _ _ => True
  | _ => False
  end.

(** The same bits, or two zeros (which may differ in sign): what [==]
    cannot tell apart, [nan] being one value here. *)
Definition same_number (x y : float) : Prop :=
  x = y \/ (is_zero x /\ is_zero y).

(** A zero or [nan]: what a product with the factor [0.0] is. *)
Definition zero_or_nan (x : float) : Prop :=
  match x with
  | SpecFloat.S754_zero _ | SpecFloat.S754_nan => True
  | _ => False
  end.

(** Two zeros, or [nan] twice. *)
Definition zeros_or_nans (x y : float) : Prop :=
  (is_zero x /\ is_zero y)
  \/ (x = SpecFloat.S754_nan /\ y = SpecFloat.S754_nan).

(** ** Python's [int / int] and [round(float)] *)

(** True division of two [int]s: the quotient rounded once to binary64. *)
Definition py_truediv (a b : Z) : result float :=
  if b =? 0 then Raise ZeroDivisionError
  else if a =? 0 then Ok (SpecFloat.S754_zero (b <? 0))
  else
    match fdiv float64
            (SpecFloat.S754_finite (a <? 0) (Z.to_pos (Z.abs a)) 0)
            (SpecFloat.S754_finite (b <? 0) (Z.to_pos (Z.abs b)) 0) with
    | SpecFloat.S754_infinity _ => Raise OverflowError
    | q => Ok q
    end.

(** [round(x)] on a float: the nearest integer, ties to even; no integer
    for an infinity or [nan]. *)
Definition py_round (x : float) : result Z :=
  match x with
  | SpecFloat.S754_zero _ => Ok 0
  | SpecFloat.S754_infinity _ => Raise OverflowError
  | SpecFloat.S754_nan => Raise ValueError
  | SpecFloat.S754_finite s m e =>
      let z :=
        match e with
        | Zneg p =>
            let d := Z.pow_pos 2 p in
            let q := Z.pos m / d in
            match 2 * (Z.pos m mod d) ?= d with
            | Lt => q
            | Gt => q + 1
            | Eq => if Z.even q then q else q + 1
            end
        | _ => Z.pos m * 2 ^ e
        end in
      Ok (if s then - z else z)
  end.

(** ** [space_timesteps] *)

(** The inner [for _ in range(section_count)] loop, with [n] iterations
    left: [cur_idx] is a Python float. *)
Fixpoint taken_loop (n : nat) (start_idx : Z) (frac_stride cur_idx : float)
  : result (list Z) :=
  match n with
  | O => Ok []
  | S n' =>
      r ← py_round cur_idx;
      rest ← taken_loop n' start_idx frac_stride
               (fadd float64 cur_idx frac_stride);
      Ok ((start_idx + r) :: rest)
  end.

Definition section_stride (size section_count : Z) : result float :=
  if section_count <=? 1 then Ok (of_int float64 1)
  else py_truediv (size - 1) (section_count - 1).

Definition section_steps (start_idx size section_count : Z)
  : result (list Z) :=
  if size <? section_count then Raise ValueError
  else
    frac_stride ← section_stride size section_count;
    taken_loop (Z.to_nat section_count) start_idx frac_stride
               (SpecFloat.S754_zero false).

Fixpoint sections_loop (i : Z) (section_counts : list Z)
    (size_per extra start_idx : Z) (all_steps : list Z) : result (list Z) :=
  match section_counts with
  | [] => Ok all_steps
  | section_count :: rest =>
      let size := size_per + (if i <? extra then 1 else 0) in
      taken_steps ← section_steps start_idx size section_count;
      sections_loop (i + 1) rest size_per extra (start_idx + size)
                    (all_steps ++ taken_steps)
  end.

Definition space_timesteps (num_timesteps : Z) (spec : section_spec)
  : result (gset Z) :=
  match spec with
  | Ddim desired_count =>
      ddim_search num_timesteps desired_count (py_range 1 num_timesteps)
  | Counts section_counts =>
      let n := Z.of_nat (length section_counts) in
      if n =? 0 then Raise ZeroDivisionError
      else
        let size_per := num_timesteps / n in
        let extra := num_timesteps mod n in
        all_steps ← sections_loop 0 section_counts size_per extra 0 [];
        Ok (list_to_set all_steps)
  end.

(** The value of [cur_idx] when the [i]-th step of a section is taken:
    [i] additions of the stride to [0.0]. *)
Fixpoint running_position (frac_stride : float) (i : nat) : float :=
  match i with
  | O => SpecFloat.S754_zero false
  | S i' => fadd float64 (running_position frac_stride i') frac_stride
  end.

(** The [i]-th step taken in a section. *)
Definition section_position (start_idx size section_count : Z) (i : nat)
  : result Z :=
  frac_stride ← section_stride size section_count;
  r ← py_round (running_position frac_stride i);
  Ok (start_idx + r).

(** ** The schedule arrays that need no logarithm *)

Record schedule := {
  betas : list float;
  alphas_cumprod : list float;
  alphas_cumprod_prev : list float;
  sqrt_recip_alphas_cumprod : list float;
  sqrt_recipm1_alphas_cumprod : list float;
  posterior_variance : list float
}.

Fixpoint cumprod_from (acc : float) (l : list float) : list float :=
  match l with
  | [] => []
  | a :: l' => fmul float64 acc a :: cumprod_from (fmul float64 acc a) l'
  end.

Definition cumprod (l : list float) : list float :=
  cumprod_from (of_int float64 1) l.

(** [GaussianDiffusion.__init__] on a float64 array of variances, for the
    arrays of [schedule]. *)
Definition GaussianDiffusion_init (betas0 : list float) : result schedule :=
  let one := of_int float64 1 in
  _ ← assert (forallb (fun b => SpecFloat.SFltb (SpecFloat.S754_zero false) b
                                && SpecFloat.SFleb b one) betas0);
  let alphas := map (fsub float64 one) betas0 in
  let alphas_cumprod := cumprod alphas in
  let alphas_cumprod_prev := one :: removelast alphas_cumprod in
  _ ← assert (Z.of_nat (length alphas_cumprod_prev)
              =? Z.of_nat (length betas0));
  let posterior_variance :=
    zip_with3 (fun b p c =>
                 fdiv float64 (fmul float64 b (fsub float64 one p))
                      (fsub float64 one c))
              betas0 alphas_cumprod_prev alphas_cumprod in
  _ ← py_index posterior_variance 1;
  Ok {| betas := betas0;
        alphas_cumprod := alphas_cumprod;
        alphas_cumprod_prev := alphas_cumprod_prev;
        sqrt_recip_alphas_cumprod :=
          map (fun c => fsqrt float64 (fdiv float64 one c)) alphas_cumprod;
        sqrt_recipm1_alphas_cumprod :=
          map (fun c => fsqrt float64 (fsub float64 (fdiv float64 one c) one))
              alphas_cumprod;
        posterior_variance := posterior_variance |}.

(** The loop of [SpacedDiffusion.__init__] over the cumulative products of
    the base process. *)
Fixpoint respace_loop (use : gset Z) (i : Z) (cumprods : list float)
    (last_alpha_cumprod : float) (new_betas : list float) : list float :=
  match cumprods with
  | [] => new_betas
  | alpha_cumprod :: rest =>
      if bool_decide (i ∈ use) then
        respace_loop use (i + 1) rest alpha_cumprod
          (new_betas
           ++ [fsub float64 (of_int float64 1)
                 (fdiv float64 alpha_cumprod last_alpha_cumprod)])
      else respace_loop use (i + 1) rest last_alpha_cumprod new_betas
  end.

Definition SpacedDiffusion_init (use : gset Z) (betas0 : list float)
  : result schedule :=
  base_diffusion ← GaussianDiffusion_init betas0;
  GaussianDiffusion_init
    (respace_loop use 0 (alphas_cumprod base_diffusion)
                  (of_int float64 1) []).

(** ** Tensors of floats *)

Abbreviation Tensor := (list (list (list float))).

Definition tmap (f : float -> float) (x : Tensor) : Tensor :=
  map (map (map f)) x.

Definition tzip (f : float -> float -> float) (x y : Tensor) : Tensor :=
  zip_with (zip_with (zip_with f)) x y.

Definition tensor_all (P : float -> Prop) (x : Tensor) : Prop :=
  Forall (Forall (Forall P)) x.

(** Two tensors of one shape whose entries are related one by one. *)
Definition tensor_rel (P : float -> float -> Prop) (x y : Tensor) : Prop :=
  Forall2 (Forall2 (Forall2 P)) x y.

Definition noise_source := nat -> nat -> nat -> float.

Definition randn_like (omega : noise_source) (x : Tensor) : Tensor :=
  imap (fun n e => imap (fun c ch => imap (fun k _ => omega n c k) ch) e) x.

(** [extract_and_expand]: the entries looked up in the float64 array are
    converted by [.float()], then broadcast to the shape of the target. *)
Definition extract_and_expand (array : list float) (time : list Z)
    (target : Tensor) : result Tensor :=
  vals ← mapM (py_index array) time;
  let vals := map (cast float32) vals in
  if bool_decide (length vals = length target) then
    Ok (zip_with (fun v e => map (map (fun _ => v)) e) vals target)
  else
    match vals with
    | [v] => Ok (map (map (map (fun _ => v))) target)
    | _ => Raise RuntimeError
    end.

(** ** [DDIM.p_sample] *)

Section Step.

(** The dtype of the sample, of the prediction and of the noise. *)
Variable d : dtype.

(** [p_mean_variance] up to its entry [pred_xstart]: the model, the
    processors and the shape assertion are external. *)
Variable p_mean_variance : Tensor -> list Z -> result Tensor.

(** A float32 coefficient tensor in an operation with a tensor of dtype
    [d]. *)
Definition promote (c : Tensor) : Tensor := tmap (cast d) c.

Definition predict_eps_from_x_start (sd : schedule) (x_t : Tensor)
    (t : list Z) (pred_xstart : Tensor) : result Tensor :=
  coef1 ← extract_and_expand (sqrt_recip_alphas_cumprod sd) t x_t;
  coef2 ← extract_and_expand (sqrt_recipm1_alphas_cumprod sd) t x_t;
  Ok (tzip (fdiv d)
           (tzip (fsub d) (tzip (fmul d) (promote coef1) x_t) pred_xstart)
           (promote coef2)).

Definition DDIM_p_sample (sd : schedule) (x : Tensor) (t : list Z)
    (eta : float) (omega : noise_source) : result (Tensor * Tensor) :=
  pred_xstart ← p_mean_variance x t;
  eps ← predict_eps_from_x_start sd x t pred_xstart;
  alpha_bar ← extract_and_expand (alphas_cumprod sd) t x;
  alpha_bar_prev ← extract_and_expand (alphas_cumprod_prev sd) t x;
  let one := of_int float32 1 in
  let sigma :=
    tzip (fmul float32)
      (tmap (fmul float32 (cast float32 eta))
         (tmap (fsqrt float32)
            (tzip (fun p a => fdiv float32 (fsub float32 one p)
                                   (fsub float32 one a))
                  alpha_bar_prev alpha_bar)))
      (tmap (fsqrt float32)
         (tzip (fun a p => fsub float32 one (fdiv float32 a p))
               alpha_bar alpha_bar_prev)) in
  let noise := randn_like omega x in
  let mean_pred :=
    tzip (fadd d)
      (tzip (fmul d) pred_xstart
            (promote (tmap (fsqrt float32) alpha_bar_prev)))
      (tzip (fmul d)
         (promote
            (tmap (fsqrt float32)
               (tzip (fun p s => fsub float32 (fsub float32 one p)
                                      (fmul float32 s s))
                     alpha_bar_prev sigma)))
         eps) in
  let sample := mean_pred in
  tensor_nonzero t ≫= λ nz : bool,
  if nz then Ok (tzip (fadd d) sample (tzip (fmul d) (promote sigma) noise),
                 pred_xstart)
  else Ok (sample, pred_xstart).

End Step.

End IEEE.

(** * Theorems *)

(** ** The respacer on small inputs *)

Example space_timesteps_ddim_10_5 :
  space_timesteps 10 (Ddim 5) = Ok (list_to_set [0; 2; 4; 6; 8]).
Proof. reflexivity. Qed.

Example space_timesteps_ddim_10_4 :
  space_timesteps 10 (Ddim 4) = Ok (list_to_set [0; 3; 6; 9]).
Proof. reflexivity. Qed.

Example space_timesteps_ddim_10_6 :
  space_timesteps 10 (Ddim 6) = Raise ValueError.
Proof. reflexivity. Qed.

Example space_timesteps_docstring :
  sections_loop 0 [10; 15; 20] 100 0 0 []
  = Ok [0; 11; 22; 33; 44; 55; 66; 77; 88; 99; 100; 107; 114; 121; 128;
        135; 142; 150; 157; 164; 171; 178; 185; 192; 199; 200; 205; 210;
        216; 221; 226; 231; 236; 242; 247; 252; 257; 263; 268; 273; 278;
        283; 289; 294; 299].
Proof. reflexivity. Qed.

Example sections_loop_11 :
  sections_loop 0 [3; 2] 5 1 0 [] = Ok [0; 2; 5; 6; 10].
Proof. reflexivity. Qed.

(** ** Ranges *)

Lemma py_range_cons (a : Z) (n : nat) :
  map (fun k => a + Z.of_nat k) (seq 0 (S n))
  = a :: map (fun k => (a + 1) + Z.of_nat k) (seq 0 n).
Proof.
  cbn [seq map]. f_equal; [lia|].
  rewrite <- seq_shift, map_map. apply map_ext. intros k. lia.
Qed.

Lemma range_len_nonneg (stop step : Z) : 1 <= step -> 0 <= range_len stop step.
Proof.
  intros Hs. unfold range_len. destruct (stop <=? 0) eqn:E; [lia|].
  apply Z.leb_gt in E. apply Z.div_pos; lia.
Qed.

(** Below [stop], the multiples [k * step] are those with
    [k < range_len stop step]. *)
Lemma range_len_spec (stop step k : Z) :
  1 <= step -> 0 <= k -> (k < range_len stop step <-> k * step < stop).
Proof.
  intros Hs Hk. unfold range_len. destruct (stop <=? 0) eqn:E.
  - apply Z.leb_le in E. nia.
  - apply Z.leb_gt in E.
    pose proof (Z.div_mod (stop + step - 1) step ltac:(lia)) as Hd.
    pose proof (Z.mod_pos_bound (stop + step - 1) step ltac:(lia)) as Hm.
    set (q := (stop + step - 1) / step) in *.
    set (r := (stop + step - 1) mod step) in *.
    split; intros H; nia.
Qed.

Lemma elem_of_py_range0 (stop step x : Z) :
  1 <= step ->
  x ∈ py_range0 stop step <-> exists k, 0 <= k /\ x = k * step /\ x < stop.
Proof.
  intros Hs. unfold py_range0. rewrite list_elem_of_fmap. split.
  - intros (k & -> & Hk). apply elem_of_seq in Hk.
    exists (Z.of_nat k). split; [lia|]. split; [done|].
    apply range_len_spec; lia.
  - intros (k & Hk & -> & Hlt). exists (Z.to_nat k). split; [lia|].
    apply elem_of_seq. apply range_len_spec in Hlt; lia.
Qed.

Lemma NoDup_py_range0 (stop step : Z) :
  1 <= step -> NoDup (py_range0 stop step).
Proof.
  intros Hs. unfold py_range0. apply NoDup_fmap_2; [|apply NoDup_seq].
  intros a b Hab. nia.
Qed.

Lemma length_py_range0 (stop step : Z) :
  length (py_range0 stop step) = Z.to_nat (range_len stop step).
Proof. unfold py_range0. by rewrite length_map, length_seq. Qed.

(** ** Fixed-stride respacing *)

Lemma ddim_search_cases (N K : Z) (n : nat) : forall a : Z,
  (ddim_search N K (map (fun k => a + Z.of_nat k) (seq 0 n)) = Raise ValueError
   /\ forall s, a <= s < a + Z.of_nat n -> range_len N s <> K)
  \/ (exists s0, a <= s0 < a + Z.of_nat n /\ range_len N s0 = K
        /\ (forall s', a <= s' < s0 -> range_len N s' <> K)
        /\ ddim_search N K (map (fun k => a + Z.of_nat k) (seq 0 n))
           = Ok (list_to_set (py_range0 N s0))).
Proof.
  induction n as [|n IH]; intros a.
  - left. split; [done|]. intros s Hs. lia.
  - rewrite py_range_cons. cbn [ddim_search].
    destruct (range_len N a =? K) eqn:E.
    + apply Z.eqb_eq in E. right. exists a. repeat split; try lia; done.
    + apply Z.eqb_neq in E.
      destruct (IH (a + 1)) as [[Hr Hall]|(s0 & Hs0 & HK & Hmin & Hr)].
      * left. split; [done|]. intros s Hs.
        destruct (decide (s = a)) as [->|]; [done|]. apply Hall. lia.
      * right. exists s0. repeat split; try lia; try done.
        intros s' Hs'. destruct (decide (s' = a)) as [->|]; [done|].
        apply Hmin. lia.
Qed.

(** C3. Fixed-stride respacing.  For a process of [N] steps and a request
    [ddimK]: if some stride in [1, N) makes the progression
    0, stride, 2*stride, ... below [N] have exactly [K] elements, then
    [space_timesteps] returns that progression for the smallest such stride,
    and the returned set has exactly [K] elements; if no stride in [1, N)
    does, the call raises. *)
Theorem space_timesteps_ddim (N K : Z) :
  ((exists s, 1 <= s < N /\ range_len N s = K) ->
   exists s0 (steps : gset Z),
     1 <= s0 < N /\ range_len N s0 = K
     /\ (forall s', 1 <= s' < s0 -> range_len N s' <> K)
     /\ space_timesteps N (Ddim K) = Ok steps
     /\ (forall x, x ∈ steps <-> exists k, 0 <= k /\ x = k * s0 /\ x < N)
     /\ Z.of_nat (size steps) = K)
  /\ ((forall s, 1 <= s < N -> range_len N s <> K) ->
      space_timesteps N (Ddim K) = Raise ValueError).
Proof.
  unfold space_timesteps, py_range.
  destruct (ddim_search_cases N K (Z.to_nat (N - 1)) 1)
    as [[Hr Hall]|(s0 & Hs0 & HK & Hmin & Hr)].
  - split.
    + intros (s & Hs & HsK). exfalso. apply (Hall s); [lia|done].
    + intros _. exact Hr.
  - split.
    + intros _. exists s0, (list_to_set (py_range0 N s0)).
      split; [lia|]. split; [done|]. split; [done|]. split; [done|]. split.
      * intros x. rewrite elem_of_list_to_set. apply elem_of_py_range0. lia.
      * rewrite size_list_to_set by (apply NoDup_py_range0; lia).
        rewrite length_py_range0, Z2Nat.id; [done|].
        rewrite HK. rewrite <- HK. apply range_len_nonneg. lia.
    + intros Hall. exfalso. apply (Hall s0); [lia|done].
Qed.

Lemma space_timesteps_ddim_witness :
  (exists steps : gset Z,
      space_timesteps 10 (Ddim 4) = Ok steps /\ Z.of_nat (size steps) = 4)
  /\ space_timesteps 10 (Ddim 6) = Raise ValueError.
Proof.
  split.
  - destruct (proj1 (space_timesteps_ddim 10 4))
      as (s0 & steps & _ & _ & _ & Hr & _ & Hsz).
    + exists 3. split; [lia|reflexivity].
    + exists steps. split; assumption.
  - apply (proj2 (space_timesteps_ddim 10 6)).
    intros s Hs.
    assert (s = 1 \/ s = 2 \/ s = 3 \/ s = 4 \/ s = 5 \/ s = 6 \/ s = 7
            \/ s = 8 \/ s = 9) as Hc by lia.
    repeat (destruct Hc as [->|Hc]; [by vm_compute|]). subst s. by vm_compute.
Defined.

Lemma py_round_comp (p q : Q) : (p == q)%Q -> py_round p = py_round q.
Proof.
  intros H. unfold py_round. rewrite (Qfloor_comp _ _ H).
  assert (Hc : (p - inject_Z (Qfloor q) ?= 1 # 2)%Q
               = (q - inject_Z (Qfloor q) ?= 1 # 2)%Q) by (by rewrite H).
  by rewrite Hc.
Qed.

Lemma py_round_inject_Z (z : Z) : py_round (inject_Z z) = z.
Proof.
  unfold py_round. rewrite Qfloor_Z.
  assert (Hlt : (inject_Z z - inject_Z z < 1 # 2)%Q).
  { assert (He : (inject_Z z - inject_Z z == 0)%Q) by ring. by rewrite He. }
  by rewrite (proj1 (Qlt_alt _ _) Hlt).
Qed.

Lemma taken_loop_spec (n : nat) (start : Z) (frac : Q) : forall cur : Q,
  taken_loop n start frac cur
  = map (fun i => start + py_round (cur + inject_Z (Z.of_nat i) * frac)%Q)
        (seq 0 n).
Proof.
  induction n as [|n IH]; intros cur; [done|].
  cbn [taken_loop seq map]. f_equal.
  - f_equal. apply py_round_comp. cbn. ring.
  - rewrite IH, <- seq_shift, map_map. apply map_ext. intros i.
    f_equal. apply py_round_comp.
    rewrite Nat2Z.inj_succ. unfold Z.succ. rewrite inject_Z_plus. ring.
Qed.

(** ** Section-based respacing *)

Lemma section_steps_ok (start size count : Z) :
  count <= size ->
  section_steps start size count
  = Ok (map (fun k => section_position start size count (Z.of_nat k))
            (seq 0 (Z.to_nat count))).
Proof.
  intros Hle. unfold section_steps.
  destruct (size <? count) eqn:E; [apply Z.ltb_lt in E; lia|].
  f_equal. rewrite taken_loop_spec. apply map_ext. intros k.
  unfold section_position, section_stride. f_equal. apply py_round_comp. ring.
Qed.

Lemma section_steps_oversized (start size count : Z) :
  size < count -> section_steps start size count = Raise ValueError.
Proof.
  intros Hlt. unfold section_steps.
  by destruct (size <? count) eqn:E; [|apply Z.ltb_ge in E; lia].
Qed.

Lemma elem_of_section_positions (start size count x : Z) :
  x ∈ map (fun k => section_position start size count (Z.of_nat k))
          (seq 0 (Z.to_nat count))
  <-> exists k, 0 <= k < count /\ x = section_position start size count k.
Proof.
  rewrite list_elem_of_fmap. split.
  - intros (k & -> & Hk). apply elem_of_seq in Hk. exists (Z.of_nat k).
    split; [lia|done].
  - intros (k & Hk & ->). exists (Z.to_nat k). rewrite Z2Nat.id by lia.
    split; [done|]. apply elem_of_seq. lia.
Qed.

Lemma section_position_first (start size count : Z) :
  section_position start size count 0 = start.
Proof.
  unfold section_position.
  rewrite (py_round_comp _ (inject_Z 0)) by (cbn; ring).
  rewrite py_round_inject_Z. lia.
Qed.

Lemma section_position_last (start size count : Z) :
  1 < count ->
  section_position start size count (count - 1) = start + size - 1.
Proof.
  intros Hc. unfold section_position, section_stride.
  destruct (count <=? 1) eqn:E; [apply Z.leb_le in E; lia|].
  rewrite (py_round_comp _ (inject_Z (size - 1))).
  - rewrite py_round_inject_Z. lia.
  - field. intros H0. unfold Qeq in H0. cbn in H0. lia.
Qed.

Lemma section_start_succ (N n j : Z) :
  0 <= j ->
  section_start N n (j + 1) = section_start N n j + section_size N n j.
Proof.
  intros Hj. unfold section_start, section_size.
  destruct (j <? N mod n) eqn:E;
    [apply Z.ltb_lt in E|apply Z.ltb_ge in E]; lia.
Qed.

Lemma sections_loop_ok (N n : Z) (counts : list Z) : forall i start acc,
  0 <= i -> start = section_start N n i ->
  (forall (j : nat) K, counts !! j = Some K ->
                       K <= section_size N n (i + Z.of_nat j)) ->
  exists taken,
    sections_loop i counts (N / n) (N mod n) start acc = Ok (acc ++ taken)
    /\ forall x, x ∈ taken <->
         exists (j : nat) K k,
           counts !! j = Some K /\ 0 <= k < K
           /\ x = section_position (section_start N n (i + Z.of_nat j))
                    (section_size N n (i + Z.of_nat j)) K k.
Proof.
  induction counts as [|c rest IH]; intros i start acc Hi Hstart Hle.
  - exists []. split; [by rewrite app_nil_r|].
    intros x. split; [by intros ?%elem_of_nil|].
    by intros (j & K & k & Hj & _).
  - cbn [sections_loop]. fold (section_size N n i).
    pose proof (Hle 0%nat c eq_refl) as Hc. rewrite Z.add_0_r in Hc.
    rewrite (section_steps_ok _ _ _ Hc). cbn.
    destruct (IH (i + 1) (start + section_size N n i)
                 (acc ++ map (fun k => section_position start
                                (section_size N n i) c (Z.of_nat k))
                             (seq 0 (Z.to_nat c))))
      as (taken & Hr & Hin).
    + lia.
    + rewrite section_start_succ by lia. lia.
    + intros j K Hj.
      replace (i + 1 + Z.of_nat j) with (i + Z.of_nat (S j)) by lia.
      by apply Hle.
    + eexists. split; [rewrite Hr; by rewrite <- app_assoc|].
      intros x. rewrite elem_of_app, elem_of_section_positions, Hin. split.
      * intros [(k & Hk & ->)|(j & K & k & Hj & Hk & ->)].
        -- exists 0%nat, c, k. rewrite Z.add_0_r, <- Hstart. done.
        -- exists (S j), K, k.
           replace (i + Z.of_nat (S j)) with (i + 1 + Z.of_nat j) by lia. done.
      * intros (j & K & k & Hj & Hk & ->). destruct j as [|j].
        -- left. injection Hj as ->. exists k.
           rewrite Z.add_0_r, <- Hstart. done.
        -- right. exists j, K, k.
           replace (i + 1 + Z.of_nat j) with (i + Z.of_nat (S j)) by lia. done.
Qed.

Lemma sections_loop_oversized (N n : Z) (counts : list Z) : forall i start acc,
  (exists (j : nat) K, counts !! j = Some K
                       /\ section_size N n (i + Z.of_nat j) < K) ->
  sections_loop i counts (N / n) (N mod n) start acc = Raise ValueError.
Proof.
  induction counts as [|c rest IH]; intros i start acc (j & K & Hj & Hlt).
  - done.
  - cbn [sections_loop]. fold (section_size N n i).
    destruct (Z_lt_le_dec (section_size N n i) c) as [Hc|Hc].
    + by rewrite section_steps_oversized.
    + rewrite (section_steps_ok _ _ _ Hc). cbn. apply IH.
      destruct j as [|j].
      * injection Hj as ->. rewrite Z.add_0_r in Hlt. lia.
      * exists j, K. split; [done|].
        by replace (i + 1 + Z.of_nat j) with (i + Z.of_nat (S j)) by lia.
Qed.

(** Section-based placement in exact arithmetic, where the running sum of
    [i] strides is [i * (S - 1) / (K - 1)].  With [n] sections over [N]
    steps, section [j] has [S = section_size N n j] steps from
    [section_start N n j].  If every section requests at most its size, the
    retained indices are exactly the positions
    [start + round (i * (S - 1) / (K - 1))] for [i] in [0, K) of every
    section ([start] itself when [K <= 1]), and a section with [1 < K]
    contributes both its first position [start] and its last position
    [start + S - 1].  If some section requests more than its size, the call
    raises.  The statement on Python floats, and an input where the two
    part, are at the end of the file. *)
Theorem space_timesteps_sections (N : Z) (counts : list Z) :
  let n := Z.of_nat (length counts) in
  ((forall (j : nat) K, counts !! j = Some K ->
                        K <= section_size N n (Z.of_nat j)) ->
   counts <> [] ->
   exists steps : gset Z,
     space_timesteps N (Counts counts) = Ok steps
     /\ (forall x, x ∈ steps <->
           exists (j : nat) K i,
             counts !! j = Some K /\ 0 <= i < K
             /\ x = section_position (section_start N n (Z.of_nat j))
                      (section_size N n (Z.of_nat j)) K i)
     /\ (forall (j : nat) K i, counts !! j = Some K -> K <= 1 ->
           0 <= i < K ->
           section_position (section_start N n (Z.of_nat j))
             (section_size N n (Z.of_nat j)) K i
           = section_start N n (Z.of_nat j))
     /\ (forall (j : nat) K, counts !! j = Some K -> 1 < K ->
           section_start N n (Z.of_nat j) ∈ steps
           /\ section_start N n (Z.of_nat j)
              + section_size N n (Z.of_nat j) - 1 ∈ steps))
  /\ ((exists (j : nat) K, counts !! j = Some K
                           /\ section_size N n (Z.of_nat j) < K) ->
      space_timesteps N (Counts counts) = Raise ValueError).
Proof.
  intros n. split.
  - intros Hle Hne. unfold space_timesteps. fold n.
    destruct (n =? 0) eqn:En.
    { apply Z.eqb_eq in En. destruct counts; [done|]. subst n. cbn in En. lia. }
    destruct (sections_loop_ok N n counts 0 0 []) as (taken & Hr & Hin);
      [lia| |by intros j K Hj; apply Hle|].
    { unfold section_start. apply Z.eqb_neq in En.
      pose proof (Z.mod_pos_bound N n ltac:(lia)). lia. }
    rewrite Hr. cbn. eexists. split; [done|].
    assert (Hmem : forall x, x ∈ (list_to_set taken : gset Z) <->
              exists (j : nat) K i,
                counts !! j = Some K /\ 0 <= i < K
                /\ x = section_position (section_start N n (Z.of_nat j))
                         (section_size N n (Z.of_nat j)) K i).
    { intros x. rewrite elem_of_list_to_set. apply Hin. }
    split; [exact Hmem|]. split.
    + intros j K i Hj HK Hi. assert (i = 0) as -> by lia.
      apply section_position_first.
    + intros j K Hj HK. split; apply Hmem.
      * exists j, K, 0. split; [done|]. split; [lia|].
        by rewrite section_position_first.
      * exists j, K, (K - 1). split; [done|]. split; [lia|].
        rewrite section_position_last by done. lia.
  - intros Hex. unfold space_timesteps. fold n.
    destruct (n =? 0) eqn:En.
    { apply Z.eqb_eq in En. destruct Hex as (j & K & Hj & _).
      destruct counts; [done|]. subst n. cbn in En. lia. }
    rewrite (sections_loop_oversized N n counts 0 0 []); [done|].
    exact Hex.
Qed.

Lemma space_timesteps_sections_witness :
  (exists steps : gset Z,
      space_timesteps 11 (Counts [3; 2]) = Ok steps
      /\ 0 ∈ steps /\ 5 ∈ steps /\ 6 ∈ steps /\ 10 ∈ steps)
  /\ space_timesteps 11 (Counts [3; 7]) = Raise ValueError.
Proof.
  split.
  - destruct (proj1 (space_timesteps_sections 11 [3; 2]))
      as (steps & Hr & _ & _ & Hends).
    + intros [|[|j]] K Hj; try done; injection Hj as <-; by vm_compute.
    + done.
    + exists steps. split; [exact Hr|].
      destruct (Hends 0%nat 3 eq_refl ltac:(lia)) as [H0 H5].
      destruct (Hends 1%nat 2 eq_refl ltac:(lia)) as [H6 H10].
      auto.
  - apply (proj2 (space_timesteps_sections 11 [3; 7])).
    exists 1%nat, 7. split; [done|]. by vm_compute.
Defined.

(** ** The cumulative-statistics cache *)

Lemma bind_Ok_inv {A B} (m : result A) (k : A -> result B) (b : B) :
  m ≫= k = Ok b -> exists a, m = Ok a /\ k a = Ok b.
Proof. destruct m as [a|e]; [|done]. intros H. by exists a. Qed.

Lemma assert_Ok_inv (c : bool) (u : unit) : assert c = Ok u -> c = true.
Proof. by destruct c. Qed.

Lemma GaussianDiffusion_init_inv (kw : kwargs) (betas0 : list float64)
    (gd : GaussianDiffusion) :
  GaussianDiffusion_init kw betas0 = Ok gd ->
  forallb beta_in_range betas0 = true
  /\ betas gd = map finite_value betas0
  /\ num_timesteps gd = Z.of_nat (length betas0)
  /\ rescale_timesteps gd = kw_rescale_timesteps kw
  /\ annealing_time gd = kw_annealing_time kw
  /\ alphas_cumprod gd
     = cumprod (map (fun b => (1 - b)%R) (map finite_value betas0))
  /\ alphas_cumprod_prev gd = 1%R :: removelast (alphas_cumprod gd)
  /\ posterior_variance gd
     = zip_with3 (fun b p c => (b * (1 - p) / (1 - c))%R)
         (betas gd) (alphas_cumprod_prev gd) (alphas_cumprod gd)
  /\ exists pv1, py_index (posterior_variance gd) 1 = Ok pv1
       /\ posterior_log_variance_clipped gd
          = map ln (pv1 :: tail (posterior_variance gd)).
Proof.
  unfold GaussianDiffusion_init. intros H.
  apply bind_Ok_inv in H as ([] & Hrange%assert_Ok_inv & H).
  apply bind_Ok_inv in H as ([] & Hlen%assert_Ok_inv & H).
  apply bind_Ok_inv in H as (pv1 & Hpv1 & H).
  injection H as <-. cbn.
  rewrite length_map. repeat split; try done. by exists pv1.
Qed.

(** ** Respacing round-trip *)

Lemma respace_loop_acc (use : gset Z) (cs : list R) : forall i last nb tm,
  respace_loop use i cs last nb tm
  = (nb ++ (respace_loop use i cs last [] []).1,
     tm ++ (respace_loop use i cs last [] []).2).
Proof.
  induction cs as [|a rest IH]; intros i last nb tm; cbn [respace_loop].
  - by rewrite !app_nil_r.
  - destruct (bool_decide (i ∈ use)); [|apply IH].
    rewrite (IH _ _ (nb ++ _) (tm ++ _)), (IH _ _ ([] ++ _) ([] ++ _)).
    cbn. by rewrite <- !app_assoc.
Qed.

Lemma beta_in_range_one_minus_div (a last : R) :
  beta_in_range (one_minus (np_div a last)) = true ->
  last <> 0%R
  /\ one_minus (np_div a last) = Finite (1 - a / last)%R.
Proof.
  unfold np_div. case_bool_decide as H0; cbn; [done|]. done.
Qed.

Lemma respace_loop_cumprod (use : gset Z) (cs : list R) :
  forall i last nb tm,
  respace_loop use i cs last [] [] = (nb, tm) ->
  forallb beta_in_range nb = true ->
  length nb = length tm
  /\ forall (k : nat) (j : Z), tm !! k = Some j ->
       i <= j /\ j ∈ use
       /\ cumprod_from last
            (map (fun b => (1 - b)%R) (map finite_value nb)) !! k
          = cs !! Z.to_nat (j - i).
Proof.
  induction cs as [|a rest IH]; intros i last nb tm Hloop Hrange.
  - injection Hloop as <- <-. split; [done|]. intros k j Hk. done.
  - cbn [respace_loop] in Hloop. case_bool_decide as Hin.
    + rewrite respace_loop_acc in Hloop. cbn in Hloop.
      destruct (respace_loop use (i + 1) rest a [] []) as [nb1 tm1] eqn:E.
      injection Hloop as <- <-. cbn in Hrange.
      apply andb_true_iff in Hrange as [Hb Hrange].
      destruct (beta_in_range_one_minus_div _ _ Hb) as [Hlast Heq].
      destruct (IH _ _ _ _ E Hrange) as [Hlen Hk].
      split; [cbn; by rewrite Hlen|].
      rewrite Heq. cbn [map finite_value cumprod_from].
      replace (last * (1 - (1 - a / last)))%R with a by (by field).
      intros [|k] j Hj.
      * injection Hj as <-. split; [lia|]. split; [done|].
        by rewrite Z.sub_diag.
      * destruct (Hk k j Hj) as (Hle & Huse & Hc).
        split; [lia|]. split; [done|].
        etrans; [exact Hc|].
        replace (Z.to_nat (j - i)) with (S (Z.to_nat (j - (i + 1)))) by lia.
        done.
    + destruct (IH _ _ _ _ Hloop Hrange) as [Hlen Hk].
      split; [done|]. intros k j Hj.
      destruct (Hk k j Hj) as (Hle & Huse & Hc).
      split; [lia|]. split; [done|]. rewrite Hc.
      replace (Z.to_nat (j - i)) with (S (Z.to_nat (j - (i + 1)))) by lia.
      done.
Qed.

Lemma respace_loop_timestep_map (use : gset Z) (cs : list R) : forall i last,
  (respace_loop use i cs last [] []).2
  = filter (fun j => j ∈ use)
           (map (fun k => i + Z.of_nat k) (seq 0 (length cs))).
Proof.
  induction cs as [|a rest IH]; intros i last; [done|].
  cbn [respace_loop length]. rewrite py_range_cons, filter_cons.
  case_bool_decide as Hi.
  - rewrite respace_loop_acc. cbn. rewrite IH.
    by destruct (decide (i ∈ use)).
  - rewrite IH. by destruct (decide (i ∈ use)).
Qed.

(** C1. Respacing round-trip.  Whenever a respaced process is built from an
    original schedule and a set of retained steps, its time-step map lists
    the retained original indices in increasing order, and its cumulative
    product at its [k]-th step is the cumulative product of the original
    schedule at the [k]-th retained original index [timestep_map[k]]. *)
Theorem respacing_round_trip (use : gset Z) (kw : kwargs)
    (betas0 : list float64) (sd : SpacedDiffusion) :
  SpacedDiffusion_init use kw betas0 = Ok sd ->
  exists base,
    GaussianDiffusion_init kw betas0 = Ok base
    /\ timestep_map sd
       = filter (fun j => j ∈ use) (py_range 0 (Z.of_nat (length betas0)))
    /\ length (alphas_cumprod sd) = length (timestep_map sd)
    /\ forall (k : nat) (i : Z), timestep_map sd !! k = Some i ->
         is_Some (alphas_cumprod sd !! k)
         /\ alphas_cumprod sd !! k = alphas_cumprod base !! Z.to_nat i.
Proof.
  unfold SpacedDiffusion_init. intros H.
  apply bind_Ok_inv in H as (base & Hbase & H). exists base. split; [done|].
  pose proof (respace_loop_timestep_map use (alphas_cumprod base) 0 1%R) as Htm.
  destruct (respace_loop use 0 (alphas_cumprod base) 1 [] [])
    as [new_betas tmap] eqn:E.
  apply bind_Ok_inv in H as (gd & Hgd & H). injection H as <-. cbn.
  apply GaussianDiffusion_init_inv in Hgd as (Hrange & _ & _ & _ & _ & Hcp & _).
  apply GaussianDiffusion_init_inv in Hbase as (_ & _ & _ & _ & _ & Hcpb & _).
  destruct (respace_loop_cumprod _ _ _ _ _ _ E Hrange) as [Hlen Hk].
  assert (Hl : length (alphas_cumprod gd) = length tmap).
  { rewrite Hcp. unfold cumprod.
    assert (Hcl : forall l acc, length (cumprod_from acc l) = length l).
    { induction l as [|x l IHl]; intros acc; cbn; [done|]. by rewrite IHl. }
    by rewrite Hcl, !length_map. }
  split.
  { cbn in Htm. rewrite Htm. unfold py_range. f_equal.
    rewrite Z.sub_0_r, Nat2Z.id, Hcpb. unfold cumprod.
    assert (Hcl : forall l acc, length (cumprod_from acc l) = length l).
    { induction l as [|x l IHl]; intros acc; cbn; [done|]. by rewrite IHl. }
    by rewrite Hcl, !length_map. }
  split; [done|]. intros k i Hi.
  destruct (Hk k i Hi) as (Hle & Huse & Hc). split.
  - apply lookup_lt_is_Some. rewrite Hl. by apply lookup_lt_Some in Hi.
  - rewrite Hcp. unfold cumprod. rewrite Hc. by rewrite Z.sub_0_r.
Qed.

Lemma length_cumprod_from (l : list R) : forall acc,
  length (cumprod_from acc l) = length l.
Proof. induction l as [|x l IH]; intros acc; cbn; [done|]. by rewrite IH. Qed.

Lemma length_zip_with3 {A B C D} (f : A -> B -> C -> D) a b c :
  length a = length b -> length b = length c ->
  length (zip_with3 f a b c) = length a.
Proof.
  intros Hab Hbc. unfold zip_with3.
  rewrite length_zip_with, length_zip. lia.
Qed.

Lemma length_removelast {A} (l : list A) :
  length (removelast l) = pred (length l).
Proof.
  induction l as [|x [|y l] IH]; [done..|].
  change (removelast (x :: y :: l)) with (x :: removelast (y :: l)).
  cbn [length]. rewrite IH. done.
Qed.

Lemma py_index_nat {A} (l : list A) (i : nat) (a : A) :
  l !! i = Some a -> py_index l (Z.of_nat i) = Ok a.
Proof.
  intros H. pose proof (lookup_lt_Some _ _ _ H) as Hlt. unfold py_index.
  destruct (Z.of_nat i <? 0) eqn:E1; [apply Z.ltb_lt in E1; lia|].
  rewrite E1. cbn [orb].
  destruct (Z.of_nat (length l) <=? Z.of_nat i) eqn:E2;
    [apply Z.leb_le in E2; lia|].
  by rewrite Nat2Z.id, H.
Qed.

(** The constructor succeeds exactly on the schedules of at least two
    steps that pass its range assertion. *)
Lemma GaussianDiffusion_init_succeeds (kw : kwargs) (betas0 : list float64) :
  forallb beta_in_range betas0 = true -> (2 <= length betas0)%nat ->
  exists gd, GaussianDiffusion_init kw betas0 = Ok gd.
Proof.
  intros Hrange Hlen. unfold GaussianDiffusion_init.
  rewrite Hrange. cbn [assert mbind result_bind].
  rewrite !length_map.
  set (bs := map finite_value betas0).
  set (cp := cumprod (map (fun b => (1 - b)%R) bs)).
  assert (Hcp : length cp = length betas0).
  { unfold cp, cumprod, bs. by rewrite length_cumprod_from, !length_map. }
  assert (Hprev : length (1%R :: removelast cp) = length betas0).
  { cbn [length]. rewrite length_removelast, Hcp. lia. }
  rewrite Hprev, Z.eqb_refl. cbn [assert].
  set (pv := zip_with3 _ bs (1%R :: removelast cp) cp).
  assert (Hpv : length pv = length betas0).
  { unfold pv. rewrite length_zip_with3; unfold bs; rewrite ?length_map; lia. }
  destruct (lookup_lt_is_Some_2 pv 1) as [pv1 Hpv1]; [lia|].
  change 1 with (Z.of_nat 1). rewrite (py_index_nat _ _ _ Hpv1).
  cbn. eauto.
Qed.

Lemma decreasing_below_weaken (cs : list R) (a last : R) :
  (a <= last)%R -> decreasing_below a cs -> decreasing_below last cs.
Proof.
  destruct cs as [|c cs]; [done|]. cbn. intros ? [? ?]. split; [lra|done].
Qed.

Lemma cumprod_from_decreasing (bs : list R) : forall acc,
  (0 < acc)%R -> Forall (fun b => 0 < b < 1)%R bs ->
  decreasing_below acc (cumprod_from acc (map (fun b => (1 - b)%R) bs)).
Proof.
  induction bs as [|b bs IH]; intros acc Hacc Hbs; [done|].
  apply Forall_cons in Hbs as [Hb Hbs]. cbn.
  assert (0 < acc * (1 - b) < acc)%R by nra.
  split; [done|]. apply IH; [lra|done].
Qed.

Lemma respace_loop_in_range (use : gset Z) (cs : list R) : forall i last,
  (0 < last)%R -> decreasing_below last cs ->
  forallb beta_in_range (respace_loop use i cs last [] []).1 = true.
Proof.
  induction cs as [|a rest IH]; intros i last Hlast Hdec; [done|].
  destruct Hdec as [Ha Hdec]. cbn [respace_loop]. case_bool_decide.
  - rewrite respace_loop_acc. cbn. rewrite IH by (done || lra).
    unfold np_div. rewrite bool_decide_false by lra. cbn.
    assert (0 < a / last < 1)%R.
    { split; [apply Rdiv_lt_0_compat; lra|].
      apply (Rmult_lt_reg_r last); [lra|].
      replace (a / last * last)%R with a by (field; lra). lra. }
    rewrite !bool_decide_true by lra. done.
  - apply IH; [done|]. apply (decreasing_below_weaken _ a); [lra|done].
Qed.

Lemma respace_loop_retains (use : gset Z) (cs : list R) : forall i last j,
  j ∈ use -> i <= j < i + Z.of_nat (length cs) ->
  j ∈ (respace_loop use i cs last [] []).2.
Proof.
  induction cs as [|a rest IH]; intros i last j Huse Hj; [cbn in Hj; lia|].
  cbn [respace_loop length] in *. case_bool_decide as Hi.
  - rewrite respace_loop_acc. cbn. destruct (decide (j = i)) as [->|].
    + apply list_elem_of_here.
    + apply list_elem_of_further, IH; [done|lia].
  - apply IH; [done|]. assert (j <> i) by (intros ->; done). lia.
Qed.

Lemma two_elements_length {A} (l : list A) (x y : A) :
  x <> y -> x ∈ l -> y ∈ l -> (2 <= length l)%nat.
Proof.
  intros Hne Hx Hy. destruct l as [|a [|b l]]; cbn; [| |lia].
  - by apply elem_of_nil in Hx.
  - apply list_elem_of_singleton in Hx, Hy. congruence.
Qed.

(** A respaced process exists for every schedule with variances strictly
    between 0 and 1 and every set that retains at least two of its steps. *)
Lemma SpacedDiffusion_init_succeeds (use : gset Z) (kw : kwargs)
    (bs : list R) (i1 i2 : Z) :
  Forall (fun b => 0 < b < 1)%R bs ->
  i1 <> i2 -> i1 ∈ use -> i2 ∈ use ->
  0 <= i1 < Z.of_nat (length bs) -> 0 <= i2 < Z.of_nat (length bs) ->
  exists sd, SpacedDiffusion_init use kw (map Finite bs) = Ok sd.
Proof.
  intros Hbs Hne Hu1 Hu2 H1 H2. unfold SpacedDiffusion_init.
  assert (Hrange : forallb beta_in_range (map Finite bs) = true).
  { apply forallb_forall. intros b Hb%in_map_iff. destruct Hb as (r & <- & Hr).
    rewrite Forall_forall in Hbs. apply list_elem_of_In in Hr.
    specialize (Hbs r Hr). cbn. rewrite !bool_decide_true by lra. done. }
  destruct (GaussianDiffusion_init_succeeds kw (map Finite bs) Hrange)
    as [base Hbase].
  { rewrite length_map. lia. }
  rewrite Hbase. cbn [mbind result_bind].
  apply GaussianDiffusion_init_inv in Hbase as (_ & _ & _ & _ & _ & Hcp & _).
  assert (Hfv : map finite_value (map Finite bs) = bs).
  { rewrite map_map. apply map_id. }
  rewrite Hfv in Hcp. rewrite Hcp. unfold cumprod.
  set (cs := cumprod_from 1 (map (fun b => (1 - b)%R) bs)).
  assert (Hdec : decreasing_below 1 cs)
    by (apply cumprod_from_decreasing; [lra|done]).
  assert (Hcs : length cs = length bs).
  { unfold cs. by rewrite length_cumprod_from, length_map. }
  pose proof (respace_loop_in_range use cs 0 1 ltac:(lra) Hdec) as Hnb.
  pose proof (respace_loop_retains use cs 0 1%R i1 Hu1 ltac:(lia)) as Hm1.
  pose proof (respace_loop_retains use cs 0 1%R i2 Hu2 ltac:(lia)) as Hm2.
  destruct (respace_loop use 0 cs 1 [] []) as [nb tm] eqn:E. cbn in *.
  destruct (respace_loop_cumprod _ _ _ _ _ _ E Hnb) as [Hlen _].
  destruct (GaussianDiffusion_init_succeeds kw nb Hnb) as [gd Hgd].
  { rewrite Hlen. by apply (two_elements_length tm i1 i2). }
  rewrite Hgd. cbn. eauto.
Qed.

Lemma respacing_round_trip_witness :
  exists sd base,
    SpacedDiffusion_init {[0; 2]}
      {| kw_rescale_timesteps := false; kw_annealing_time := false |}
      (map Finite [1 / 2; 1 / 2; 1 / 2]%R) = Ok sd
    /\ GaussianDiffusion_init
         {| kw_rescale_timesteps := false; kw_annealing_time := false |}
         (map Finite [1 / 2; 1 / 2; 1 / 2]%R) = Ok base
    /\ forall (k : nat) (i : Z), timestep_map sd !! k = Some i ->
         alphas_cumprod sd !! k = alphas_cumprod base !! Z.to_nat i.
Proof.
  destruct (SpacedDiffusion_init_succeeds {[0; 2]}
              {| kw_rescale_timesteps := false; kw_annealing_time := false |}
              [1 / 2; 1 / 2; 1 / 2]%R 0 2) as [sd Hsd].
  - repeat constructor; lra.
  - lia.
  - set_solver.
  - set_solver.
  - cbn. lia.
  - cbn. lia.
  - destruct (respacing_round_trip _ _ _ _ Hsd) as (base & Hbase & _ & _ & Hk).
    exists sd, base. split; [exact Hsd|]. split; [exact Hbase|].
    intros k i Hi. apply (Hk k i Hi).
Defined.

(** ** Noise-schedule builder *)

Lemma forallb_elem_false {A} (f : A -> bool) (l : list A) (a : A) :
  a ∈ l -> f a = false -> forallb f l = false.
Proof.
  intros Ha Hf. destruct (forallb f l) eqn:E; [|done].
  rewrite forallb_forall in E. apply list_elem_of_In in Ha.
  specialize (E a Ha). congruence.
Qed.

Lemma linear_schedule_value (N : Z) :
  2 <= N ->
  get_named_beta_schedule "linear" N
  = Ok (map (fun i => Finite (1000 / IZR N * 0.0001
                       + INR i * ((1000 / IZR N * 0.02 - 1000 / IZR N * 0.0001)
                                  / IZR (N - 1)))%R)
            (seq 0 (Z.to_nat N))).
Proof.
  intros HN. unfold get_named_beta_schedule, linspace. cbn [String.eqb].
  change (("linear" =? "linear")%string) with true. cbv iota.
  destruct (N =? 0) eqn:E0; [apply Z.eqb_eq in E0; lia|].
  destruct (N <? 0) eqn:E1; [apply Z.ltb_lt in E1; lia|].
  destruct (N =? 1) eqn:E2; [apply Z.eqb_eq in E2; lia|].
  by rewrite map_map.
Qed.

(** The last variance of the linear schedule is [20 / N]. *)
Lemma linear_schedule_last (N : Z) :
  2 <= N ->
  exists betas0, get_named_beta_schedule "linear" N = Ok betas0
                 /\ Finite (20 / IZR N) ∈ betas0.
Proof.
  intros HN. rewrite linear_schedule_value by done. eexists. split; [done|].
  apply list_elem_of_fmap. exists (Z.to_nat (N - 1)). split.
  - cbv beta. f_equal. rewrite INR_IZR_INZ, Z2Nat.id by lia.
    assert (IZR N <> 0)%R by (apply not_0_IZR; lia).
    assert (IZR (N - 1) <> 0)%R by (apply not_0_IZR; lia).
    generalize dependent (IZR (N - 1)). intros y Hy.
    replace 0.0001%R with (1 / 10000)%R by lra.
    replace 0.02%R with (2 / 100)%R by lra. field. done.
  - apply elem_of_seq. lia.
Qed.

(** For 2 to 19 steps the linear schedule ends above 1 and the constructor
    rejects it. *)
Lemma linear_schedule_rejected (N : Z) (kw : kwargs) :
  2 <= N < 20 ->
  exists betas0, get_named_beta_schedule "linear" N = Ok betas0
                 /\ Finite (20 / IZR N) ∈ betas0
                 /\ (1 < 20 / IZR N)%R
                 /\ GaussianDiffusion_init kw betas0 = Raise AssertionError.
Proof.
  intros HN. destruct (linear_schedule_last N) as (betas0 & Hb & Hin); [lia|].
  exists betas0. split; [done|]. split; [done|].
  assert (Hgt : (1 < 20 / IZR N)%R).
  { assert (0 < IZR N)%R by (apply IZR_lt; lia).
    assert (IZR N < 20)%R by (apply IZR_lt; lia).
    apply (Rmult_lt_reg_r (IZR N)); [done|].
    replace (20 / IZR N * IZR N)%R with 20%R by (field; lra). lra. }
  split; [done|]. unfold GaussianDiffusion_init.
  rewrite (forallb_elem_false _ _ _ Hin); [done|].
  cbn. rewrite (bool_decide_false (20 / IZR N <= 1)%R) by lra.
  by rewrite andb_false_r.
Qed.

Lemma linear_entry_in_range (n m k : R) :
  (20 <= n)%R -> m = (n - 1)%R -> (0 <= k <= m)%R ->
  (0 < 1000 / n * 0.0001
       + k * ((1000 / n * 0.02 - 1000 / n * 0.0001) / m) <= 1)%R.
Proof.
  intros Hn Hm Hk.
  assert (Hs : (1000 / n * 0.0001 = 1 / (10 * n))%R).
  { replace 0.0001%R with (1 / 10000)%R by lra. field. lra. }
  assert (He : (1000 / n * 0.02 = 20 / n)%R).
  { replace 0.02%R with (2 / 100)%R by lra. field. lra. }
  rewrite Hs, He.
  assert (Hpos : (0 < 1 / (10 * n))%R).
  { apply Rdiv_lt_0_compat; lra. }
  assert (Hle : (20 / n <= 1)%R).
  { apply (Rmult_le_reg_r n); [lra|].
    replace (20 / n * n)%R with 20%R by (field; lra). lra. }
  assert (Hd : (0 <= (20 / n - 1 / (10 * n)) / m)%R).
  { apply Rle_mult_inv_pos; [|lra].
    replace (20 / n - 1 / (10 * n))%R with (199 / (10 * n))%R by (field; lra).
    apply Rlt_le, Rdiv_lt_0_compat; lra. }
  set (d := ((20 / n - 1 / (10 * n)) / m)%R) in *.
  assert (Hmd : (m * d = 20 / n - 1 / (10 * n))%R) by (unfold d; field; lra).
  split; [nra|]. nra.
Qed.

(** X17.  With one step or at least twenty, the linear schedule has one
    variance per step, and every one of them is in (0, 1]. *)
Lemma linear_schedule_in_range (N : Z) :
  N = 1 \/ 20 <= N ->
  exists betas0, get_named_beta_schedule "linear" N = Ok betas0
                 /\ length betas0 = Z.to_nat N
                 /\ forallb beta_in_range betas0 = true.
Proof.
  intros [->|HN].
  - eexists. split; [reflexivity|]. split; [done|].
    cbn. rewrite !bool_decide_true by lra. done.
  - rewrite linear_schedule_value by lia. eexists. split; [done|].
    split; [by rewrite length_map, length_seq|].
    apply forallb_forall. intros b Hb%in_map_iff.
    destruct Hb as (i & <- & Hi%in_seq). cbn.
    destruct (linear_entry_in_range (IZR N) (IZR (N - 1)) (INR i)) as [H0 H1].
    + apply IZR_le. lia.
    + by rewrite minus_IZR.
    + rewrite INR_IZR_INZ. split; apply IZR_le; lia.
    + rewrite !bool_decide_true by done. done.
Qed.

Lemma cosine_angle (t : R) :
  (0 <= t <= 1)%R ->
  (0 < (t + 0.008) / 1.008 * PI / 2 <= PI / 2)%R.
Proof.
  intros Ht. pose proof PI_RGT_0 as Hpi.
  assert (Hu : (0 < (t + 0.008) / 1.008 <= 1)%R).
  { split.
    - apply Rdiv_lt_0_compat; lra.
    - apply (Rmult_le_reg_r 1.008); [lra|].
      replace ((t + 0.008) / 1.008 * 1.008)%R with (t + 0.008)%R by (field; lra).
      lra. }
  set (u := ((t + 0.008) / 1.008)%R) in *. split; nra.
Qed.

Lemma cosine_angle_increasing (t1 t2 : R) :
  (t1 < t2)%R ->
  ((t1 + 0.008) / 1.008 * PI / 2 < (t2 + 0.008) / 1.008 * PI / 2)%R.
Proof.
  intros Ht. pose proof PI_RGT_0 as Hpi.
  assert (Hu : ((t1 + 0.008) / 1.008 < (t2 + 0.008) / 1.008)%R).
  { unfold Rdiv. apply Rmult_lt_compat_r; [|lra].
    apply Rinv_0_lt_compat. lra. }
  nra.
Qed.

Lemma cosine_alpha_bar_pos (t : R) :
  (0 <= t < 1)%R -> (0 < cosine_alpha_bar t)%R.
Proof.
  intros Ht. unfold cosine_alpha_bar. pose proof PI_RGT_0 as Hpi.
  destruct (cosine_angle t ltac:(lra)) as [H0 _].
  pose proof (cosine_angle_increasing t 1 ltac:(lra)) as Hlt.
  destruct (cosine_angle 1 ltac:(lra)) as [_ H1].
  assert (0 < cos ((t + 0.008) / 1.008 * PI / 2))%R by (apply cos_gt_0; lra).
  nra.
Qed.

Lemma cosine_alpha_bar_decreasing (t1 t2 : R) :
  (0 <= t1 < t2)%R -> (t2 <= 1)%R ->
  (0 <= cosine_alpha_bar t2 < cosine_alpha_bar t1)%R.
Proof.
  intros Ht1 Ht2. unfold cosine_alpha_bar. pose proof PI_RGT_0 as Hpi.
  destruct (cosine_angle t1 ltac:(lra)) as [H1 H1'].
  destruct (cosine_angle t2 ltac:(lra)) as [H2 H2'].
  pose proof (cosine_angle_increasing t1 t2 ltac:(lra)) as Hlt.
  assert (Hc2 : (0 <= cos ((t2 + 0.008) / 1.008 * PI / 2))%R)
    by (apply cos_ge_0; lra).
  assert (Hc : (cos ((t2 + 0.008) / 1.008 * PI / 2)
                < cos ((t1 + 0.008) / 1.008 * PI / 2))%R)
    by (apply cos_decreasing_1; lra).
  nra.
Qed.

(** X18.  For every number of steps [N >= 1] the cosine schedule has one
    variance per step, and every one of them is in (0, 1]: no division by
    zero occurs, and the range check of the constructor passes. *)
Lemma cosine_schedule_in_range (N : Z) :
  1 <= N ->
  exists betas0, get_named_beta_schedule "cosine" N = Ok betas0
                 /\ length betas0 = Z.to_nat N
                 /\ forallb beta_in_range betas0 = true.
Proof.
  intros HN. unfold get_named_beta_schedule.
  change (("cosine" =? "linear")%string) with false.
  change (("cosine" =? "cosine")%string) with true. cbv iota.
  unfold betas_for_alpha_bar.
  assert (Hn : (0 < IZR N)%R) by (apply IZR_lt; lia).
  assert (Hall : forall i, i ∈ py_range 0 N ->
            exists b, alpha_bar_beta N cosine_alpha_bar 0.999 i = Ok b
                      /\ beta_in_range b = true).
  { intros i Hi. unfold py_range in Hi.
    apply list_elem_of_fmap in Hi as (k & -> & Hk%elem_of_seq).
    rewrite Z.add_0_l. unfold alpha_bar_beta.
    assert (Ht1 : (0 <= IZR (Z.of_nat k) / IZR N < 1)%R).
    { split.
      - apply Rle_mult_inv_pos; [apply IZR_le; lia|done].
      - apply (Rmult_lt_reg_r (IZR N)); [done|].
        replace (IZR (Z.of_nat k) / IZR N * IZR N)%R with (IZR (Z.of_nat k))
          by (field; lra).
        rewrite Rmult_1_l. apply IZR_lt. lia. }
    assert (Ht2 : (IZR (Z.of_nat k) / IZR N < IZR (Z.of_nat k + 1) / IZR N
                   <= 1)%R).
    { split.
      - unfold Rdiv. apply Rmult_lt_compat_r; [by apply Rinv_0_lt_compat|].
        apply IZR_lt. lia.
      - apply (Rmult_le_reg_r (IZR N)); [done|].
        replace (IZR (Z.of_nat k + 1) / IZR N * IZR N)%R
          with (IZR (Z.of_nat k + 1)) by (field; lra).
        rewrite Rmult_1_l. apply IZR_le. lia. }
    pose proof (cosine_alpha_bar_pos _ Ht1) as Hpos.
    destruct (cosine_alpha_bar_decreasing (IZR (Z.of_nat k) / IZR N)
                (IZR (Z.of_nat k + 1) / IZR N) ltac:(lra) ltac:(lra))
      as [H2 H12].
    rewrite bool_decide_false by lra. eexists. split; [done|].
    cbn [beta_in_range].
    set (f1 := cosine_alpha_bar (IZR (Z.of_nat k) / IZR N)) in *.
    set (f2 := cosine_alpha_bar (IZR (Z.of_nat k + 1) / IZR N)) in *.
    clearbody f1 f2.
    assert (Hq : (0 <= f2 / f1 < 1)%R).
    { split.
      - apply Rle_mult_inv_pos; done.
      - apply (Rmult_lt_reg_r f1); [done|].
        replace (f2 / f1 * f1)%R with f2 by (field; lra). lra. }
    pose proof (Rmin_r (1 - f2 / f1) 0.999) as Hr.
    assert (Hl : (0 < Rmin (1 - f2 / f1) 0.999)%R)
      by (apply Rmin_glb_lt; lra).
    generalize dependent (Rmin (1 - f2 / f1) 0.999). intros m Hm Hl.
    rewrite !bool_decide_true by lra. done. }
  assert (Hlen : length (py_range 0 N) = Z.to_nat N).
  { unfold py_range. rewrite length_map, length_seq. f_equal. lia. }
  rewrite <- Hlen. clear Hlen. induction (py_range 0 N) as [|i l IH].
  - exists []. done.
  - destruct (Hall i) as (b & Hb & Hr); [apply list_elem_of_here|].
    destruct IH as (bs & Hbs & Hl & Hrs).
    { intros j Hj. apply Hall. by apply list_elem_of_further. }
    exists (b :: bs). cbn. rewrite Hb. cbn.
    rewrite Hbs. cbn. rewrite Hl, Hr, Hrs. done.
Qed.

(** C2, at the failing input.  [get_named_beta_schedule("linear", 10)]
    contains the variance 2, outside (0, 1], and the constructor's range
    assertion fires on this schedule. *)
Theorem linear_schedule_10_rejected (kw : kwargs) :
  exists betas0, get_named_beta_schedule "linear" 10 = Ok betas0
                 /\ Finite 2 ∈ betas0
                 /\ beta_in_range (Finite 2) = false
                 /\ GaussianDiffusion_init kw betas0 = Raise AssertionError.
Proof.
  destruct (linear_schedule_rejected 10 kw) as (betas0 & Hb & Hin & Hgt & Hr);
    [lia|].
  exists betas0. replace (20 / 10)%R with 2%R in Hin by lra.
  split; [done|]. split; [done|]. split; [|done].
  cbn. rewrite (bool_decide_false (2 <= 1)%R) by lra. by rewrite andb_false_r.
Qed.

(** ** Posterior variance and its clipped logarithm *)

Lemma py_index_1_inv {A} (l : list A) (a : A) :
  py_index l 1 = Ok a -> l !! 1%nat = Some a.
Proof.
  unfold py_index. cbn [Z.ltb Z.compare orb].
  destruct (Z.of_nat (length l) <=? 1); [done|].
  change (Z.to_nat 1) with 1%nat. destruct (l !! 1%nat); [|done].
  by intros [= ->].
Qed.

Lemma lookup_zip_with3 {A B C D} (f : A -> B -> C -> D) la lb lc
    (t : nat) a b c :
  la !! t = Some a -> lb !! t = Some b -> lc !! t = Some c ->
  zip_with3 f la lb lc !! t = Some (f a b c).
Proof.
  intros Ha Hb Hc. unfold zip_with3.
  rewrite !lookup_zip_with, Ha, Hb. cbn. by rewrite Hc.
Qed.

(** C7, as amended.  For every schedule the constructor accepts, the cached
    posterior variance at step [t] is
    [variance[t] * (1 - cumprod_prev[t]) / (1 - cumprod[t])] at every index,
    so it is 0 at index 0; the substitution of the second value for the
    first is made in the clipped log-variance only, whose entry 0 is the
    logarithm of the posterior variance at index 1 and whose entry [t >= 1]
    is the logarithm of the posterior variance at [t]. *)
Theorem posterior_log_variance_clipped_first (kw : kwargs)
    (betas0 : list float64) (gd : GaussianDiffusion) :
  GaussianDiffusion_init kw betas0 = Ok gd ->
  (forall (t : nat) b p c,
      betas gd !! t = Some b -> alphas_cumprod_prev gd !! t = Some p ->
      alphas_cumprod gd !! t = Some c ->
      posterior_variance gd !! t = Some (b * (1 - p) / (1 - c))%R)
  /\ posterior_variance gd !! 0%nat = Some 0%R
  /\ exists pv1,
       posterior_variance gd !! 1%nat = Some pv1
       /\ posterior_log_variance_clipped gd !! 0%nat = Some (ln pv1)
       /\ forall (t : nat) pv, (1 <= t)%nat ->
            posterior_variance gd !! t = Some pv ->
            posterior_log_variance_clipped gd !! t = Some (ln pv).
Proof.
  intros H.
  apply GaussianDiffusion_init_inv in H
    as (_ & Hb & _ & _ & _ & Hcp & Hprev & Hpv & pv1 & Hpv1 & Hlog).
  apply py_index_1_inv in Hpv1. split; [|split].
  - intros t b p c Ht Hp Hc. rewrite Hpv.
    exact (lookup_zip_with3 _ _ _ _ t b p c Ht Hp Hc).
  - rewrite Hpv, Hprev. rewrite Hpv, Hprev in Hpv1.
    destruct (betas gd) as [|b0 bs]; [done|].
    destruct (alphas_cumprod gd) as [|c0 cs]; [done|].
    cbn. f_equal. unfold Rdiv. ring.
  - exists pv1. split; [done|]. rewrite Hlog. split; [done|].
    intros [|t] pv Ht Hpvt; [lia|].
    destruct (posterior_variance gd) as [|v0 vs]; [done|].
    change (vs !! t = Some pv) in Hpvt.
    change ((ln <$> vs) !! t = Some (ln pv)).
    by rewrite list_lookup_fmap, Hpvt.
Qed.

Lemma posterior_log_variance_clipped_first_witness :
  exists gd pv1,
    GaussianDiffusion_init
      {| kw_rescale_timesteps := false; kw_annealing_time := false |}
      [Finite (1 / 2); Finite (1 / 2)] = Ok gd
    /\ posterior_variance gd !! 0%nat = Some 0%R
    /\ posterior_variance gd !! 1%nat = Some pv1
    /\ posterior_log_variance_clipped gd !! 0%nat = Some (ln pv1).
Proof.
  destruct (GaussianDiffusion_init_succeeds
              {| kw_rescale_timesteps := false; kw_annealing_time := false |}
              [Finite (1 / 2); Finite (1 / 2)]) as [gd Hgd].
  - cbn. rewrite !bool_decide_true by lra. done.
  - cbn. lia.
  - destruct (posterior_log_variance_clipped_first _ _ _ Hgd)
      as (_ & H0 & pv1 & H1 & Hl & _).
    exists gd, pv1. auto.
Defined.

(** C7, the counterexample.  On the schedule [0.5, 0.5] the cached posterior
    variance at index 0 is 0 while the value at index 1 is 1/3: the first
    entry of the posterior variance is not replaced by the second. *)
Lemma posterior_variance_first_not_replaced :
  exists gd,
    GaussianDiffusion_init
      {| kw_rescale_timesteps := false; kw_annealing_time := false |}
      [Finite (1 / 2); Finite (1 / 2)] = Ok gd
    /\ posterior_variance gd !! 0%nat = Some 0%R
    /\ posterior_variance gd !! 1%nat = Some (1 / 3)%R
    /\ posterior_variance gd !! 0%nat <> posterior_variance gd !! 1%nat.
Proof.
  destruct (GaussianDiffusion_init_succeeds
              {| kw_rescale_timesteps := false; kw_annealing_time := false |}
              [Finite (1 / 2); Finite (1 / 2)]) as [gd Hgd].
  - cbn. rewrite !bool_decide_true by lra. done.
  - cbn. lia.
  - exists gd. split; [done|].
    apply GaussianDiffusion_init_inv in Hgd
      as (_ & Hb & _ & _ & _ & Hcp & Hprev & Hpv & _).
    rewrite Hpv, Hprev, Hb, Hcp. cbn.
    assert (H1 : (1 / 2 * (1 - 1 * (1 - 1 / 2))
                  / (1 - 1 * (1 - 1 / 2) * (1 - 1 / 2)) = 1 / 3)%R) by lra.
    assert (H0 : (1 / 2 * (1 - 1) / (1 - 1 * (1 - 1 / 2)) = 0)%R) by lra.
    rewrite H0, H1. split; [done|]. split; [done|].
    intros [= H]. lra.
Qed.

(** ** Loops over index tensors *)

Lemma mapM_Ok_2 {A B} (f : A -> result B) (l : list A) (k : list B) :
  Forall2 (fun x y => f x = Ok y) l k -> mapM f l = Ok k.
Proof.
  induction 1 as [|x y l k Hxy _ IH]; [done|].
  cbn. rewrite Hxy. cbn. rewrite IH. done.
Qed.

Lemma mapM_Ok_1 {A B} (f : A -> result B) (l : list A) : forall k,
  mapM f l = Ok k -> Forall2 (fun x y => f x = Ok y) l k.
Proof.
  induction l as [|x l IH]; intros k H.
  - injection H as <-. constructor.
  - cbn in H. apply bind_Ok_inv in H as (y & Hy & H).
    apply bind_Ok_inv in H as (k' & Hk' & H). injection H as <-.
    constructor; [done|]. by apply IH.
Qed.

Lemma py_index_in_range {A} (l : list A) (i : Z) :
  0 <= i < Z.of_nat (length l) ->
  exists a, py_index l i = Ok a /\ l !! Z.to_nat i = Some a.
Proof.
  intros Hi. destruct (lookup_lt_is_Some_2 l (Z.to_nat i)) as [a Ha]; [lia|].
  exists a. split; [|done]. rewrite <- (Z2Nat.id i) by lia.
  by apply py_index_nat.
Qed.

Lemma mapM_py_index_in_range {A} (l : list A) (t : list Z) :
  Forall (fun i => 0 <= i < Z.of_nat (length l)) t ->
  exists vs, mapM (py_index l) t = Ok vs
             /\ Forall2 (fun i v => l !! Z.to_nat i = Some v) t vs.
Proof.
  induction 1 as [|i t Hi _ (vs & Hvs & Hall)].
  - exists []. split; [done|constructor].
  - destruct (py_index_in_range l i Hi) as (a & Ha & Hl).
    exists (a :: vs). split; [|by constructor].
    cbn. rewrite Ha. cbn. rewrite Hvs. done.
Qed.

(** ** Model index remapping *)

Lemma GaussianDiffusion_init_length (kw : kwargs) (betas0 : list float64)
    (gd : GaussianDiffusion) :
  GaussianDiffusion_init kw betas0 = Ok gd ->
  (2 <= length betas0)%nat
  /\ length (alphas_cumprod gd) = length betas0
  /\ length (alphas_cumprod_prev gd) = length betas0
  /\ length (sqrt_recip_alphas_cumprod gd) = length betas0
  /\ length (sqrt_recipm1_alphas_cumprod gd) = length betas0.
Proof.
  intros H. pose proof H as Hinv.
  apply GaussianDiffusion_init_inv in Hinv
    as (_ & Hb & _ & _ & _ & Hcp & Hprev & Hpv & pv1 & Hpv1 & _).
  apply py_index_1_inv, lookup_lt_Some in Hpv1.
  assert (Hlcp : length (alphas_cumprod gd) = length betas0).
  { rewrite Hcp. unfold cumprod. by rewrite length_cumprod_from, !length_map. }
  assert (2 <= length betas0)%nat.
  { rewrite Hpv in Hpv1. unfold zip_with3 in Hpv1.
    rewrite length_zip_with, length_zip, Hb, length_map in Hpv1. lia. }
  split; [done|]. split; [done|]. split.
  { rewrite Hprev. cbn. rewrite length_removelast, Hlcp. lia. }
  unfold GaussianDiffusion_init in H.
  apply bind_Ok_inv in H as ([] & _ & H).
  apply bind_Ok_inv in H as ([] & _ & H).
  apply bind_Ok_inv in H as (pv1' & _ & H). injection H as <-. cbn.
  unfold cumprod. by rewrite !length_map, length_cumprod_from, !length_map.
Qed.

Lemma SpacedDiffusion_init_inv (use : gset Z) (kw : kwargs)
    (betas0 : list float64) (sd : SpacedDiffusion) :
  SpacedDiffusion_init use kw betas0 = Ok sd ->
  original_num_steps sd = Z.of_nat (length betas0)
  /\ (2 <= length betas0)%nat
  /\ rescale_timesteps sd = kw_rescale_timesteps kw
  /\ num_timesteps sd = Z.of_nat (length (timestep_map sd))
  /\ (2 <= length (timestep_map sd))%nat
  /\ length (alphas_cumprod sd) = length (timestep_map sd)
  /\ length (alphas_cumprod_prev sd) = length (timestep_map sd)
  /\ length (sqrt_recip_alphas_cumprod sd) = length (timestep_map sd)
  /\ length (sqrt_recipm1_alphas_cumprod sd) = length (timestep_map sd).
Proof.
  unfold SpacedDiffusion_init. intros H.
  apply bind_Ok_inv in H as (base & Hbase & H).
  destruct (respace_loop use 0 (alphas_cumprod base) 1 [] [])
    as [new_betas tmap] eqn:E.
  apply bind_Ok_inv in H as (gd & Hgd & H). injection H as <-. cbn.
  destruct (GaussianDiffusion_init_length _ _ _ Hbase) as (Hb2 & _).
  destruct (GaussianDiffusion_init_length _ _ _ Hgd)
    as (Hn2 & Hl1 & Hl2 & Hl3 & Hl4).
  apply GaussianDiffusion_init_inv in Hgd as (Hrange & _ & Hn & Hr & _).
  destruct (respace_loop_cumprod _ _ _ _ _ _ E Hrange) as [Hlen _].
  rewrite <- Hlen. done.
Qed.

Lemma SpacedDiffusion_init_timestep_map (use : gset Z) (kw : kwargs)
    (betas0 : list float64) (sd : SpacedDiffusion) :
  SpacedDiffusion_init use kw betas0 = Ok sd ->
  timestep_map sd
  = filter (fun j => j ∈ use) (py_range 0 (Z.of_nat (length betas0))).
Proof.
  unfold SpacedDiffusion_init. intros H.
  apply bind_Ok_inv in H as (base & Hbase & H).
  pose proof (respace_loop_timestep_map use (alphas_cumprod base) 0 1%R) as Htm.
  destruct (respace_loop use 0 (alphas_cumprod base) 1 [] [])
    as [new_betas tmap] eqn:E.
  apply bind_Ok_inv in H as (gd & Hgd & H). injection H as <-. cbn.
  destruct (GaussianDiffusion_init_length _ _ _ Hbase) as (_ & Hl & _).
  cbn in Htm. rewrite Htm, Hl. unfold py_range.
  by rewrite Z.sub_0_r, Nat2Z.id.
Qed.

Section ProcessFacts.

Variable get_mean_and_xstart :
  list R -> Tensor -> list Z -> Tensor -> result (Tensor * Tensor).
Variable get_variance :
  list R -> Tensor -> list Z -> result (Tensor * Tensor).

Local Abbreviation p_mean_variance :=
  (SpacedDiffusion_p_mean_variance get_mean_and_xstart get_variance).
Local Abbreviation process :=
  (process_model_output get_mean_and_xstart get_variance).

(** A model that is already wrapped is not wrapped again. *)
Lemma _wrap_model_idempotent (sd : SpacedDiffusion) (m : model_t) :
  _wrap_model sd (_wrap_model sd m) = _wrap_model sd m.
Proof. by destruct m. Qed.

(** C6. Model index remapping.  For a respaced process and new step
    indices [t] in its range, the underlying model is called with
    [timestep_map[t]], multiplied by [1000 / original_num_steps] (the
    length of the original schedule) if and only if [rescale_timesteps] is
    set; the process's own [_scale_timesteps] is the identity, so the
    rescaling is applied once. *)
Theorem wrapped_model_receives_original_index (use : gset Z) (kw : kwargs)
    (betas0 : list float64) (sd : SpacedDiffusion) (f : callable)
    (x : Tensor) (t : list Z) :
  SpacedDiffusion_init use kw betas0 = Ok sd ->
  Forall (fun i => 0 <= i < num_timesteps sd) t ->
  exists new_ts,
    Forall2 (fun i o => timestep_map sd !! Z.to_nat i = Some o) t new_ts
    /\ SpacedDiffusion_scale_timesteps sd t = IntT t
    /\ p_mean_variance sd (Model f) x t
       = f x (if kw_rescale_timesteps kw
              then FloatT (map (fun o =>
                     (IZR o * (1000 / IZR (Z.of_nat (length betas0))))%R)
                     new_ts)
              else IntT new_ts)
         ≫= process sd x t.
Proof.
  intros Hsd Ht.
  destruct (SpacedDiffusion_init_inv _ _ _ _ Hsd)
    as (Ho & Hb2 & Hr & Hn & _).
  rewrite Hn in Ht.
  destruct (mapM_py_index_in_range (timestep_map sd) t Ht)
    as (new_ts & Hm & Hall).
  exists new_ts. split; [done|]. split; [done|].
  unfold SpacedDiffusion_p_mean_variance, GaussianDiffusion_p_mean_variance,
    SpacedDiffusion_scale_timesteps.
  cbn [_wrap_model call_model _WrappedModel_call].
  rewrite Hm, Hr, Ho. cbn [mbind result_bind].
  destruct (kw_rescale_timesteps kw); [|done].
  destruct (Z.of_nat (length betas0) =? 0) eqn:E; [|done].
  apply Z.eqb_eq in E. lia.
Qed.

End ProcessFacts.

Lemma wrapped_model_receives_original_index_witness :
  exists sd,
    SpacedDiffusion_init {[0; 2]}
      {| kw_rescale_timesteps := true; kw_annealing_time := false |}
      (map Finite [1 / 2; 1 / 2; 1 / 2]%R) = Ok sd
    /\ timestep_map sd = [0; 2]
    /\ forall f x,
         SpacedDiffusion_p_mean_variance
           (fun _ _ _ y => Ok (y, y)) (fun _ v _ => Ok (v, v))
           sd (Model f) x [1]
         = f x (FloatT [(IZR 2 * (1000 / IZR 3))%R])
           ≫= process_model_output
                (fun _ _ _ y => Ok (y, y)) (fun _ v _ => Ok (v, v)) sd x [1].
Proof.
  destruct (SpacedDiffusion_init_succeeds {[0; 2]}
              {| kw_rescale_timesteps := true; kw_annealing_time := false |}
              [1 / 2; 1 / 2; 1 / 2]%R 0 2) as [sd Hsd];
    [repeat constructor; lra|lia|set_solver|set_solver|cbn; lia|cbn; lia|].
  exists sd. split; [exact Hsd|].
  pose proof (SpacedDiffusion_init_timestep_map _ _ _ _ Hsd) as Htm.
  assert (Hmap : timestep_map sd = [0; 2]) by (rewrite Htm; by vm_compute).
  split; [exact Hmap|]. intros f x.
  destruct (SpacedDiffusion_init_inv _ _ _ _ Hsd) as (_ & _ & _ & Hn & _).
  destruct (wrapped_model_receives_original_index
              (fun _ _ _ y => Ok (y, y)) (fun _ v _ => Ok (v, v))
              _ _ _ sd f x [1] Hsd) as (new_ts & Hall & _ & Heq).
  - constructor; [|constructor]. rewrite Hn, Hmap. cbn. lia.
  - rewrite Hmap in Hall.
    apply Forall2_cons_inv_l in Hall as (o & os & Ho & Hnil & ->).
    apply Forall2_nil_inv_l in Hnil as ->. cbn in Ho. injection Ho as <-.
    exact Heq.
Defined.

(** ** The ancestral transition *)

Section AncestralFacts.

Variable get_mean_and_xstart :
  list R -> Tensor -> list Z -> Tensor -> result (Tensor * Tensor).
Variable get_variance :
  list R -> Tensor -> list Z -> result (Tensor * Tensor).

Local Abbreviation p_mean_variance :=
  (SpacedDiffusion_p_mean_variance get_mean_and_xstart get_variance).
Local Abbreviation p_sample :=
  (DDPM_p_sample get_mean_and_xstart get_variance).

Lemma DDPM_p_sample_gate (sd : SpacedDiffusion) (model : model_t)
    (x : Tensor) (t0 : Z) (t : list Z) (omega : noise_source) :
  p_sample sd model x (t0 :: t) omega
  = out ← p_mean_variance sd model x (t0 :: t);
    Ok (if bool_decide (t0 = 0) then mean out
        else tadd (mean out) (ancestral_noise out (randn_like omega x)),
        pred_xstart out).
Proof.
  unfold DDPM_p_sample.
  destruct (p_mean_variance sd model x (t0 :: t)) as [out|e]; [|done].
  cbn [mbind result_bind].
  assert (Hidx : py_index (t0 :: t) 0 = Ok t0).
  { change 0 with (Z.of_nat 0). by apply py_index_nat. }
  rewrite Hidx. cbn [mbind result_bind]. case_bool_decide as H0.
  - subst t0. done.
  - apply Z.eqb_neq in H0. by rewrite H0.
Qed.

(** C4. The ancestral transition at time index 0 adds no noise: for a
    non-empty batch whose time indices are all 0, two calls with different
    noise draws return the same output, the predicted mean. *)
Theorem DDPM_p_sample_at_zero_noise_free (sd : SpacedDiffusion)
    (model : model_t) (x : Tensor) (t : list Z)
    (omega1 omega2 : noise_source) :
  t <> [] -> Forall (fun i => i = 0) t ->
  p_sample sd model x t omega1 = p_sample sd model x t omega2
  /\ p_sample sd model x t omega1
     = out ← p_mean_variance sd model x t; Ok (mean out, pred_xstart out).
Proof.
  intros Hne Hall. destruct t as [|t0 t]; [done|].
  apply Forall_cons in Hall as [-> _].
  rewrite !DDPM_p_sample_gate. done.
Qed.

(** C10. The noise gate reads the first batch element only: whatever the
    other time indices are, the noise term is added to the whole batch when
    [t[0] <> 0] and to no element when [t[0] = 0]. *)
Theorem DDPM_p_sample_gate_first_element (sd : SpacedDiffusion)
    (model : model_t) (x : Tensor) (t0 : Z) (t : list Z)
    (omega : noise_source) (out : prediction) :
  p_mean_variance sd model x (t0 :: t) = Ok out ->
  (t0 <> 0 ->
   exists sample,
     p_sample sd model x (t0 :: t) omega = Ok (sample, pred_xstart out)
     /\ sample = tadd (mean out) (ancestral_noise out (randn_like omega x))
     /\ forall (j : nat) m n,
          mean out !! j = Some m ->
          ancestral_noise out (randn_like omega x) !! j = Some n ->
          sample !! j = Some (zip_with (zip_with Rplus) m n))
  /\ (t0 = 0 ->
      p_sample sd model x (t0 :: t) omega = Ok (mean out, pred_xstart out)).
Proof.
  intros Hout. rewrite DDPM_p_sample_gate, Hout. cbn [mbind result_bind].
  split; intros H0.
  - rewrite bool_decide_false by done.
    exists (tadd (mean out) (ancestral_noise out (randn_like omega x))).
    split; [done|]. split; [done|].
    intros j m n Hm Hn. unfold tadd at 1. unfold tzip.
    rewrite lookup_zip_with, Hm. cbn. rewrite Hn. done.
  - by rewrite bool_decide_true.
Qed.

End AncestralFacts.

(** The two steps {0, 2} of the schedule [0.5, 0.5, 0.5], with a model and
    processors that return their input: the reverse-process prediction on a
    batch of two one-pixel images. *)
Lemma identity_model_prediction (rescale : bool) :
  exists sd,
    SpacedDiffusion_init {[0; 2]}
      {| kw_rescale_timesteps := rescale; kw_annealing_time := false |}
      (map Finite [1 / 2; 1 / 2; 1 / 2]%R) = Ok sd
    /\ timestep_map sd = [0; 2]
    /\ num_timesteps sd = 2
    /\ forall x t,
         x = [[[1%R]]; [[1%R]]] -> t = [0; 1] \/ t = [1; 0] \/ t = [0; 0] ->
         SpacedDiffusion_p_mean_variance
           (fun _ _ _ y => Ok (y, y)) (fun _ v _ => Ok (v, v))
           sd (Model (fun x _ => Ok x)) x t
         = Ok {| mean := x; variance := x; log_variance := x;
                 pred_xstart := x |}.
Proof.
  destruct (SpacedDiffusion_init_succeeds {[0; 2]}
              {| kw_rescale_timesteps := rescale; kw_annealing_time := false |}
              [1 / 2; 1 / 2; 1 / 2]%R 0 2) as [sd Hsd];
    [repeat constructor; lra|lia|set_solver|set_solver|cbn; lia|cbn; lia|].
  exists sd. split; [exact Hsd|].
  pose proof (SpacedDiffusion_init_timestep_map _ _ _ _ Hsd) as Htm.
  assert (Hmap : timestep_map sd = [0; 2]) by (rewrite Htm; by vm_compute).
  destruct (SpacedDiffusion_init_inv _ _ _ _ Hsd) as (Ho & _ & Hr & Hn & _).
  split; [exact Hmap|]. split; [by rewrite Hn, Hmap|].
  intros x t -> Ht.
  unfold SpacedDiffusion_p_mean_variance, GaussianDiffusion_p_mean_variance,
    SpacedDiffusion_scale_timesteps.
  cbn [_wrap_model call_model _WrappedModel_call].
  rewrite Hmap, Ho, Hr. cbn [kw_rescale_timesteps].
  assert (Hm : exists new_ts, mapM (py_index [0; 2]) t = Ok new_ts).
  { destruct Ht as [->|[->| ->]]; eexists; reflexivity. }
  destruct Hm as [new_ts ->]. cbn [mbind result_bind].
  destruct rescale; reflexivity.
Qed.

Lemma DDPM_p_sample_at_zero_noise_free_witness :
  exists sd,
    SpacedDiffusion_init {[0; 2]}
      {| kw_rescale_timesteps := false; kw_annealing_time := false |}
      (map Finite [1 / 2; 1 / 2; 1 / 2]%R) = Ok sd
    /\ forall omega1 omega2,
         DDPM_p_sample (fun _ _ _ y => Ok (y, y)) (fun _ v _ => Ok (v, v))
           sd (Model (fun x _ => Ok x)) [[[1%R]]; [[1%R]]] [0; 0] omega1
         = DDPM_p_sample (fun _ _ _ y => Ok (y, y)) (fun _ v _ => Ok (v, v))
             sd (Model (fun x _ => Ok x)) [[[1%R]]; [[1%R]]] [0; 0] omega2
         /\ DDPM_p_sample (fun _ _ _ y => Ok (y, y)) (fun _ v _ => Ok (v, v))
              sd (Model (fun x _ => Ok x)) [[[1%R]]; [[1%R]]] [0; 0] omega1
            = Ok ([[[1%R]]; [[1%R]]], [[[1%R]]; [[1%R]]]).
Proof.
  destruct (identity_model_prediction false) as (sd & Hsd & _ & _ & Hp).
  exists sd. split; [exact Hsd|]. intros omega1 omega2.
  destruct (DDPM_p_sample_at_zero_noise_free
              (fun _ _ _ y => Ok (y, y)) (fun _ v _ => Ok (v, v))
              sd (Model (fun x _ => Ok x)) [[[1%R]]; [[1%R]]] [0; 0]
              omega1 omega2) as [Heq Hval].
  - done.
  - by repeat constructor.
  - split; [exact Heq|]. rewrite Hval, (Hp _ _ eq_refl) by auto. done.
Defined.

Lemma DDPM_p_sample_gate_first_element_witness :
  exists sd,
    SpacedDiffusion_init {[0; 2]}
      {| kw_rescale_timesteps := false; kw_annealing_time := false |}
      (map Finite [1 / 2; 1 / 2; 1 / 2]%R) = Ok sd
    /\ forall omega : noise_source,
         DDPM_p_sample (fun _ _ _ y => Ok (y, y)) (fun _ v _ => Ok (v, v))
           sd (Model (fun x _ => Ok x)) [[[1%R]]; [[1%R]]] [0; 1] omega
         = Ok ([[[1%R]]; [[1%R]]], [[[1%R]]; [[1%R]]])
         /\ DDPM_p_sample (fun _ _ _ y => Ok (y, y)) (fun _ v _ => Ok (v, v))
              sd (Model (fun x _ => Ok x)) [[[1%R]]; [[1%R]]] [1; 0] omega
            = Ok ([[[(1 + exp (0.5 * 1) * omega 0%nat 0%nat 0%nat)%R]];
                   [[(1 + exp (0.5 * 1) * omega 1%nat 0%nat 0%nat)%R]]],
                  [[[1%R]]; [[1%R]]]).
Proof.
  destruct (identity_model_prediction false) as (sd & Hsd & _ & _ & Hp).
  exists sd. split; [exact Hsd|]. intros omega. split.
  - apply (proj2 (DDPM_p_sample_gate_first_element
                    (fun _ _ _ y => Ok (y, y)) (fun _ v _ => Ok (v, v))
                    sd (Model (fun x _ => Ok x)) [[[1%R]]; [[1%R]]] 0 [1]
                    omega _ (Hp _ [0; 1] eq_refl (or_introl eq_refl)))).
    done.
  - destruct (proj1 (DDPM_p_sample_gate_first_element
                       (fun _ _ _ y => Ok (y, y)) (fun _ v _ => Ok (v, v))
                       sd (Model (fun x _ => Ok x)) [[[1%R]]; [[1%R]]] 1 [0]
                       omega _
                       (Hp _ [1; 0] eq_refl (or_intror (or_introl eq_refl)))))
      as (sample & Hs & -> & _); [done|].
    exact Hs.
Defined.

(** ** Shapes of tensors *)

Lemma shape_cons_inv (e e' : list (list R)) (a b : Tensor) :
  shape (e :: a) = shape (e' :: b) ->
  map length e = map length e' /\ shape a = shape b.
Proof. unfold shape. cbn. by intros [= -> ->]. Qed.

Lemma rows_cons_inv (r r' : list R) (e e' : list (list R)) :
  map length (r :: e) = map length (r' :: e') ->
  length r = length r' /\ map length e = map length e'.
Proof. cbn. by intros [= -> ->]. Qed.

Lemma shape_tmap (f : R -> R) (x : Tensor) : shape (tmap f x) = shape x.
Proof.
  unfold shape, tmap. rewrite map_map. apply map_ext. intros e.
  rewrite map_map. apply map_ext. intros r. apply length_map.
Qed.

Lemma rows_zip_with (f : R -> R -> R) (e : list (list R)) : forall e',
  map length e = map length e' ->
  map length (zip_with (zip_with f) e e') = map length e.
Proof.
  induction e as [|r e IH]; intros [|r' e'] H; try done.
  apply rows_cons_inv in H as [Hr He]. cbn. f_equal; [|by apply IH].
  rewrite length_zip_with. lia.
Qed.

Lemma shape_tzip (f : R -> R -> R) (a : Tensor) : forall b,
  shape a = shape b -> shape (tzip f a b) = shape a.
Proof.
  induction a as [|e a IH]; intros [|e' b] H; try done.
  apply shape_cons_inv in H as [He Ha]. unfold shape, tzip in *. cbn.
  f_equal; [by apply rows_zip_with|by apply IH].
Qed.

Lemma map_imap_preserve {A B} (h : A -> B) (l : list A) :
  forall g : nat -> A -> A,
  (forall i a, h (g i a) = h a) -> map h (imap g l) = map h l.
Proof.
  induction l as [|a l IH]; intros g Hg; [done|]. cbn.
  f_equal; [apply Hg|]. apply IH. intros i a'. apply Hg.
Qed.

Lemma shape_tzip_eq (f : R -> R -> R) (a b : Tensor) (s : list (list nat)) :
  shape a = s -> shape b = s -> shape (tzip f a b) = s.
Proof. intros Ha Hb. rewrite shape_tzip; congruence. Qed.

Lemma shape_tmap_eq (f : R -> R) (a : Tensor) (s : list (list nat)) :
  shape a = s -> shape (tmap f a) = s.
Proof. intros Ha. by rewrite shape_tmap. Qed.

Ltac solve_shape :=
  unfold tadd, tsub, tmul, tdiv;
  repeat first
    [ assumption
    | reflexivity
    | apply shape_tzip_eq
    | apply shape_tmap_eq ].

Lemma shape_randn_like (omega : noise_source) (x : Tensor) :
  shape (randn_like omega x) = shape x.
Proof.
  unfold shape, randn_like. apply map_imap_preserve. intros n e.
  apply map_imap_preserve. intros c r. apply length_imap.
Qed.

Lemma shape_expand_zip (vals : list R) : forall target : Tensor,
  length vals = length target ->
  shape (zip_with (fun v e => map (map (fun _ => v)) e) vals target)
  = shape target.
Proof.
  induction vals as [|v vals IH]; intros [|e target] H; try done.
  unfold shape in *. cbn. f_equal; [|apply IH; cbn in H; lia].
  rewrite map_map. apply map_ext. intros r. apply length_map.
Qed.

Lemma shape_extract_and_expand (array : list R) (time : list Z)
    (target y : Tensor) :
  extract_and_expand array time target = Ok y -> shape y = shape target.
Proof.
  unfold extract_and_expand. intros H.
  apply bind_Ok_inv in H as (vals & _ & H). case_bool_decide as Hlen.
  - injection H as <-. by apply shape_expand_zip.
  - destruct vals as [|v [|v' vals]]; try done. injection H as <-.
    apply (shape_tmap (fun _ => v)).
Qed.

Lemma tensor_all_tmap (P : R -> Prop) (f : R -> R) (x : Tensor) :
  (forall u, P (f u)) -> tensor_all P (tmap f x).
Proof.
  intros Hf. unfold tensor_all, tmap.
  apply Forall_fmap, Forall_true. intros e.
  apply Forall_fmap, Forall_true. intros r.
  apply Forall_fmap, Forall_true. intros u. apply Hf.
Qed.

Lemma Forall_zip_with_l {A B C} (P : A -> Prop) (Q : C -> Prop)
    (f : A -> B -> C) (a : list A) : forall b : list B,
  (forall u v, P u -> Q (f u v)) -> Forall P a -> Forall Q (zip_with f a b).
Proof.
  induction a as [|u a IH]; intros [|v b] Hf Ha; cbn; try constructor.
  - apply Hf. by apply Forall_cons in Ha as [? _].
  - apply IH; [done|]. by apply Forall_cons in Ha as [_ ?].
Qed.

Lemma tensor_all_tzip_l (P Q : R -> Prop) (f : R -> R -> R) (a b : Tensor) :
  (forall u v, P u -> Q (f u v)) -> tensor_all P a -> tensor_all Q (tzip f a b).
Proof.
  intros Hf. unfold tensor_all, tzip.
  apply Forall_zip_with_l. intros e e'.
  apply Forall_zip_with_l. intros r r'.
  apply Forall_zip_with_l. exact Hf.
Qed.

Lemma zip_with_ignore_r {A B C} (f : A -> B -> C) (g : A -> C)
    (P : B -> Prop) (a : list A) : forall z : list B,
  (forall u v, P v -> f u v = g u) ->
  length a = length z -> Forall P z -> zip_with f a z = map g a.
Proof.
  induction a as [|u a IH]; intros [|v z] Hf Hlen Hz; try done.
  apply Forall_cons in Hz as [Hv Hz]. cbn.
  rewrite Hf by done. f_equal. apply IH; [done|cbn in Hlen; lia|done].
Qed.

Lemma rows_ignore_r (f : R -> R -> R) (g : R -> R) (P : R -> Prop)
    (e : list (list R)) : forall z,
  (forall u v, P v -> f u v = g u) ->
  map length e = map length z -> Forall (Forall P) z ->
  zip_with (zip_with f) e z = map (map g) e.
Proof.
  induction e as [|r e IH]; intros [|r' z] Hf Hlen Hz; try done.
  apply Forall_cons in Hz as [Hv Hz].
  apply rows_cons_inv in Hlen as [Hr He]. cbn. f_equal.
  - by apply (zip_with_ignore_r f g P).
  - by apply IH.
Qed.

(** An operation that ignores its second operand on the entries of [z]
    acts on a tensor of the shape of [z] as a map. *)
Lemma tzip_ignore_r (f : R -> R -> R) (g : R -> R) (P : R -> Prop)
    (a : Tensor) : forall z,
  (forall u v, P v -> f u v = g u) ->
  shape a = shape z -> tensor_all P z -> tzip f a z = tmap g a.
Proof.
  induction a as [|e a IH]; intros [|e' z] Hf Hs Hz; try done.
  apply Forall_cons in Hz as [Hv Hz].
  apply shape_cons_inv in Hs as [He Ha]. unfold tzip, tmap. cbn. f_equal.
  - by apply (rows_ignore_r f g P).
  - by apply IH.
Qed.

Lemma tmap_id (x : Tensor) : tmap (fun u => u) x = x.
Proof.
  unfold tmap. rewrite <- (map_id x) at 2. apply map_ext. intros e.
  rewrite <- (map_id e) at 2. apply map_ext. intros r. apply map_id.
Qed.

(** Adding a tensor of zeros of the same shape changes nothing. *)
Lemma tadd_zero (a z : Tensor) :
  shape a = shape z -> tensor_all (fun v => v = 0%R) z -> tadd a z = a.
Proof.
  intros Hs Hz. unfold tadd.
  rewrite (tzip_ignore_r Rplus (fun u => u) (fun v => v = 0%R)); try done.
  - apply tmap_id.
  - intros u v ->. lra.
Qed.

(** ** The deterministic transition *)

Section DeterministicFacts.

Variable get_mean_and_xstart :
  list R -> Tensor -> list Z -> Tensor -> result (Tensor * Tensor).
Variable get_variance :
  list R -> Tensor -> list Z -> result (Tensor * Tensor).

Local Abbreviation p_mean_variance :=
  (SpacedDiffusion_p_mean_variance get_mean_and_xstart get_variance).
Local Abbreviation p_sample :=
  (DDIM_p_sample get_mean_and_xstart get_variance).

Lemma p_mean_variance_shapes (sd : SpacedDiffusion) (model : model_t)
    (x : Tensor) (t : list Z) (out : prediction) :
  p_mean_variance sd model x t = Ok out ->
  shape (mean out) = shape x /\ shape (log_variance out) = shape x
  /\ shape (pred_xstart out) = shape x.
Proof.
  unfold SpacedDiffusion_p_mean_variance, GaussianDiffusion_p_mean_variance.
  intros H. apply bind_Ok_inv in H as (model_output & _ & H).
  unfold process_model_output in H.
  destruct (if channels model_output =? 2 * channels x
            then split_channels (channels x) model_output
            else (model_output, model_output)) as [mo mv].
  apply bind_Ok_inv in H as ([model_mean px] & _ & H).
  apply bind_Ok_inv in H as ([model_variance model_log_variance] & _ & H).
  apply bind_Ok_inv in H as ([] & Ha%assert_Ok_inv & H).
  injection H as <-. cbn [mean log_variance pred_xstart].
  apply andb_true_iff in Ha as [Ha H3]. apply andb_true_iff in Ha as [H1 H2].
  unfold same_shape in *.
  apply bool_decide_eq_true in H1, H2, H3. split; [|split]; congruence.
Qed.

(** With [eta = 0] the interpolation variance is a tensor of zeros, and
    the noise term it scales vanishes. *)
Lemma DDIM_p_sample_eta_zero (sd : SpacedDiffusion) (model : model_t)
    (x : Tensor) (t : list Z) (omega : noise_source) :
  p_sample sd model x t 0%R omega
  = out ← p_mean_variance sd model x t;
    eps ← predict_eps_from_x_start sd x t (pred_xstart out);
    _ ← extract_and_expand (alphas_cumprod sd) t x;
    alpha_bar_prev ← extract_and_expand (alphas_cumprod_prev sd) t x;
    _ ← tensor_nonzero t;
    Ok (ddim_mean_pred (pred_xstart out) alpha_bar_prev eps, pred_xstart out).
Proof.
  unfold DDIM_p_sample.
  destruct (p_mean_variance sd model x t) as [out|e] eqn:Hout; [|done].
  cbn [mbind result_bind].
  destruct (p_mean_variance_shapes _ _ _ _ _ Hout) as (_ & _ & Hpx).
  destruct (predict_eps_from_x_start sd x t (pred_xstart out))
    as [eps|e] eqn:Heps; [|done].
  cbn [mbind result_bind].
  destruct (extract_and_expand (alphas_cumprod sd) t x)
    as [ab|e] eqn:Hab; [|done].
  cbn [mbind result_bind].
  destruct (extract_and_expand (alphas_cumprod_prev sd) t x)
    as [abp|e] eqn:Habp; [|done].
  cbn [mbind result_bind].
  apply shape_extract_and_expand in Hab, Habp.
  unfold predict_eps_from_x_start in Heps.
  apply bind_Ok_inv in Heps as (coef1 & Hc1%shape_extract_and_expand & Heps).
  apply bind_Ok_inv in Heps as (coef2 & Hc2%shape_extract_and_expand & Heps).
  injection Heps as <-.
  set (sigma := tmul (tmap (Rmult 0) _) _).
  assert (Hzero : tensor_all (fun v => v = 0%R) sigma).
  { unfold sigma, tmul.
    apply (tensor_all_tzip_l (fun v => v = 0%R)); [intros u v ->; lra|].
    apply tensor_all_tmap. intros u. lra. }
  assert (Hsigma : shape sigma = shape x) by (unfold sigma; solve_shape).
  assert (Hroot : tzip (fun p s => (1 - p - s ^ 2)%R) abp sigma
                  = tmap (fun p => (1 - p)%R) abp).
  { apply (tzip_ignore_r _ _ (fun v => v = 0%R)); [|congruence|done].
    intros u v ->. ring. }
  rewrite Hroot. fold (ddim_mean_pred (pred_xstart out) abp
                         (tdiv (tsub (tmul coef1 x) (pred_xstart out)) coef2)).
  destruct (tensor_nonzero t) as [[|]|e]; [|done..].
  cbn [mbind result_bind]. f_equal. f_equal.
  apply tadd_zero.
  - pose proof (shape_randn_like omega x) as Hnoise.
    transitivity (shape x); [|symmetry];
      unfold ddim_mean_pred; solve_shape.
  - unfold tmul. apply (tensor_all_tzip_l (fun v => v = 0%R)); [|done].
    intros u v ->. lra.
Qed.

Lemma extract_and_expand_single (array : list R) (t0 : Z) (x : Tensor) :
  0 <= t0 < Z.of_nat (length array) ->
  exists y, extract_and_expand array [t0] x = Ok y.
Proof.
  intros Ht. destruct (py_index_in_range array t0 Ht) as (a & Ha & _).
  unfold extract_and_expand. cbn. rewrite Ha. cbn.
  case_bool_decide; eauto.
Qed.

(** On a single time index of its range the deterministic step returns,
    whenever the reverse-process prediction does. *)
Lemma DDIM_p_sample_returns (use : gset Z) (kw : kwargs)
    (betas0 : list float64) (sd : SpacedDiffusion) (model : model_t)
    (x : Tensor) (t0 : Z) (out : prediction) :
  SpacedDiffusion_init use kw betas0 = Ok sd ->
  0 <= t0 < num_timesteps sd ->
  p_mean_variance sd model x [t0] = Ok out ->
  exists sample, forall omega,
    p_sample sd model x [t0] 0%R omega = Ok (sample, pred_xstart out).
Proof.
  intros Hsd Ht Hout.
  destruct (SpacedDiffusion_init_inv _ _ _ _ Hsd)
    as (_ & _ & _ & Hn & _ & Hl1 & Hl2 & Hl3 & Hl4).
  rewrite Hn in Ht.
  destruct (extract_and_expand_single (alphas_cumprod sd) t0 x)
    as [ab Hab]; [lia|].
  destruct (extract_and_expand_single (alphas_cumprod_prev sd) t0 x)
    as [abp Habp]; [lia|].
  destruct (extract_and_expand_single (sqrt_recip_alphas_cumprod sd) t0 x)
    as [c1 Hc1]; [lia|].
  destruct (extract_and_expand_single (sqrt_recipm1_alphas_cumprod sd) t0 x)
    as [c2 Hc2]; [lia|].
  eexists. intros omega. rewrite DDIM_p_sample_eta_zero, Hout.
  unfold predict_eps_from_x_start. rewrite Hc1, Hc2, Hab, Habp. cbn. done.
Qed.

(** In exact arithmetic the deterministic transition with [eta = 0] does
    not depend on the noise draw: two calls with different draws return the
    same result, and the sample is
    [sqrt(cumprod_prev) * pred_xstart + sqrt(1 - cumprod_prev) * eps].
    The statement on floats is at the end of the file. *)
Theorem DDIM_p_sample_eta_zero_deterministic (sd : SpacedDiffusion)
    (model : model_t) (x : Tensor) (t : list Z)
    (omega1 omega2 : noise_source) :
  p_sample sd model x t 0%R omega1 = p_sample sd model x t 0%R omega2
  /\ p_sample sd model x t 0%R omega1
     = out ← p_mean_variance sd model x t;
       eps ← predict_eps_from_x_start sd x t (pred_xstart out);
       _ ← extract_and_expand (alphas_cumprod sd) t x;
       alpha_bar_prev ← extract_and_expand (alphas_cumprod_prev sd) t x;
       _ ← tensor_nonzero t;
       Ok (ddim_mean_pred (pred_xstart out) alpha_bar_prev eps,
           pred_xstart out).
Proof.
  split; [by rewrite !DDIM_p_sample_eta_zero|].
  apply DDIM_p_sample_eta_zero.
Qed.

End DeterministicFacts.

(** ** The sampling loop *)

Lemma rev_py_range (m : nat) :
  rev (py_range 0 (Z.of_nat m))
  = map (fun k => Z.of_nat m - 1 - Z.of_nat k) (seq 0 m).
Proof.
  unfold py_range. rewrite Z.sub_0_r, Nat2Z.id.
  induction m as [|m IH]; [done|].
  rewrite seq_S at 1. rewrite map_app, rev_app_distr. cbn [rev map app].
  rewrite IH. cbn [seq map]. f_equal; [lia|].
  rewrite <- seq_shift, map_map. apply map_ext. intros k. lia.
Qed.

Section LoopFacts.

Variable Aux : Type.
Variable set_alternate_length : sample_pattern -> Z -> Z -> Z.
Variable repetition :
  GaussianDiffusion -> Z -> list Z -> bool -> Z -> Z ->
  Tensor * Aux -> result (Tensor * Aux).

Local Abbreviation body := (loop_body Aux set_alternate_length repetition).
Local Abbreviation sample_loop :=
  (p_sample_loop Aux set_alternate_length repetition).








End LoopFacts.



(** * Further properties of the code *)

(** ** Invariants of the cumulative-statistics cache *)

Lemma GaussianDiffusion_init_fields (kw : kwargs) (betas0 : list float64)
    (gd : GaussianDiffusion) :
  GaussianDiffusion_init kw betas0 = Ok gd ->
  alphas_cumprod_next gd = tail (alphas_cumprod gd) ++ [0%R]
  /\ sqrt_alphas_cumprod gd = map sqrt (alphas_cumprod gd)
  /\ sqrt_one_minus_alphas_cumprod gd
     = map (fun c => sqrt (1 - c)) (alphas_cumprod gd)
  /\ log_one_minus_alphas_cumprod gd
     = map (fun c => ln (1 - c)) (alphas_cumprod gd)
  /\ sqrt_recip_alphas_cumprod gd
     = map (fun c => sqrt (1 / c)) (alphas_cumprod gd)
  /\ sqrt_recipm1_alphas_cumprod gd
     = map (fun c => sqrt (1 / c - 1)) (alphas_cumprod gd)
  /\ posterior_mean_coef1 gd
     = zip_with3 (fun b p c => (b * sqrt p / (1 - c))%R)
         (betas gd) (alphas_cumprod_prev gd) (alphas_cumprod gd)
  /\ posterior_mean_coef2 gd
     = zip_with3 (fun p a c => ((1 - p) * sqrt a / (1 - c))%R)
         (alphas_cumprod_prev gd) (map (fun b => (1 - b)%R) (betas gd))
         (alphas_cumprod gd).
Proof.
  unfold GaussianDiffusion_init. intros H.
  apply bind_Ok_inv in H as ([] & _ & H).
  apply bind_Ok_inv in H as ([] & _ & H).
  apply bind_Ok_inv in H as (pv1 & _ & H). injection H as <-. cbn.
  repeat split; done.
Qed.

Lemma GaussianDiffusion_init_betas_range (kw : kwargs)
    (betas0 : list float64) (gd : GaussianDiffusion) :
  GaussianDiffusion_init kw betas0 = Ok gd ->
  Forall (fun b => 0 < b <= 1)%R (betas gd).
Proof.
  intros H. apply GaussianDiffusion_init_inv in H as (Hr & -> & _).
  rewrite forallb_forall in Hr. apply Forall_forall. intros b Hb.
  apply list_elem_of_In, in_map_iff in Hb as (b0 & <- & Hb0).
  specialize (Hr b0 Hb0). destruct b0 as [r|]; [|done]. cbn in *.
  apply andb_true_iff in Hr as [H0 H1].
  apply bool_decide_eq_true in H0, H1. done.
Qed.

(** The recurrence of [np.cumprod]. *)
Lemma cumprod_from_lookup_0 (acc : R) (l : list R) (c : R) :
  cumprod_from acc l !! 0%nat = Some c ->
  exists a, l !! 0%nat = Some a /\ c = (acc * a)%R.
Proof. destruct l as [|a l]; [done|]. cbn. intros [= <-]. eauto. Qed.

Lemma cumprod_from_lookup_S (l : list R) : forall (acc : R) (t : nat) (c' : R),
  cumprod_from acc l !! S t = Some c' ->
  exists c a, cumprod_from acc l !! t = Some c /\ l !! S t = Some a
              /\ c' = (c * a)%R.
Proof.
  induction l as [|a0 l IH]; intros acc t c' H; [done|].
  cbn in H. destruct t as [|t].
  - apply cumprod_from_lookup_0 in H as (a & Ha & ->).
    exists (acc * a0)%R, a. done.
  - apply IH in H as (c & a & Hc & Ha & ->). exists c, a. done.
Qed.

Lemma lookup_removelast {A} (l : list A) (t : nat) :
  (S t < length l)%nat -> removelast l !! t = l !! t.
Proof.
  revert t. induction l as [|x [|y l] IH]; intros t Ht; cbn in Ht; try lia.
  change (removelast (x :: y :: l)) with (x :: removelast (y :: l)).
  destruct t as [|t]; [done|]. cbn. apply IH. cbn. lia.
Qed.

(** The cumulative product at a step is the previous one times
    [1 - variance]. *)
Lemma cache_cumprod_step (kw : kwargs) (betas0 : list float64)
    (gd : GaussianDiffusion) (t : nat) (c : R) :
  GaussianDiffusion_init kw betas0 = Ok gd ->
  alphas_cumprod gd !! t = Some c ->
  exists p b, alphas_cumprod_prev gd !! t = Some p /\ betas gd !! t = Some b
              /\ c = (p * (1 - b))%R.
Proof.
  intros H Hc. pose proof (GaussianDiffusion_init_length _ _ _ H)
    as (_ & Hl & _).
  apply GaussianDiffusion_init_inv in H as (_ & Hb & _ & _ & _ & Hcp & Hprev & _).
  rewrite Hprev, Hb. rewrite Hcp in Hc |- *. unfold cumprod in *.
  set (bs := map finite_value betas0) in *.
  assert (Hlen : length (cumprod_from 1 (map (fun b => (1 - b)%R) bs))
                 = length bs).
  { by rewrite length_cumprod_from, length_map. }
  destruct t as [|t].
  - apply cumprod_from_lookup_0 in Hc as (a & Ha & ->).
    change ((map (fun b => (1 - b)%R) bs) !! 0%nat)
      with (((fun b => (1 - b)%R) <$> bs) !! 0%nat) in Ha.
    rewrite list_lookup_fmap in Ha.
    destruct (bs !! 0%nat) as [b|] eqn:Eb; [|done]. injection Ha as <-.
    exists 1%R, b. done.
  - pose proof (lookup_lt_Some _ _ _ Hc) as Hlt.
    apply cumprod_from_lookup_S in Hc as (c0 & a & Hc0 & Ha & ->).
    change ((map (fun b => (1 - b)%R) bs) !! S t)
      with (((fun b => (1 - b)%R) <$> bs) !! S t) in Ha.
    rewrite list_lookup_fmap in Ha.
    destruct (bs !! S t) as [b|] eqn:Eb; [|done]. injection Ha as <-.
    exists c0, b. split; [|done].
    change (removelast (cumprod_from 1 (map (fun b => (1 - b)%R) bs)) !! t
            = Some c0).
    rewrite lookup_removelast; done.
Qed.

Lemma cache_cumprod_prev_range (kw : kwargs) (betas0 : list float64)
    (gd : GaussianDiffusion) :
  GaussianDiffusion_init kw betas0 = Ok gd ->
  forall (t : nat) (p : R),
    alphas_cumprod_prev gd !! t = Some p -> (0 <= p <= 1)%R.
Proof.
  intros H. pose proof (GaussianDiffusion_init_betas_range _ _ _ H) as Hbs.
  pose proof (GaussianDiffusion_init_length _ _ _ H) as (_ & Hl & Hlp & _).
  pose proof (GaussianDiffusion_init_inv _ _ _ H)
    as (_ & _ & _ & _ & _ & _ & Hprev & _).
  induction t as [|t IH]; intros p Hp.
  - rewrite Hprev in Hp. injection Hp as <-. lra.
  - assert (Hc : alphas_cumprod gd !! t = Some p).
    { pose proof (lookup_lt_Some _ _ _ Hp) as Hlt.
      rewrite Hprev in Hp.
      change (removelast (alphas_cumprod gd) !! t = Some p) in Hp.
      rewrite lookup_removelast in Hp; [done|]. rewrite Hl, <- Hlp. done. }
    destruct (cache_cumprod_step _ _ _ _ _ H Hc) as (p0 & b & Hp0 & Hb & ->).
    specialize (IH _ Hp0). rewrite Forall_lookup in Hbs.
    specialize (Hbs _ _ Hb). cbv beta in Hbs. nra.
Qed.

Lemma cache_prev_shift (kw : kwargs) (betas0 : list float64)
    (gd : GaussianDiffusion) (t : nat) :
  GaussianDiffusion_init kw betas0 = Ok gd ->
  (S t < length betas0)%nat ->
  alphas_cumprod_prev gd !! S t = alphas_cumprod gd !! t.
Proof.
  intros H Ht. pose proof (GaussianDiffusion_init_length _ _ _ H)
    as (_ & Hl & _).
  apply GaussianDiffusion_init_inv in H as (_ & _ & _ & _ & _ & _ & Hprev & _).
  rewrite Hprev.
  change (removelast (alphas_cumprod gd) !! t = alphas_cumprod gd !! t).
  apply lookup_removelast. by rewrite Hl.
Qed.

Lemma cache_cumprod_range (kw : kwargs) (betas0 : list float64)
    (gd : GaussianDiffusion) (t : nat) (c : R) :
  GaussianDiffusion_init kw betas0 = Ok gd ->
  alphas_cumprod gd !! t = Some c -> (0 <= c < 1)%R.
Proof.
  intros H Hc.
  pose proof (GaussianDiffusion_init_betas_range _ _ _ H) as Hbs.
  rewrite Forall_lookup in Hbs.
  destruct (cache_cumprod_step _ _ _ _ _ H Hc) as (p & b & Hp & Hb & ->).
  pose proof (cache_cumprod_prev_range _ _ _ H _ _ Hp).
  specialize (Hbs _ _ Hb). cbv beta in Hbs. nra.
Qed.

(** The schedule [0.5, 0.5], which the constructor accepts. *)
Lemma half_schedule_accepted :
  exists gd,
    GaussianDiffusion_init
      {| kw_rescale_timesteps := false; kw_annealing_time := false |}
      [Finite (1 / 2); Finite (1 / 2)] = Ok gd.
Proof.
  apply GaussianDiffusion_init_succeeds.
  - cbn. rewrite !bool_decide_true by lra. done.
  - cbn. lia.
Qed.

(** X1.  The cumulative product stays in [0, 1) and never increases from one
    step to the next; it decreases strictly while it is positive. *)
Theorem cache_cumprod_nonincreasing (kw : kwargs) (betas0 : list float64)
    (gd : GaussianDiffusion) (t : nat) (c : R) :
  GaussianDiffusion_init kw betas0 = Ok gd ->
  alphas_cumprod gd !! t = Some c ->
  (0 <= c < 1)%R
  /\ forall c', alphas_cumprod gd !! S t = Some c' ->
       (c' <= c)%R /\ ((0 < c)%R -> (c' < c)%R).
Proof.
  intros H Hc.
  pose proof (GaussianDiffusion_init_betas_range _ _ _ H) as Hbs.
  rewrite Forall_lookup in Hbs.
  pose proof (GaussianDiffusion_init_length _ _ _ H) as (_ & Hl & _).
  split.
  - destruct (cache_cumprod_step _ _ _ _ _ H Hc) as (p & b & Hp & Hb & ->).
    pose proof (cache_cumprod_prev_range _ _ _ H _ _ Hp).
    specialize (Hbs _ _ Hb). cbv beta in Hbs. nra.
  - intros c' Hc'.
    destruct (cache_cumprod_step _ _ _ _ _ H Hc') as (p & b & Hp & Hb & ->).
    rewrite (cache_prev_shift kw betas0) in Hp; [|done|].
    + assert (p = c) as -> by congruence.
      destruct (cache_cumprod_step _ _ _ _ _ H Hc) as (p0 & b0 & Hp0 & _ & Hc0).
      pose proof (cache_cumprod_prev_range _ _ _ H _ _ Hp0).
      specialize (Hbs _ _ Hb). cbv beta in Hbs.
      assert (0 <= c)%R.
      { destruct (cache_cumprod_step _ _ _ _ _ H Hc) as (p1 & b1 & Hp1 & Hb1 & Hc1).
        pose proof (cache_cumprod_prev_range _ _ _ H _ _ Hp1).
        pose proof (proj1 (Forall_lookup _ _)
                      (GaussianDiffusion_init_betas_range _ _ _ H) _ _ Hb1)
          as Hb1r.
        cbv beta in Hb1r. nra. }
      split; [nra|]. intros. nra.
    + rewrite <- Hl. by apply lookup_lt_Some in Hc'.
Qed.

Lemma cache_cumprod_nonincreasing_witness :
  exists gd,
    GaussianDiffusion_init
      {| kw_rescale_timesteps := false; kw_annealing_time := false |}
      [Finite (1 / 2); Finite (1 / 2)] = Ok gd
    /\ forall c, alphas_cumprod gd !! 0%nat = Some c -> (0 <= c < 1)%R.
Proof.
  destruct half_schedule_accepted as [gd Hgd]. exists gd. split; [done|].
  intros c Hc.
  apply (proj1 (cache_cumprod_nonincreasing _ _ gd 0%nat c Hgd Hc)).
Defined.

(** X2.  Every sequence of the cache has one entry per step, and there are at
    least two steps. *)
Theorem cache_lengths (kw : kwargs) (betas0 : list float64)
    (gd : GaussianDiffusion) :
  GaussianDiffusion_init kw betas0 = Ok gd ->
  let n := length betas0 in
  (2 <= n)%nat /\ num_timesteps gd = Z.of_nat n
  /\ length (betas gd) = n
  /\ length (alphas_cumprod gd) = n
  /\ length (alphas_cumprod_prev gd) = n
  /\ length (alphas_cumprod_next gd) = n
  /\ length (sqrt_alphas_cumprod gd) = n
  /\ length (sqrt_one_minus_alphas_cumprod gd) = n
  /\ length (log_one_minus_alphas_cumprod gd) = n
  /\ length (sqrt_recip_alphas_cumprod gd) = n
  /\ length (sqrt_recipm1_alphas_cumprod gd) = n
  /\ length (posterior_variance gd) = n
  /\ length (posterior_log_variance_clipped gd) = n
  /\ length (posterior_mean_coef1 gd) = n
  /\ length (posterior_mean_coef2 gd) = n.
Proof.
  intros H n.
  pose proof (GaussianDiffusion_init_length _ _ _ H)
    as (H2 & Hcp & Hprev & Hr & Hrm).
  pose proof (GaussianDiffusion_init_fields _ _ _ H)
    as (Hnext & Hs & Hso & Hlo & _ & _ & Hc1 & Hc2).
  pose proof (GaussianDiffusion_init_inv _ _ _ H)
    as (_ & Hb & Hn & _ & _ & _ & _ & Hpv & pv1 & _ & Hlog).
  assert (Hlb : length (betas gd) = n) by (by rewrite Hb, length_map).
  assert (Hlpv : length (posterior_variance gd) = n).
  { rewrite Hpv, length_zip_with3; lia. }
  split; [done|]. split; [done|]. split; [done|]. split; [done|].
  split; [done|]. split.
  { rewrite Hnext, length_app. cbn.
    destruct (alphas_cumprod gd); cbn in *; lia. }
  split; [by rewrite Hs, length_map|].
  split; [by rewrite Hso, length_map|].
  split; [by rewrite Hlo, length_map|].
  split; [done|]. split; [done|]. split; [done|]. split.
  { rewrite Hlog. cbn. rewrite length_map.
    destruct (posterior_variance gd); cbn in *; lia. }
  split.
  - rewrite Hc1, length_zip_with3; lia.
  - rewrite Hc2, length_zip_with3; rewrite ?length_map; lia.
Qed.

Lemma cache_lengths_witness :
  exists gd,
    GaussianDiffusion_init
      {| kw_rescale_timesteps := false; kw_annealing_time := false |}
      [Finite (1 / 2); Finite (1 / 2)] = Ok gd
    /\ num_timesteps gd = 2
    /\ length (posterior_log_variance_clipped gd) = 2%nat.
Proof.
  destruct half_schedule_accepted as [gd Hgd]. exists gd. split; [done|].
  pose proof (cache_lengths _ _ gd Hgd) as H. cbn in H.
  destruct H as (_ & Hn & _ & _ & _ & _ & _ & _ & _ & _ & _ & _ & Hl & _).
  split; assumption.
Defined.

(** X3.  The posterior variance at a step lies between 0 and the variance of
    that step. *)
Theorem posterior_variance_bounds (kw : kwargs) (betas0 : list float64)
    (gd : GaussianDiffusion) (t : nat) (v : R) :
  GaussianDiffusion_init kw betas0 = Ok gd ->
  posterior_variance gd !! t = Some v ->
  exists b, betas gd !! t = Some b /\ (0 <= v <= b)%R.
Proof.
  intros H Hv.
  pose proof (GaussianDiffusion_init_length _ _ _ H) as (_ & Hlc & _).
  pose proof (GaussianDiffusion_init_inv _ _ _ H)
    as (_ & Hbe & _ & _ & _ & _ & _ & Hpve & _).
  pose proof (lookup_lt_Some _ _ _ Hv) as Hlt.
  rewrite Hpve in Hlt. unfold zip_with3 in Hlt.
  rewrite length_zip_with, length_zip in Hlt.
  destruct (lookup_lt_is_Some_2 (alphas_cumprod gd) t) as [c Hc]; [lia|].
  destruct (cache_cumprod_step _ _ _ _ _ H Hc) as (p & b & Hp & Hb & ->).
  pose proof (cache_cumprod_prev_range _ _ _ H _ _ Hp) as Hpr.
  pose proof (proj1 (Forall_lookup _ _)
                (GaussianDiffusion_init_betas_range _ _ _ H) _ _ Hb) as Hbr.
  cbv beta in Hbr.
  pose proof (GaussianDiffusion_init_inv _ _ _ H)
    as (_ & _ & _ & _ & _ & _ & _ & Hpv & _).
  rewrite Hpv, (lookup_zip_with3 _ _ _ _ t b p _ Hb Hp Hc) in Hv.
  injection Hv as <-. exists b. split; [done|].
  assert (Hd : (0 < 1 - p * (1 - b))%R) by nra.
  split.
  - apply Rle_mult_inv_pos; [nra|done].
  - apply (Rmult_le_reg_r (1 - p * (1 - b))); [done|].
    replace (b * (1 - p) / (1 - p * (1 - b)) * (1 - p * (1 - b)))%R
      with (b * (1 - p))%R by (field; lra).
    nra.
Qed.

Lemma posterior_variance_bounds_witness :
  exists gd,
    GaussianDiffusion_init
      {| kw_rescale_timesteps := false; kw_annealing_time := false |}
      [Finite (1 / 2); Finite (1 / 2)] = Ok gd
    /\ forall v, posterior_variance gd !! 1%nat = Some v ->
         exists b, betas gd !! 1%nat = Some b /\ (0 <= v <= b)%R.
Proof.
  destruct half_schedule_accepted as [gd Hgd]. exists gd. split; [done|].
  intros v Hv. exact (posterior_variance_bounds _ _ gd 1%nat v Hgd Hv).
Defined.

Lemma lookup_map_Some {A B} (f : A -> B) (l : list A) (t : nat) (y : B) :
  map f l !! t = Some y -> exists x, l !! t = Some x /\ y = f x.
Proof.
  change (map f l) with (f <$> l). rewrite list_lookup_fmap.
  destruct (l !! t) as [x|]; [|done]. intros [= <-]. eauto.
Qed.

(** X4.  The two coefficients of the forward sample are the square roots of
    complementary weights: their squares add up to 1. *)
Theorem forward_coefficients_unit (kw : kwargs) (betas0 : list float64)
    (gd : GaussianDiffusion) (t : nat) (s o : R) :
  GaussianDiffusion_init kw betas0 = Ok gd ->
  sqrt_alphas_cumprod gd !! t = Some s ->
  sqrt_one_minus_alphas_cumprod gd !! t = Some o ->
  (s * s + o * o = 1)%R.
Proof.
  intros H Hs Ho.
  pose proof (GaussianDiffusion_init_fields _ _ _ H) as (_ & Es & Eo & _).
  rewrite Es in Hs. rewrite Eo in Ho.
  apply lookup_map_Some in Hs as (c & Hc & ->).
  apply lookup_map_Some in Ho as (c' & Hc' & ->).
  assert (c' = c) as -> by congruence.
  pose proof (cache_cumprod_range _ _ _ _ _ H Hc) as Hr.
  rewrite !sqrt_sqrt by lra. lra.
Qed.

Lemma forward_coefficients_unit_witness :
  exists gd,
    GaussianDiffusion_init
      {| kw_rescale_timesteps := false; kw_annealing_time := false |}
      [Finite (1 / 2); Finite (1 / 2)] = Ok gd
    /\ forall s o,
         sqrt_alphas_cumprod gd !! 1%nat = Some s ->
         sqrt_one_minus_alphas_cumprod gd !! 1%nat = Some o ->
         (s * s + o * o = 1)%R.
Proof.
  destruct half_schedule_accepted as [gd Hgd]. exists gd. split; [done|].
  intros s o Hs Ho.
  exact (forward_coefficients_unit _ _ gd 1%nat s o Hgd Hs Ho).
Defined.

(** X5.  The posterior mean is consistent with the forward process: applied to a
    clean signal and its noise-free forward mean at step [t], the two
    posterior coefficients give the forward coefficient of step [t - 1]:
    [coef1[t] + coef2[t] * sqrt(cumprod[t]) = sqrt(cumprod_prev[t])]. *)
Theorem posterior_mean_coefficients_consistent (kw : kwargs)
    (betas0 : list float64) (gd : GaussianDiffusion) (t : nat)
    (k1 k2 s p : R) :
  GaussianDiffusion_init kw betas0 = Ok gd ->
  posterior_mean_coef1 gd !! t = Some k1 ->
  posterior_mean_coef2 gd !! t = Some k2 ->
  sqrt_alphas_cumprod gd !! t = Some s ->
  alphas_cumprod_prev gd !! t = Some p ->
  (k1 + k2 * s = sqrt p)%R.
Proof.
  intros H Hk1 Hk2 Hs Hp.
  pose proof (GaussianDiffusion_init_fields _ _ _ H)
    as (_ & Es & _ & _ & _ & _ & E1 & E2).
  rewrite Es in Hs. apply lookup_map_Some in Hs as (c & Hc & ->).
  destruct (cache_cumprod_step _ _ _ _ _ H Hc) as (p' & b & Hp' & Hb & ->).
  assert (p' = p) as -> by congruence.
  pose proof (cache_cumprod_prev_range _ _ _ H _ _ Hp) as Hpr.
  pose proof (proj1 (Forall_lookup _ _)
                (GaussianDiffusion_init_betas_range _ _ _ H) _ _ Hb) as Hbr.
  cbv beta in Hbr.
  rewrite E1, (lookup_zip_with3 _ _ _ _ t b p _ Hb Hp Hc) in Hk1.
  injection Hk1 as <-.
  assert (Ha : map (fun b => (1 - b)%R) (betas gd) !! t = Some (1 - b)%R).
  { change (map (fun b => (1 - b)%R) (betas gd))
      with ((fun b => (1 - b)%R) <$> betas gd).
    by rewrite list_lookup_fmap, Hb. }
  rewrite E2, (lookup_zip_with3 _ _ _ _ t p (1 - b)%R _ Hp Ha Hc) in Hk2.
  injection Hk2 as <-.
  rewrite sqrt_mult by lra.
  assert (Hsa : (sqrt (1 - b) * sqrt (1 - b) = 1 - b)%R)
    by (apply sqrt_sqrt; lra).
  set (sp := sqrt p) in *. set (sa := sqrt (1 - b)) in *.
  assert (Hd : (1 - p * (1 - b) <> 0)%R) by nra.
  apply (Rmult_eq_reg_r (1 - p * (1 - b))); [|done].
  replace ((b * sp / (1 - p * (1 - b))
            + (1 - p) * sa / (1 - p * (1 - b)) * (sp * sa))
           * (1 - p * (1 - b)))%R
    with (b * sp + (1 - p) * sp * (sa * sa))%R by (field; done).
  rewrite Hsa. ring.
Qed.

Lemma posterior_mean_coefficients_consistent_witness :
  exists gd,
    GaussianDiffusion_init
      {| kw_rescale_timesteps := false; kw_annealing_time := false |}
      [Finite (1 / 2); Finite (1 / 2)] = Ok gd
    /\ forall k1 k2 s p,
         posterior_mean_coef1 gd !! 1%nat = Some k1 ->
         posterior_mean_coef2 gd !! 1%nat = Some k2 ->
         sqrt_alphas_cumprod gd !! 1%nat = Some s ->
         alphas_cumprod_prev gd !! 1%nat = Some p ->
         (k1 + k2 * s = sqrt p)%R.
Proof.
  destruct half_schedule_accepted as [gd Hgd]. exists gd. split; [done|].
  intros k1 k2 s p H1 H2 Hs Hp.
  exact (posterior_mean_coefficients_consistent _ _ gd 1%nat k1 k2 s p
           Hgd H1 H2 Hs Hp).
Defined.

(** ** What the constructor accepts *)

(** X6.  The constructor accepts exactly the schedules of at least two variances
    that are all in (0, 1]; it fails its range assertion on any other
    variance (also [nan] and the infinities), fails its length assertion on
    the empty schedule, and raises [IndexError] on a one-step schedule, whose
    posterior variance has no second entry. *)
Theorem GaussianDiffusion_init_outcome (kw : kwargs)
    (betas0 : list float64) :
  ((exists gd, GaussianDiffusion_init kw betas0 = Ok gd)
   <-> forallb beta_in_range betas0 = true /\ (2 <= length betas0)%nat)
  /\ (GaussianDiffusion_init kw betas0 = Raise IndexError
      <-> forallb beta_in_range betas0 = true /\ length betas0 = 1%nat)
  /\ (GaussianDiffusion_init kw betas0 = Raise AssertionError
      <-> forallb beta_in_range betas0 = false \/ betas0 = []).
Proof.
  destruct (forallb beta_in_range betas0) eqn:Hr.
  - destruct betas0 as [|b0 [|b1 bs]].
    + assert (H : GaussianDiffusion_init kw [] = Raise AssertionError)
        by reflexivity.
      rewrite H. split; [|split]; split; try done.
      * by intros [gd Hgd].
      * cbn. lia.
      * by intros [_ ?].
      * by right.
    + assert (H : GaussianDiffusion_init kw [b0] = Raise IndexError).
      { unfold GaussianDiffusion_init. rewrite Hr. reflexivity. }
      rewrite H. split; [|split]; split; try done.
      * by intros [gd Hgd].
      * cbn. lia.
      * by intros [?|?].
    + destruct (GaussianDiffusion_init_succeeds kw (b0 :: b1 :: bs) Hr)
        as [gd Hgd]; [cbn; lia|].
      rewrite Hgd. split; [|split]; split; try done.
      * intros _. split; [done|]. cbn. lia.
      * intros _. by exists gd.
      * cbn. intros [_ ?]. lia.
      * by intros [?|?].
  - assert (H : GaussianDiffusion_init kw betas0 = Raise AssertionError).
    { unfold GaussianDiffusion_init. by rewrite Hr. }
    rewrite H. split; [|split]; split; try done.
    + by intros [gd Hgd].
    + by intros [? _].
    + by intros [? _].
    + by left.
Qed.

(** ** Entries of tensors *)

Lemma row_ext (r r' : list R) :
  length r = length r' ->
  (forall k v, r' !! k = Some v -> r !! k = Some v) -> r = r'.
Proof.
  intros Hlen H. apply list_eq. intros k.
  destruct (r' !! k) as [v|] eqn:E; [by apply H|].
  apply lookup_ge_None. apply lookup_ge_None in E. lia.
Qed.

Lemma rows_ext (e : list (list R)) : forall e',
  map length e = map length e' ->
  (forall c k v, (r ← e' !! c; r !! k) = Some v ->
                 (r ← e !! c; r !! k) = Some v) ->
  e = e'.
Proof.
  induction e as [|r e IH]; intros [|r' e'] Hs H; try done.
  apply rows_cons_inv in Hs as [Hr He]. f_equal.
  - apply row_ext; [done|]. intros k v Hk. apply (H 0%nat k v Hk).
  - apply IH; [done|]. intros c k v Hk. apply (H (S c) k v Hk).
Qed.

(** Two tensors of one shape with the same entries are equal. *)
Lemma tensor_ext (a : Tensor) : forall b : Tensor,
  shape a = shape b ->
  (forall n c k v, tget b n c k = Some v -> tget a n c k = Some v) ->
  a = b.
Proof.
  induction a as [|e a IH]; intros [|e' b] Hs H; try done.
  apply shape_cons_inv in Hs as [He Ha]. f_equal.
  - apply rows_ext; [done|]. intros c k v Hk. apply (H 0%nat c k v Hk).
  - apply IH; [done|]. intros n c k v Hk. apply (H (S n) c k v Hk).
Qed.

Lemma tget_Some_inv (x : Tensor) (n c k : nat) (v : R) :
  tget x n c k = Some v ->
  exists e r, x !! n = Some e /\ e !! c = Some r /\ r !! k = Some v.
Proof.
  unfold tget. destruct (x !! n) as [e|] eqn:E1; [|done]. cbn.
  destruct (e !! c) as [r|] eqn:E2; [|done]. cbn. intros Hv.
  exists e, r. done.
Qed.

Lemma tget_Some_intro (x : Tensor) (n c k : nat) e r (v : R) :
  x !! n = Some e -> e !! c = Some r -> r !! k = Some v ->
  tget x n c k = Some v.
Proof. unfold tget. intros ->. cbn. intros ->. done. Qed.

Lemma tget_tzip (f : R -> R -> R) (a b : Tensor) (n c k : nat) (u v : R) :
  tget a n c k = Some u -> tget b n c k = Some v ->
  tget (tzip f a b) n c k = Some (f u v).
Proof.
  intros (ea & ra & Ha1 & Ha2 & Ha3)%tget_Some_inv
         (eb & rb & Hb1 & Hb2 & Hb3)%tget_Some_inv.
  apply (tget_Some_intro _ _ _ _ (zip_with (zip_with f) ea eb)
           (zip_with f ra rb)).
  - unfold tzip. by rewrite lookup_zip_with, Ha1, Hb1.
  - by rewrite lookup_zip_with, Ha2, Hb2.
  - by rewrite lookup_zip_with, Ha3, Hb3.
Qed.

Lemma tget_tmap (f : R -> R) (a : Tensor) (n c k : nat) (u : R) :
  tget a n c k = Some u -> tget (tmap f a) n c k = Some (f u).
Proof.
  intros (e & r & H1 & H2 & H3)%tget_Some_inv.
  apply (tget_Some_intro _ _ _ _ (map (map f) e) (map f r)).
  - unfold tmap. change (map (map (map f)) a) with (map (map f) <$> a).
    by rewrite list_lookup_fmap, H1.
  - change (map (map f) e) with (map f <$> e).
    by rewrite list_lookup_fmap, H2.
  - change (map f r) with (f <$> r). by rewrite list_lookup_fmap, H3.
Qed.

Lemma lookup_map_length {A} (l l' : list (list A)) (i : nat) (x : list A) :
  map length l = map length l' -> l !! i = Some x ->
  exists x', l' !! i = Some x' /\ length x = length x'.
Proof.
  intros Hs Hx.
  assert (H : map length l !! i = Some (length x)).
  { change (map length l) with (length <$> l).
    by rewrite list_lookup_fmap, Hx. }
  rewrite Hs in H. apply lookup_map_Some in H as (x' & Hx' & Hl). eauto.
Qed.

(** Tensors of one shape have entries at the same places. *)
Lemma tget_same_shape (a b : Tensor) (n c k : nat) (v : R) :
  shape a = shape b -> tget a n c k = Some v ->
  exists u, tget b n c k = Some u.
Proof.
  intros Hs (e & r & H1 & H2 & H3)%tget_Some_inv.
  assert (H : shape a !! n = Some (map length e)).
  { unfold shape. change (map (map length) a) with (map length <$> a).
    by rewrite list_lookup_fmap, H1. }
  rewrite Hs in H. unfold shape in H.
  apply lookup_map_Some in H as (e' & He' & Hl).
  destruct (lookup_map_length _ _ _ _ Hl H2) as (r' & Hr' & Hlr).
  destruct (lookup_lt_is_Some_2 r' k) as [u Hu].
  { rewrite <- Hlr. by apply lookup_lt_Some in H3. }
  exists u. by apply (tget_Some_intro _ _ _ _ e' r').
Qed.

Lemma tget_randn_like (omega : noise_source) (x : Tensor) (n c k : nat)
    (u : R) :
  tget x n c k = Some u -> tget (randn_like omega x) n c k = Some (omega n c k).
Proof.
  intros (e & r & H1 & H2 & H3)%tget_Some_inv. unfold randn_like.
  eapply tget_Some_intro.
  - by rewrite list_lookup_imap, H1.
  - by rewrite list_lookup_imap, H2.
  - by rewrite list_lookup_imap, H3.
Qed.

(** The entries of an expanded coefficient: the array at the time index of
    the batch element. *)
Lemma tget_extract_and_expand (array : list R) (time : list Z)
    (x y : Tensor) (n c k : nat) (u : R) :
  extract_and_expand array time x = Ok y ->
  tget x n c k = Some u ->
  exists i v, batch_time time x n = Some i /\ py_index array i = Ok v
              /\ tget y n c k = Some v.
Proof.
  unfold extract_and_expand, batch_time. intros H Hu.
  apply bind_Ok_inv in H as (vals & Hm%mapM_Ok_1 & H).
  pose proof (Forall2_length _ _ _ Hm) as Hlen. rewrite Hlen.
  case_bool_decide as Hb.
  - injection H as <-.
    pose proof Hu as (e & r & H1 & H2 & H3)%tget_Some_inv.
    destruct (lookup_lt_is_Some_2 vals n) as [v Hv].
    { rewrite Hb. by apply lookup_lt_Some in H1. }
    destruct (Forall2_lookup_r _ _ _ _ _ Hm Hv) as (i & Hi & Hidx).
    exists i, v. split; [done|]. split; [done|].
    apply (tget_Some_intro _ _ _ _ (map (map (fun _ => v)) e)
             (map (fun _ => v) r)).
    + by rewrite lookup_zip_with, Hv, H1.
    + change (map (map (fun _ : R => v)) e)
        with (map (fun _ : R => v) <$> e).
      by rewrite list_lookup_fmap, H2.
    + change (map (fun _ : R => v) r) with ((fun _ : R => v) <$> r).
      by rewrite list_lookup_fmap, H3.
  - destruct vals as [|v [|v' vals]]; try done. injection H as <-.
    destruct time as [|i [|i' time]]; try done.
    apply Forall2_cons in Hm as [Hidx _].
    exists i, v. split; [done|]. split; [done|].
    apply (tget_tmap (fun _ => v) x n c k u Hu).
Qed.

(** ** Indexing *)

Lemma py_index_Ok_inv {A} (l : list A) (i : Z) (a : A) :
  py_index l i = Ok a ->
  let j := if i <? 0 then i + Z.of_nat (length l) else i in
  0 <= j < Z.of_nat (length l) /\ l !! Z.to_nat j = Some a.
Proof.
  unfold py_index. cbv zeta.
  set (j := if i <? 0 then i + Z.of_nat (length l) else i).
  destruct (j <? 0) eqn:E1; [done|]. cbn [orb].
  destruct (Z.of_nat (length l) <=? j) eqn:E2; [done|].
  apply Z.ltb_ge in E1. apply Z.leb_gt in E2.
  destruct (l !! Z.to_nat j) as [a'|] eqn:E; [|done].
  intros [= ->]. split; [lia|done].
Qed.

Lemma py_index_Ok_intro {A} (l : list A) (i : Z) (a : A) :
  let j := if i <? 0 then i + Z.of_nat (length l) else i in
  0 <= j -> l !! Z.to_nat j = Some a -> py_index l i = Ok a.
Proof.
  cbv zeta. intros Hj Ha. pose proof (lookup_lt_Some _ _ _ Ha) as Hlt.
  unfold py_index.
  set (j := if i <? 0 then i + Z.of_nat (length l) else i) in *.
  destruct (j <? 0) eqn:E1; [apply Z.ltb_lt in E1; lia|]. cbn [orb].
  destruct (Z.of_nat (length l) <=? j) eqn:E2; [apply Z.leb_le in E2; lia|].
  by rewrite Ha.
Qed.

(** Indexing commutes with an element-wise map of the array. *)
Lemma py_index_map {A B} (f : A -> B) (l : list A) (i : Z) (a : A) :
  py_index l i = Ok a -> py_index (map f l) i = Ok (f a).
Proof.
  intros [Hj Ha]%py_index_Ok_inv. apply py_index_Ok_intro.
  - rewrite length_map. lia.
  - rewrite length_map. change (map f l) with (f <$> l).
    by rewrite list_lookup_fmap, Ha.
Qed.

(** Whether an index is in range depends on the length only. *)
Lemma py_index_same_length {A B} (l : list A) (l' : list B) (i : Z) (a : A) :
  length l = length l' -> py_index l i = Ok a ->
  exists b, py_index l' i = Ok b.
Proof.
  intros Hlen [Hj Ha]%py_index_Ok_inv.
  destruct (lookup_lt_is_Some_2 l'
              (Z.to_nat (if i <? 0 then i + Z.of_nat (length l) else i)))
    as [b Hb].
  { rewrite <- Hlen. by apply lookup_lt_Some in Ha. }
  exists b. apply py_index_Ok_intro; rewrite <- Hlen; [lia|done].
Qed.

Lemma extract_and_expand_same_lengths (array array' : list R)
    (time : list Z) (x x' y : Tensor) :
  length array = length array' -> length x = length x' ->
  extract_and_expand array time x = Ok y ->
  exists y', extract_and_expand array' time x' = Ok y'.
Proof.
  intros Ha Hx. unfold extract_and_expand. intros H.
  apply bind_Ok_inv in H as (vals & Hm%mapM_Ok_1 & H).
  assert (Hvals' : exists vals',
             Forall2 (fun i v => py_index array' i = Ok v) time vals').
  { clear H. induction Hm as [|i v time vals Hi _ [vals' IH]].
    - exists []. constructor.
    - destruct (py_index_same_length _ array' _ _ Ha Hi) as [v' Hv'].
      exists (v' :: vals'). by constructor. }
  destruct Hvals' as [vals' Hm'].
  pose proof (Forall2_length _ _ _ Hm) as Hl.
  pose proof (Forall2_length _ _ _ Hm') as Hl'.
  rewrite (mapM_Ok_2 _ _ _ Hm'). cbn [mbind result_bind].
  rewrite <- Hx, <- Hl', Hl.
  case_bool_decide; [eauto|].
  destruct vals as [|v [|v2 vals]]; try done.
  destruct vals' as [|v' [|v2' vals']]; try (cbn in *; lia). eauto.
Qed.

Lemma batch_time_same_length (time : list Z) (x x' : Tensor) (n : nat) :
  length x = length x' -> batch_time time x n = batch_time time x' n.
Proof. intros H. unfold batch_time. by rewrite H. Qed.

(** While every variance is below 1 the cumulative product is positive. *)
Lemma cache_cumprod_pos (kw : kwargs) (betas0 : list float64)
    (gd : GaussianDiffusion) :
  GaussianDiffusion_init kw betas0 = Ok gd ->
  Forall (fun b => b < 1)%R (betas gd) ->
  forall (t : nat) (c : R), alphas_cumprod gd !! t = Some c -> (0 < c)%R.
Proof.
  intros H Hlt. rewrite Forall_lookup in Hlt.
  pose proof (GaussianDiffusion_init_length _ _ _ H) as (_ & Hl & _).
  pose proof (GaussianDiffusion_init_inv _ _ _ H)
    as (_ & _ & _ & _ & _ & _ & Hprev & _).
  induction t as [|t IH]; intros c Hc;
    destruct (cache_cumprod_step _ _ _ _ _ H Hc) as (p & b & Hp & Hb & ->);
    specialize (Hlt _ _ Hb); cbv beta in Hlt.
  - rewrite Hprev in Hp. injection Hp as <-. lra.
  - rewrite (cache_prev_shift kw betas0) in Hp; [|done|].
    + specialize (IH _ Hp). nra.
    + rewrite <- Hl. by apply lookup_lt_Some in Hc.
Qed.

(** ** Forward sample and noise recovery *)

Lemma noise_recovery_algebra (c u v : R) :
  (0 < c < 1)%R ->
  ((sqrt (1 / c) * (sqrt c * u + sqrt (1 - c) * v) - u) / sqrt (1 / c - 1)
   = v)%R.
Proof.
  intros Hc.
  assert (Hs : (0 < sqrt c)%R) by (apply sqrt_lt_R0; lra).
  assert (Ho : (0 < sqrt (1 - c))%R) by (apply sqrt_lt_R0; lra).
  assert (Hss : (sqrt c * sqrt c = c)%R) by (apply sqrt_sqrt; lra).
  assert (Hoo : (sqrt (1 - c) * sqrt (1 - c) = 1 - c)%R)
    by (apply sqrt_sqrt; lra).
  assert (Hr : sqrt (1 / c) = (1 / sqrt c)%R).
  { apply sqrt_lem_1.
    - apply Rlt_le, Rdiv_lt_0_compat; lra.
    - apply Rlt_le, Rdiv_lt_0_compat; lra.
    - replace (1 / sqrt c * (1 / sqrt c))%R
        with (1 / (sqrt c * sqrt c))%R by (field; lra).
      by rewrite Hss. }
  assert (Hm : sqrt (1 / c - 1) = (sqrt (1 - c) / sqrt c)%R).
  { apply sqrt_lem_1.
    - assert (0 < 1 / c - 1)%R; [|lra].
      replace (1 / c - 1)%R with ((1 - c) / c)%R by (field; lra).
      apply Rdiv_lt_0_compat; lra.
    - apply Rlt_le, Rdiv_lt_0_compat; lra.
    - replace (sqrt (1 - c) / sqrt c * (sqrt (1 - c) / sqrt c))%R
        with ((sqrt (1 - c) * sqrt (1 - c)) / (sqrt c * sqrt c))%R
        by (field; lra).
      rewrite Hss, Hoo. field. lra. }
  rewrite Hr, Hm. set (s := sqrt c) in *. set (o := sqrt (1 - c)) in *.
  field. lra.
Qed.

(** X7.  Round trip of the forward process: from a forward sample of a clean
    signal and that signal, [predict_eps_from_x_start] recovers the noise
    that [q_sample] drew, on every schedule whose variances are below 1. *)
Theorem q_sample_predict_eps_round_trip (kw : kwargs)
    (betas0 : list float64) (gd : GaussianDiffusion) (x_start : Tensor)
    (t : list Z) (omega : noise_source) (x_t : Tensor) :
  GaussianDiffusion_init kw betas0 = Ok gd ->
  Forall (fun b => b < 1)%R (betas gd) ->
  q_sample gd x_start t omega = Ok x_t ->
  predict_eps_from_x_start gd x_t t x_start = Ok (randn_like omega x_start).
Proof.
  intros H Hlt Hq.
  pose proof (GaussianDiffusion_init_fields _ _ _ H)
    as (_ & Es & Eo & _ & Er & Em & _).
  unfold q_sample in Hq.
  apply bind_Ok_inv in Hq as ([] & _ & Hq).
  apply bind_Ok_inv in Hq as (coef1 & Hc1 & Hq).
  apply bind_Ok_inv in Hq as (coef2 & Hc2 & Hq). injection Hq as <-.
  pose proof (shape_randn_like omega x_start) as Hsn.
  pose proof (shape_extract_and_expand _ _ _ _ Hc1) as Hs1.
  pose proof (shape_extract_and_expand _ _ _ _ Hc2) as Hs2.
  set (noise := randn_like omega x_start) in *.
  set (x_t := tadd (tmul coef1 x_start) (tmul coef2 noise)).
  assert (Hsx : shape x_t = shape x_start) by (unfold x_t; solve_shape).
  assert (Hlx : length x_start = length x_t).
  { apply (f_equal length) in Hsx. unfold shape in Hsx.
    by rewrite !length_map in Hsx. }
  unfold predict_eps_from_x_start.
  destruct (extract_and_expand_same_lengths (sqrt_alphas_cumprod gd)
              (sqrt_recip_alphas_cumprod gd) t x_start x_t coef1)
    as [r Hr]; [by rewrite Es, Er, !length_map|done|done|].
  destruct (extract_and_expand_same_lengths (sqrt_alphas_cumprod gd)
              (sqrt_recipm1_alphas_cumprod gd) t x_start x_t coef1)
    as [m Hm]; [by rewrite Es, Em, !length_map|done|done|].
  rewrite Hr, Hm. cbn [mbind result_bind]. f_equal.
  pose proof (shape_extract_and_expand _ _ _ _ Hr) as Hsr.
  pose proof (shape_extract_and_expand _ _ _ _ Hm) as Hsm.
  apply tensor_ext.
  { transitivity (shape x_start); [|done]. solve_shape; congruence. }
  intros n c k v Hv.
  destruct (tget_same_shape _ x_start n c k v Hsn Hv) as [u Hu].
  assert (Hnoise : tget noise n c k = Some (omega n c k))
    by (apply (tget_randn_like omega x_start n c k u Hu)).
  rewrite Hnoise in Hv. injection Hv as <-.
  destruct (tget_extract_and_expand _ _ _ _ n c k u Hc1 Hu)
    as (i & s & Hi & Hsv & Hgs).
  destruct (tget_extract_and_expand _ _ _ _ n c k u Hc2 Hu)
    as (i2 & o & Hi2 & Hov & Hgo).
  assert (i2 = i) as -> by congruence.
  assert (Hxt : tget x_t n c k = Some (s * u + o * omega n c k)%R).
  { unfold x_t, tadd, tmul. apply tget_tzip; by apply tget_tzip. }
  destruct (tget_extract_and_expand _ _ _ _ n c k _ Hr Hxt)
    as (i3 & rv & Hi3 & Hrv & Hgr).
  destruct (tget_extract_and_expand _ _ _ _ n c k _ Hm Hxt)
    as (i4 & mv & Hi4 & Hmv & Hgm).
  rewrite <- (batch_time_same_length t x_start x_t n Hlx) in Hi3, Hi4.
  assert (i3 = i) as -> by congruence.
  assert (i4 = i) as -> by congruence.
  rewrite Es in Hsv.
  destruct (py_index_same_length _ (alphas_cumprod gd) _ _
              ltac:(by rewrite length_map) Hsv) as [cc Hcc].
  rewrite (py_index_map sqrt _ _ _ Hcc) in Hsv. injection Hsv as <-.
  rewrite Eo, (py_index_map (fun c => sqrt (1 - c)) _ _ _ Hcc) in Hov.
  injection Hov as <-.
  rewrite Er, (py_index_map (fun c => sqrt (1 / c)) _ _ _ Hcc) in Hrv.
  injection Hrv as <-.
  rewrite Em, (py_index_map (fun c => sqrt (1 / c - 1)) _ _ _ Hcc) in Hmv.
  injection Hmv as <-.
  apply py_index_Ok_inv in Hcc as [_ Hcc].
  pose proof (cache_cumprod_range _ _ _ _ _ H Hcc) as Hrange.
  pose proof (cache_cumprod_pos _ _ _ H Hlt _ _ Hcc) as Hpos.
  rewrite <- (noise_recovery_algebra cc u (omega n c k)) at 1 by lra.
  unfold tdiv, tsub, tmul.
  apply tget_tzip; [|done]. apply tget_tzip; [|done]. by apply tget_tzip.
Qed.

(** On a single time index of the schedule the forward sample returns. *)
Lemma q_sample_returns (kw : kwargs) (betas0 : list float64)
    (gd : GaussianDiffusion) (x_start : Tensor) (t0 : Z)
    (omega : noise_source) :
  GaussianDiffusion_init kw betas0 = Ok gd ->
  0 <= t0 < num_timesteps gd ->
  exists x_t, q_sample gd x_start [t0] omega = Ok x_t.
Proof.
  intros H Ht.
  pose proof (GaussianDiffusion_init_fields _ _ _ H) as (_ & Es & Eo & _).
  pose proof (GaussianDiffusion_init_length _ _ _ H) as (_ & Hl & _).
  pose proof (GaussianDiffusion_init_inv _ _ _ H) as (_ & _ & Hn & _).
  unfold q_sample, same_shape.
  rewrite bool_decide_true by apply shape_randn_like.
  cbn [assert mbind result_bind].
  destruct (extract_and_expand_single (sqrt_alphas_cumprod gd) t0 x_start)
    as [c1 Hc1]; [rewrite Es, length_map; lia|].
  destruct (extract_and_expand_single (sqrt_one_minus_alphas_cumprod gd)
              t0 x_start) as [c2 Hc2]; [rewrite Eo, length_map; lia|].
  rewrite Hc1, Hc2. cbn. eauto.
Qed.

Lemma q_sample_predict_eps_round_trip_witness :
  exists gd x_t,
    GaussianDiffusion_init
      {| kw_rescale_timesteps := false; kw_annealing_time := false |}
      [Finite (1 / 2); Finite (1 / 2)] = Ok gd
    /\ q_sample gd [[[1%R]]] [1] (fun _ _ _ => 2%R) = Ok x_t
    /\ predict_eps_from_x_start gd x_t [1] [[[1%R]]] = Ok [[[2%R]]].
Proof.
  destruct half_schedule_accepted as [gd Hgd].
  pose proof (GaussianDiffusion_init_inv _ _ _ Hgd) as (_ & Hb & Hn & _).
  destruct (q_sample_returns _ _ gd [[[1%R]]] 1 (fun _ _ _ => 2%R) Hgd)
    as [x_t Hx]; [rewrite Hn; cbn; lia|].
  exists gd, x_t. split; [done|]. split; [done|].
  apply (q_sample_predict_eps_round_trip _ _ gd [[[1%R]]] [1]
           (fun _ _ _ => 2%R) x_t Hgd); [|done].
  rewrite Hb. cbn. repeat constructor; lra.
Defined.

(** ** The posterior *)

Lemma same_shape_length (x y : Tensor) :
  shape x = shape y -> length x = length y.
Proof.
  intros H. apply (f_equal length) in H. unfold shape in H.
  by rewrite !length_map in H.
Qed.

(** X8.  The posterior refuses a clean signal and a noisy sample of different
    shapes, and otherwise returns a mean, a variance and a log-variance of
    the shape of its inputs. *)
Theorem q_posterior_mean_variance_shapes (gd : GaussianDiffusion)
    (x_start x_t : Tensor) (t : list Z) :
  (shape x_start <> shape x_t ->
   q_posterior_mean_variance gd x_start x_t t = Raise AssertionError)
  /\ forall pm pv plv,
       q_posterior_mean_variance gd x_start x_t t = Ok (pm, pv, plv) ->
       shape x_start = shape x_t
       /\ shape pm = shape x_t /\ shape pv = shape x_t
       /\ shape plv = shape x_t.
Proof.
  unfold q_posterior_mean_variance, same_shape. split.
  - intros Hne. by rewrite bool_decide_false.
  - intros pm pv plv H.
    apply bind_Ok_inv in H as ([] & Hs%assert_Ok_inv & H).
    apply bool_decide_eq_true in Hs.
    apply bind_Ok_inv in H as (c1 & Hc1%shape_extract_and_expand & H).
    apply bind_Ok_inv in H as (c2 & Hc2%shape_extract_and_expand & H).
    apply bind_Ok_inv in H as (v & Hv%shape_extract_and_expand & H).
    apply bind_Ok_inv in H as (lv & Hlv%shape_extract_and_expand & H).
    apply bind_Ok_inv in H as ([] & _ & H). injection H as <- <- <-.
    split; [done|]. split; [|done]. solve_shape; congruence.
Qed.

Lemma cache_posterior_at_zero (kw : kwargs) (betas0 : list float64)
    (gd : GaussianDiffusion) :
  GaussianDiffusion_init kw betas0 = Ok gd ->
  posterior_mean_coef1 gd !! 0%nat = Some 1%R
  /\ posterior_mean_coef2 gd !! 0%nat = Some 0%R
  /\ posterior_variance gd !! 0%nat = Some 0%R
  /\ alphas_cumprod_prev gd !! 0%nat = Some 1%R.
Proof.
  intros H.
  pose proof (GaussianDiffusion_init_length _ _ _ H) as (H2 & Hl & _).
  pose proof (GaussianDiffusion_init_fields _ _ _ H)
    as (_ & _ & _ & _ & _ & _ & E1 & E2).
  pose proof (GaussianDiffusion_init_inv _ _ _ H)
    as (_ & _ & _ & _ & _ & _ & Hprev & Hpv & _).
  destruct (lookup_lt_is_Some_2 (alphas_cumprod gd) 0) as [c Hc]; [lia|].
  destruct (cache_cumprod_step _ _ _ _ _ H Hc) as (p & b & Hp & Hb & ->).
  assert (p = 1%R) as ->.
  { rewrite Hprev in Hp. by injection Hp as <-. }
  pose proof (proj1 (Forall_lookup _ _)
                (GaussianDiffusion_init_betas_range _ _ _ H) _ _ Hb) as Hbr.
  cbv beta in Hbr.
  assert (Ha : map (fun b => (1 - b)%R) (betas gd) !! 0%nat
               = Some (1 - b)%R).
  { change (map (fun b => (1 - b)%R) (betas gd))
      with ((fun b => (1 - b)%R) <$> betas gd).
    by rewrite list_lookup_fmap, Hb. }
  rewrite E1, E2, Hpv.
  rewrite (lookup_zip_with3 _ _ _ _ 0%nat b 1%R _ Hb Hp Hc).
  rewrite (lookup_zip_with3 _ _ _ _ 0%nat 1%R (1 - b)%R _ Hp Ha Hc).
  rewrite (lookup_zip_with3 _ _ _ _ 0%nat b 1%R _ Hb Hp Hc).
  rewrite sqrt_1. repeat split; try done; f_equal; field; lra.
Qed.

Lemma batch_time_zero (t : list Z) (x : Tensor) (n : nat) (i : Z) :
  Forall (fun i => i = 0) t -> batch_time t x n = Some i -> i = 0.
Proof.
  intros Hall. unfold batch_time. rewrite Forall_lookup in Hall.
  case_bool_decide.
  - intros Hi. by apply (Hall n i).
  - destruct t as [|i0 t]; [done|]. cbn. intros [= <-].
    by apply (Hall 0%nat i0).
Qed.

Lemma py_index_0_inv {A} (l : list A) (a : A) :
  py_index l 0 = Ok a -> l !! 0%nat = Some a.
Proof. by intros [_ H]%py_index_Ok_inv. Qed.

(** X9.  At time index 0 the posterior collapses onto the clean signal: its mean
    is [x_start] and its variance is 0 everywhere. *)
Theorem q_posterior_at_zero (kw : kwargs) (betas0 : list float64)
    (gd : GaussianDiffusion) (x_start x_t : Tensor) (t : list Z)
    (pm pv plv : Tensor) :
  GaussianDiffusion_init kw betas0 = Ok gd ->
  Forall (fun i => i = 0) t ->
  q_posterior_mean_variance gd x_start x_t t = Ok (pm, pv, plv) ->
  pm = x_start
  /\ forall n c k v, tget pv n c k = Some v -> v = 0%R.
Proof.
  intros H Ht Hq.
  destruct (cache_posterior_at_zero _ _ _ H) as (H1 & H2 & H0 & _).
  unfold q_posterior_mean_variance, same_shape in Hq.
  apply bind_Ok_inv in Hq as ([] & Hs%assert_Ok_inv & Hq).
  apply bool_decide_eq_true in Hs.
  apply bind_Ok_inv in Hq as (c1 & Hc1 & Hq).
  apply bind_Ok_inv in Hq as (c2 & Hc2 & Hq).
  apply bind_Ok_inv in Hq as (v0 & Hv & Hq).
  apply bind_Ok_inv in Hq as (lv & Hlv & Hq).
  apply bind_Ok_inv in Hq as ([] & _ & Hq). injection Hq as <- <- <-.
  pose proof (shape_extract_and_expand _ _ _ _ Hc1) as Hs1.
  pose proof (shape_extract_and_expand _ _ _ _ Hc2) as Hs2.
  pose proof (shape_extract_and_expand _ _ _ _ Hv) as Hsv.
  split.
  - apply tensor_ext; [solve_shape; congruence|].
    intros n c k u Hu.
    destruct (tget_same_shape _ x_t n c k u Hs Hu) as [w Hw].
    destruct (tget_extract_and_expand _ _ _ _ n c k u Hc1 Hu)
      as (i & a & Hi & Ha & Hga).
    destruct (tget_extract_and_expand _ _ _ _ n c k w Hc2 Hw)
      as (i' & b & Hi' & Hb & Hgb).
    apply (batch_time_zero _ _ _ _ Ht) in Hi as ->.
    apply (batch_time_zero _ _ _ _ Ht) in Hi' as ->.
    apply py_index_0_inv in Ha, Hb.
    assert (a = 1%R) as -> by congruence.
    assert (b = 0%R) as -> by congruence.
    replace (Some u) with (Some (1 * u + 0 * w)%R) by (f_equal; ring).
    unfold tadd, tmul. apply tget_tzip; by apply tget_tzip.
  - intros n c k v Hgv.
    destruct (tget_same_shape _ x_t n c k v Hsv Hgv) as [w Hw].
    destruct (tget_extract_and_expand _ _ _ _ n c k w Hv Hw)
      as (i & a & Hi & Ha & Hga).
    apply (batch_time_zero _ _ _ _ Ht) in Hi as ->.
    apply py_index_0_inv in Ha. congruence.
Qed.

Lemma cache_posterior_lengths (kw : kwargs) (betas0 : list float64)
    (gd : GaussianDiffusion) :
  GaussianDiffusion_init kw betas0 = Ok gd ->
  length (posterior_mean_coef1 gd) = length betas0
  /\ length (posterior_mean_coef2 gd) = length betas0
  /\ length (posterior_variance gd) = length betas0
  /\ length (posterior_log_variance_clipped gd) = length betas0.
Proof.
  intros H.
  pose proof (GaussianDiffusion_init_length _ _ _ H)
    as (H2 & Hcp & Hprev & _).
  pose proof (GaussianDiffusion_init_fields _ _ _ H)
    as (_ & _ & _ & _ & _ & _ & Hc1 & Hc2).
  pose proof (GaussianDiffusion_init_inv _ _ _ H)
    as (_ & Hb & _ & _ & _ & _ & _ & Hpv & pv1 & _ & Hlog).
  assert (Hlb : length (betas gd) = length betas0)
    by (by rewrite Hb, length_map).
  assert (Hlpv : length (posterior_variance gd) = length betas0).
  { rewrite Hpv, length_zip_with3; lia. }
  split; [rewrite Hc1, length_zip_with3; lia|].
  split; [rewrite Hc2, length_zip_with3; rewrite ?length_map; lia|].
  split; [done|].
  rewrite Hlog. cbn. rewrite length_map.
  destruct (posterior_variance gd); cbn in *; lia.
Qed.

(** On a single time index of the schedule and inputs of one shape the
    posterior returns. *)
Lemma q_posterior_mean_variance_returns (kw : kwargs)
    (betas0 : list float64) (gd : GaussianDiffusion)
    (x_start x_t : Tensor) (t0 : Z) :
  GaussianDiffusion_init kw betas0 = Ok gd ->
  0 <= t0 < num_timesteps gd ->
  shape x_start = shape x_t ->
  exists pm pv plv,
    q_posterior_mean_variance gd x_start x_t [t0] = Ok (pm, pv, plv).
Proof.
  intros H Ht Hs.
  destruct (cache_posterior_lengths _ _ _ H) as (L1 & L2 & L3 & L4).
  pose proof (GaussianDiffusion_init_inv _ _ _ H) as (_ & _ & Hn & _).
  unfold q_posterior_mean_variance, same_shape.
  rewrite bool_decide_true by done. cbn [assert mbind result_bind].
  destruct (extract_and_expand_single (posterior_mean_coef1 gd) t0 x_start)
    as [c1 Hc1]; [lia|].
  destruct (extract_and_expand_single (posterior_mean_coef2 gd) t0 x_t)
    as [c2 Hc2]; [lia|].
  destruct (extract_and_expand_single (posterior_variance gd) t0 x_t)
    as [v Hv]; [lia|].
  destruct (extract_and_expand_single (posterior_log_variance_clipped gd)
              t0 x_t) as [lv Hlv]; [lia|].
  rewrite Hc1, Hc2, Hv, Hlv. cbn [mbind result_bind].
  apply shape_extract_and_expand in Hc1, Hc2, Hv, Hlv.
  assert (Hpm : shape (tadd (tmul c1 x_start) (tmul c2 x_t)) = shape x_t)
    by (solve_shape; congruence).
  apply same_shape_length in Hpm, Hv, Hlv, Hs.
  rewrite !bool_decide_true by congruence. cbn. eauto.
Qed.

Lemma q_posterior_mean_variance_shapes_witness :
  exists gd pm pv plv,
    GaussianDiffusion_init
      {| kw_rescale_timesteps := false; kw_annealing_time := false |}
      [Finite (1 / 2); Finite (1 / 2)] = Ok gd
    /\ q_posterior_mean_variance gd [[[1%R]]] [] [1] = Raise AssertionError
    /\ q_posterior_mean_variance gd [[[1%R]]] [[[3%R]]] [1] = Ok (pm, pv, plv)
    /\ shape pm = [[1%nat]].
Proof.
  destruct half_schedule_accepted as [gd Hgd].
  pose proof (GaussianDiffusion_init_inv _ _ _ Hgd) as (_ & _ & Hn & _).
  destruct (q_posterior_mean_variance_returns _ _ gd [[[1%R]]] [[[3%R]]] 1 Hgd)
    as (pm & pv & plv & Hq); [rewrite Hn; cbn; lia|done|].
  exists gd, pm, pv, plv. split; [done|]. split.
  - by apply (proj1 (q_posterior_mean_variance_shapes gd [[[1%R]]] [] [1])).
  - split; [done|].
    apply (proj2 (q_posterior_mean_variance_shapes gd [[[1%R]]] [[[3%R]]] [1])
             pm pv plv Hq).
Defined.

Lemma q_posterior_at_zero_witness :
  exists gd pm pv plv,
    GaussianDiffusion_init
      {| kw_rescale_timesteps := false; kw_annealing_time := false |}
      [Finite (1 / 2); Finite (1 / 2)] = Ok gd
    /\ q_posterior_mean_variance gd [[[1%R]]] [[[3%R]]] [0] = Ok (pm, pv, plv)
    /\ pm = [[[1%R]]].
Proof.
  destruct half_schedule_accepted as [gd Hgd].
  pose proof (GaussianDiffusion_init_inv _ _ _ Hgd) as (_ & _ & Hn & _).
  destruct (q_posterior_mean_variance_returns _ _ gd [[[1%R]]] [[[3%R]]] 0 Hgd)
    as (pm & pv & plv & Hq); [rewrite Hn; cbn; lia|done|].
  exists gd, pm, pv, plv. split; [done|]. split; [done|].
  apply (q_posterior_at_zero _ _ gd [[[1%R]]] [[[3%R]]] [0] pm pv plv Hgd);
    [|done].
  by repeat constructor.
Defined.

(** ** The last step of the deterministic transition *)

Lemma SpacedDiffusion_init_diffusion (use : gset Z) (kw : kwargs)
    (betas0 : list float64) (sd : SpacedDiffusion) :
  SpacedDiffusion_init use kw betas0 = Ok sd ->
  exists new_betas,
    GaussianDiffusion_init kw new_betas = Ok (diffusion sd).
Proof.
  unfold SpacedDiffusion_init. intros H.
  apply bind_Ok_inv in H as (base & _ & H).
  destruct (respace_loop use 0 (alphas_cumprod base) 1 [] [])
    as [new_betas tmap].
  apply bind_Ok_inv in H as (gd & Hgd & H). injection H as <-. cbn.
  by exists new_betas.
Qed.

Section TerminalStep.

Variable get_mean_and_xstart :
  list R -> Tensor -> list Z -> Tensor -> result (Tensor * Tensor).
Variable get_variance :
  list R -> Tensor -> list Z -> result (Tensor * Tensor).

Local Abbreviation p_mean_variance :=
  (SpacedDiffusion_p_mean_variance get_mean_and_xstart get_variance).
Local Abbreviation p_sample :=
  (DDIM_p_sample get_mean_and_xstart get_variance).

(** X10.  At time index 0 the deterministic step returns the predicted clean
    signal as its sample, whatever the stochasticity parameter and the noise
    draw are. *)
Theorem DDIM_p_sample_terminal (use : gset Z) (kw : kwargs)
    (betas0 : list float64) (sd : SpacedDiffusion) (model : model_t)
    (x : Tensor) (out : prediction) (eta : R) (omega : noise_source) :
  SpacedDiffusion_init use kw betas0 = Ok sd ->
  p_mean_variance sd model x [0] = Ok out ->
  p_sample sd model x [0] eta omega = Ok (pred_xstart out, pred_xstart out).
Proof.
  intros Hsd Hout.
  destruct (SpacedDiffusion_init_inv _ _ _ _ Hsd)
    as (_ & _ & _ & Hn & H2 & Hl1 & Hl2 & Hl3 & Hl4).
  destruct (SpacedDiffusion_init_diffusion _ _ _ _ Hsd) as [nb Hgd].
  destruct (cache_posterior_at_zero _ _ _ Hgd) as (_ & _ & _ & Hprev0).
  destruct (p_mean_variance_shapes _ _ _ _ _ _ _ Hout) as (_ & _ & Hpx).
  destruct (extract_and_expand_single (alphas_cumprod sd) 0 x)
    as [ab Hab]; [lia|].
  destruct (extract_and_expand_single (alphas_cumprod_prev sd) 0 x)
    as [abp Habp]; [lia|].
  destruct (extract_and_expand_single (sqrt_recip_alphas_cumprod sd) 0 x)
    as [c1 Hc1]; [lia|].
  destruct (extract_and_expand_single (sqrt_recipm1_alphas_cumprod sd) 0 x)
    as [c2 Hc2]; [lia|].
  unfold DDIM_p_sample, predict_eps_from_x_start.
  rewrite Hout. cbn [mbind result_bind].
  rewrite Hc1, Hc2. cbn [mbind result_bind].
  rewrite Hab, Habp. cbn [mbind result_bind tensor_nonzero Z.eqb negb].
  f_equal. f_equal.
  pose proof (shape_extract_and_expand _ _ _ _ Hab) as Hsab.
  pose proof (shape_extract_and_expand _ _ _ _ Habp) as Hsabp.
  pose proof (shape_extract_and_expand _ _ _ _ Hc1) as Hsc1.
  pose proof (shape_extract_and_expand _ _ _ _ Hc2) as Hsc2.
  set (eps := tdiv (tsub (tmul c1 x) (pred_xstart out)) c2).
  assert (Hseps : shape eps = shape x) by (unfold eps; solve_shape).
  apply tensor_ext.
  { transitivity (shape x); [|done]. solve_shape. }
  intros n c k u Hu.
  destruct (tget_same_shape _ x n c k u Hpx Hu) as [w Hw].
  destruct (tget_same_shape _ eps n c k w (eq_sym Hseps) Hw) as [e He].
  destruct (tget_extract_and_expand _ _ _ _ n c k w Hab Hw)
    as (i & a & _ & _ & Hga).
  destruct (tget_extract_and_expand _ _ _ _ n c k w Habp Hw)
    as (i' & p & Hi' & Hp & Hgp).
  apply (batch_time_zero [0] x n i') in Hi' as ->; [|by repeat constructor].
  apply py_index_0_inv in Hp.
  assert (p = 1%R) as -> by congruence.
  replace (Some u)
    with (Some (u * sqrt 1
                + sqrt (1 - 1 - (eta * sqrt ((1 - 1) / (1 - a))
                                 * sqrt (1 - a / 1)) ^ 2) * e)%R).
  - unfold tadd, tmul. apply tget_tzip.
    + apply tget_tzip; [done|]. by apply tget_tmap.
    + apply tget_tzip; [|done]. apply tget_tmap.
      apply (tget_tzip (fun p s => (1 - p - s ^ 2)%R)); [done|].
      apply tget_tzip.
      * apply (tget_tmap (Rmult eta)). apply tget_tmap.
        by apply (tget_tzip (fun p a => ((1 - p) / (1 - a))%R)).
      * apply tget_tmap. by apply (tget_tzip (fun a p => (1 - a / p)%R)).
  - f_equal. replace ((1 - 1) / (1 - a))%R with 0%R by (unfold Rdiv; ring).
    rewrite sqrt_0, sqrt_1.
    replace (1 - 1 - (eta * 0 * sqrt (1 - a / 1)) ^ 2)%R with 0%R by ring.
    rewrite sqrt_0. ring.
Qed.

End TerminalStep.

(** The prediction of the identity model on one one-pixel image at new
    index 0, for the steps {0, 2} of the schedule [0.5, 0.5, 0.5]. *)
Lemma identity_model_prediction_single :
  exists sd,
    SpacedDiffusion_init {[0; 2]}
      {| kw_rescale_timesteps := false; kw_annealing_time := false |}
      (map Finite [1 / 2; 1 / 2; 1 / 2]%R) = Ok sd
    /\ SpacedDiffusion_p_mean_variance
         (fun _ _ _ y => Ok (y, y)) (fun _ v _ => Ok (v, v))
         sd (Model (fun x _ => Ok x)) [[[1%R]]] [0]
       = Ok {| mean := [[[1%R]]]; variance := [[[1%R]]];
               log_variance := [[[1%R]]]; pred_xstart := [[[1%R]]] |}.
Proof.
  destruct (SpacedDiffusion_init_succeeds {[0; 2]}
              {| kw_rescale_timesteps := false; kw_annealing_time := false |}
              [1 / 2; 1 / 2; 1 / 2]%R 0 2) as [sd Hsd];
    [repeat constructor; lra|lia|set_solver|set_solver|cbn; lia|cbn; lia|].
  exists sd. split; [exact Hsd|].
  pose proof (SpacedDiffusion_init_timestep_map _ _ _ _ Hsd) as Htm.
  assert (Hmap : timestep_map sd = [0; 2]) by (rewrite Htm; by vm_compute).
  destruct (SpacedDiffusion_init_inv _ _ _ _ Hsd) as (Ho & _ & Hr & _).
  unfold SpacedDiffusion_p_mean_variance, GaussianDiffusion_p_mean_variance,
    SpacedDiffusion_scale_timesteps.
  cbn [_wrap_model call_model _WrappedModel_call].
  rewrite Hmap, Hr. reflexivity.
Qed.

Lemma DDIM_p_sample_terminal_witness :
  exists sd,
    SpacedDiffusion_init {[0; 2]}
      {| kw_rescale_timesteps := false; kw_annealing_time := false |}
      (map Finite [1 / 2; 1 / 2; 1 / 2]%R) = Ok sd
    /\ forall eta omega,
         DDIM_p_sample (fun _ _ _ y => Ok (y, y)) (fun _ v _ => Ok (v, v))
           sd (Model (fun x _ => Ok x)) [[[1%R]]] [0] eta omega
         = Ok ([[[1%R]]], [[[1%R]]]).
Proof.
  destruct identity_model_prediction_single as (sd & Hsd & Hp).
  exists sd. split; [exact Hsd|]. intros eta omega.
  exact (DDIM_p_sample_terminal _ _ _ _ _ sd _ _ _ eta omega Hsd Hp).
Defined.

(** ** Rounding *)

(** [round] moves a number by at most one half. *)
Lemma py_round_near (q : Q) :
  (inject_Z (py_round q) - (1 # 2) <= q)%Q
  /\ (q <= inject_Z (py_round q) + (1 # 2))%Q.
Proof.
  unfold py_round. pose proof (Qfloor_le q) as Hlo.
  pose proof (Qlt_floor q) as Hhi. rewrite inject_Z_plus in Hhi.
  change (inject_Z 1) with 1%Q in Hhi.
  generalize dependent (Qfloor q). intros f Hlo Hhi.
  destruct (Qcompare_spec (q - inject_Z f) (1 # 2)) as [He|Hl|Hg].
  - destruct (Z.even f); rewrite ?inject_Z_plus;
      change (inject_Z 1) with 1%Q; split; Lqa.lra.
  - split; Lqa.lra.
  - rewrite inject_Z_plus. change (inject_Z 1) with 1%Q. split; Lqa.lra.
Qed.

Lemma inject_Z_lt_inv (a b : Z) : (inject_Z a < inject_Z b)%Q -> a < b.
Proof. unfold Qlt. cbn. lia. Qed.

Lemma inject_Z_le_intro (a b : Z) : a <= b -> (inject_Z a <= inject_Z b)%Q.
Proof. unfold Qle. cbn. lia. Qed.

Lemma inject_Z_lt_succ_inv (a b : Z) :
  (inject_Z a < inject_Z b + 1)%Q -> a <= b.
Proof. unfold Qlt, Qplus. cbn. lia. Qed.

(** Rounding a number between two integers stays between them. *)
Lemma py_round_between (q : Q) (lo hi : Z) :
  (inject_Z lo <= q)%Q -> (q <= inject_Z hi)%Q ->
  lo <= py_round q <= hi.
Proof.
  intros Hlo Hhi. destruct (py_round_near q) as [H1 H2].
  split; apply inject_Z_lt_succ_inv; Lqa.lra.
Qed.

(** Numbers more than 1 apart round to different integers, in order. *)
Lemma py_round_gap (q q' : Q) :
  (q + 1 < q')%Q -> py_round q < py_round q'.
Proof.
  intros H. destruct (py_round_near q) as [H1 _].
  destruct (py_round_near q') as [_ H2'].
  apply inject_Z_lt_inv. Lqa.lra.
Qed.

(** ** Where the retained steps lie, and how many they are *)

Lemma section_stride_ge_1 (size count : Z) :
  count <= size -> (1 <= section_stride size count)%Q.
Proof.
  intros Hle. unfold section_stride.
  destruct (count <=? 1) eqn:E; [Lqa.lra|]. apply Z.leb_gt in E.
  apply Qle_shift_div_l.
  - change 0%Q with (inject_Z 0). rewrite <- Zlt_Qlt. lia.
  - rewrite Qmult_1_l. rewrite <- Zle_Qle. lia.
Qed.

Lemma section_stride_last (size count : Z) :
  1 <= count <= size ->
  (inject_Z (count - 1) * section_stride size count <= inject_Z (size - 1))%Q.
Proof.
  intros Hc. unfold section_stride.
  destruct (count <=? 1) eqn:E.
  - apply Z.leb_le in E. assert (count = 1) as -> by lia.
    change (inject_Z (1 - 1)) with 0%Q. rewrite Qmult_0_l.
    change 0%Q with (inject_Z 0). rewrite <- Zle_Qle. lia.
  - apply Z.leb_gt in E.
    assert (He : (inject_Z (count - 1)
                  * (inject_Z (size - 1) / inject_Z (count - 1))
                  == inject_Z (size - 1))%Q).
    { field. intros H0. unfold Qeq in H0. cbn in H0. lia. }
    rewrite He. apply Qle_refl.
Qed.

Lemma section_position_range (start size count i : Z) :
  0 <= i < count -> count <= size ->
  start <= section_position start size count i <= start + size - 1.
Proof.
  intros Hi Hle. unfold section_position.
  pose proof (section_stride_ge_1 size count Hle) as Hs.
  pose proof (section_stride_last size count ltac:(lia)) as Hl.
  assert (H0 : (0 <= inject_Z i)%Q).
  { change 0%Q with (inject_Z 0). rewrite <- Zle_Qle. lia. }
  assert (H1 : (inject_Z i <= inject_Z (count - 1))%Q).
  { rewrite <- Zle_Qle. lia. }
  set (s := section_stride size count) in *.
  destruct (py_round_between (inject_Z i * s) 0 (size - 1)) as [Hlo Hhi].
  - change (inject_Z 0) with 0%Q. apply Qmult_le_0_compat; [done|Lqa.lra].
  - eapply Qle_trans; [|exact Hl].
    apply Qmult_le_compat_r; [done|Lqa.lra].
  - lia.
Qed.

Lemma section_position_increasing (start size count i i' : Z) :
  0 <= i -> i < i' -> i' < count -> count <= size ->
  section_position start size count i < section_position start size count i'.
Proof.
  intros H0 Hlt Hc Hle. unfold section_position.
  destruct (Z.eq_dec size count) as [->|Hne].
  - assert (Hs : (section_stride count count == 1)%Q).
    { unfold section_stride. destruct (count <=? 1) eqn:E; [done|].
      apply Z.leb_gt in E. field. intros Hz. unfold Qeq in Hz. cbn in Hz.
      lia. }
    rewrite (py_round_comp _ (inject_Z i)) by (rewrite Hs; ring).
    rewrite (py_round_comp (inject_Z i' * _) (inject_Z i'))
      by (rewrite Hs; ring).
    rewrite !py_round_inject_Z. lia.
  - assert (Hs : (1 < section_stride size count)%Q).
    { unfold section_stride. destruct (count <=? 1) eqn:E;
        [apply Z.leb_le in E; lia|]. apply Z.leb_gt in E.
      apply Qlt_shift_div_l.
      - change 0%Q with (inject_Z 0). rewrite <- Zlt_Qlt. lia.
      - rewrite Qmult_1_l. rewrite <- Zlt_Qlt. lia. }
    set (s := section_stride size count) in *.
    assert (Hi : (inject_Z i + 1 <= inject_Z i')%Q).
    { change 1%Q with (inject_Z 1). rewrite <- inject_Z_plus, <- Zle_Qle.
      lia. }
    assert (Hm : ((inject_Z i + 1) * s <= inject_Z i' * s)%Q).
    { apply Qmult_le_compat_r; [done|Lqa.lra]. }
    assert (Hg : (inject_Z i * s + 1 < inject_Z i' * s)%Q).
    { eapply Qlt_le_trans; [|exact Hm].
      assert (He : ((inject_Z i + 1) * s == inject_Z i * s + s)%Q) by ring.
      rewrite He. Lqa.lra. }
    pose proof (py_round_gap _ _ Hg). lia.
Qed.

Lemma NoDup_section_positions (start size count : Z) :
  count <= size ->
  NoDup (map (fun k => section_position start size count (Z.of_nat k))
             (seq 0 (Z.to_nat count))).
Proof.
  intros Hle. apply (NoDup_fmap_2_strong _ (seq 0 (Z.to_nat count)));
    [|apply NoDup_seq].
  intros a b Ha%elem_of_seq Hb%elem_of_seq Heq.
  destruct (Nat.lt_trichotomy a b) as [Hlt|[->|Hlt]]; [|done|].
  - pose proof (section_position_increasing start size count
                  (Z.of_nat a) (Z.of_nat b)) as H. lia.
  - pose proof (section_position_increasing start size count
                  (Z.of_nat b) (Z.of_nat a)) as H. lia.
Qed.

Lemma section_size_nonneg_start (N n j : Z) :
  0 <= N -> 0 < n -> 0 <= j < n ->
  0 <= section_start N n j
  /\ section_start N n j + section_size N n j <= N.
Proof.
  intros HN Hn Hj. rewrite <- section_start_succ by lia.
  unfold section_start.
  pose proof (Z.div_mod N n ltac:(lia)) as Hd.
  pose proof (Z.mod_pos_bound N n Hn) as Hm.
  assert (0 <= N / n) by (apply Z.div_pos; lia).
  split; nia.
Qed.

Lemma sections_loop_Ok_sizes (N n : Z) (counts : list Z) :
  forall i start acc all,
  sections_loop i counts (N / n) (N mod n) start acc = Ok all ->
  forall (j : nat) K, counts !! j = Some K ->
                      K <= section_size N n (i + Z.of_nat j).
Proof.
  intros i start acc all Hok j K Hj.
  destruct (Z_lt_le_dec (section_size N n (i + Z.of_nat j)) K) as [Hlt|]; [|done].
  rewrite (sections_loop_oversized N n counts i start acc) in Hok; [done|].
  by exists j, K.
Qed.

(** X11.  Every retained index is an index of the original process: for
    the fixed-stride form as the code computes it, for section counts in
    exact arithmetic (a stride and a running position without rounding
    error; on Python floats a position can leave the range when a section
    has about [10 ^ 17] steps). *)
Theorem space_timesteps_within_range (N : Z) (spec : section_spec)
    (steps : gset Z) (x : Z) :
  space_timesteps N spec = Ok steps -> x ∈ steps -> 0 <= x < N.
Proof.
  destruct spec as [K|counts]; unfold space_timesteps.
  - unfold py_range. intros Hs Hx.
    destruct (ddim_search_cases N K (Z.to_nat (N - 1)) 1)
      as [[Hr _]|(s0 & Hs0 & _ & _ & Hr)]; rewrite Hr in Hs; [done|].
    injection Hs as <-. rewrite elem_of_list_to_set in Hx.
    apply elem_of_py_range0 in Hx as (k & Hk & -> & Hlt); [|lia]. nia.
  - set (n := Z.of_nat (length counts)).
    destruct (n =? 0) eqn:En; [done|]. apply Z.eqb_neq in En.
    intros Hs Hx. apply bind_Ok_inv in Hs as (all & Hall & Hs).
    injection Hs as <-. rewrite elem_of_list_to_set in Hx.
    pose proof (sections_loop_Ok_sizes N n counts 0 0 [] all Hall) as Hsz.
    destruct (sections_loop_ok N n counts 0 0 []) as (taken & Hr & Hin);
      [lia| |by intros j K Hj; apply Hsz|].
    { unfold section_start.
      pose proof (Z.mod_pos_bound N n ltac:(lia)). lia. }
    rewrite Hr in Hall. injection Hall as <-. cbn in Hx.
    apply Hin in Hx as (j & K & i & Hj & Hi & ->).
    pose proof (Hsz j K Hj) as HK. rewrite !Z.add_0_l in *.
    pose proof (lookup_lt_Some _ _ _ Hj) as Hjn.
    pose proof (section_position_range
                  (section_start N n (Z.of_nat j))
                  (section_size N n (Z.of_nat j)) K i Hi HK) as Hp.
    assert (HN : 0 <= N).
    { destruct (Z_lt_le_dec N 0) as [Hneg|]; [|done].
      assert (N / n < 0) by (apply Z.div_lt_upper_bound; lia).
      unfold section_size in HK.
      destruct (Z.of_nat j <? N mod n); lia. }
    destruct (section_size_nonneg_start N n (Z.of_nat j) HN) as [H0 H1];
      [lia|lia|]. lia.
Qed.

Lemma space_timesteps_within_range_witness :
  exists steps : gset Z,
    space_timesteps 11 (Counts [3; 2]) = Ok steps
    /\ forall x, x ∈ steps -> 0 <= x < 11.
Proof.
  exists (list_to_set [0; 2; 5; 6; 10]). split; [reflexivity|].
  intros x Hx.
  exact (space_timesteps_within_range 11 (Counts [3; 2])
           (list_to_set [0; 2; 5; 6; 10]) x eq_refl Hx).
Defined.

Lemma sections_loop_distinct (N n : Z) (counts : list Z) :
  forall i start acc,
  0 <= i -> start = section_start N n i ->
  (forall (j : nat) K, counts !! j = Some K ->
                       0 <= K <= section_size N n (i + Z.of_nat j)) ->
  NoDup acc -> (forall x, x ∈ acc -> x < start) ->
  exists all,
    sections_loop i counts (N / n) (N mod n) start acc = Ok all
    /\ NoDup all
    /\ Z.of_nat (length all)
       = Z.of_nat (length acc) + foldr Z.add 0 counts.
Proof.
  induction counts as [|c rest IH]; intros i start acc Hi Hstart Hle Hnd Hlt.
  - exists acc. cbn. split; [done|]. split; [done|]. lia.
  - cbn [sections_loop]. fold (section_size N n i).
    pose proof (Hle 0%nat c eq_refl) as Hc. rewrite Z.add_0_r in Hc.
    rewrite (section_steps_ok _ _ _ (proj2 Hc)). cbn [mbind result_bind].
    set (taken := map (fun k => section_position start
                                  (section_size N n i) c (Z.of_nat k))
                      (seq 0 (Z.to_nat c))).
    assert (Htaken : forall x, x ∈ taken ->
               start <= x <= start + section_size N n i - 1).
    { intros x Hx. apply elem_of_section_positions in Hx as (k & Hk & ->).
      apply section_position_range; lia. }
    destruct (IH (i + 1) (start + section_size N n i) (acc ++ taken))
      as (all & Hr & Hnd' & Hlen).
    + lia.
    + rewrite section_start_succ by lia. lia.
    + intros j K Hj.
      replace (i + 1 + Z.of_nat j) with (i + Z.of_nat (S j)) by lia.
      by apply Hle.
    + apply NoDup_app. split; [done|]. split.
      * intros x Hx Hx'. specialize (Hlt x Hx). specialize (Htaken x Hx').
        lia.
      * apply NoDup_section_positions. lia.
    + intros x [Hx|Hx]%elem_of_app.
      * specialize (Hlt x Hx). lia.
      * specialize (Htaken x Hx). lia.
    + exists all. split; [done|]. split; [done|].
      rewrite Hlen, length_app. unfold taken.
      rewrite length_map, length_seq. cbn [foldr]. lia.
Qed.

(** X12.  In exact arithmetic (a stride and a running position without
    rounding error): when every section asks for at most its size (and for
    no negative count), the retained steps are as many as were requested in
    total: no two requests fall on the same step. *)
Theorem space_timesteps_sections_count (N : Z) (counts : list Z) :
  let n := Z.of_nat (length counts) in
  counts <> [] ->
  (forall (j : nat) K, counts !! j = Some K ->
                       0 <= K <= section_size N n (Z.of_nat j)) ->
  exists steps : gset Z,
    space_timesteps N (Counts counts) = Ok steps
    /\ Z.of_nat (size steps) = foldr Z.add 0 counts.
Proof.
  intros n Hne Hle. unfold space_timesteps. fold n.
  destruct (n =? 0) eqn:En.
  { apply Z.eqb_eq in En. destruct counts; [done|]. subst n. cbn in En. lia. }
  apply Z.eqb_neq in En.
  destruct (sections_loop_distinct N n counts 0 0 [])
    as (all & Hr & Hnd & Hlen).
  - lia.
  - unfold section_start. pose proof (Z.mod_pos_bound N n ltac:(lia)). lia.
  - intros j K Hj. rewrite Z.add_0_l. by apply Hle.
  - constructor.
  - by intros x Hx%elem_of_nil.
  - rewrite Hr. cbn [mbind result_bind]. eexists. split; [done|].
    rewrite size_list_to_set by done. cbn in Hlen. lia.
Qed.

Lemma space_timesteps_sections_count_witness :
  exists steps : gset Z,
    space_timesteps 300 (Counts [10; 15; 20]) = Ok steps
    /\ Z.of_nat (size steps) = 45.
Proof.
  apply (space_timesteps_sections_count 300 [10; 15; 20]); [done|].
  intros [|[|[|j]]] K Hj; try done; injection Hj as <-; by vm_compute.
Defined.

(** ** Respacing that keeps every step *)

Lemma space_timesteps_one_section (N : Z) :
  1 <= N ->
  space_timesteps N (Counts [N]) = Ok (list_to_set (py_range 0 N)).
Proof.
  intros HN. unfold space_timesteps. cbn [length Z.of_nat Z.eqb Pos.of_succ_nat].
  change (Z.of_nat 1) with 1. cbn [Z.eqb].
  rewrite Z.div_1_r, Z.mod_1_r. cbn [sections_loop Z.ltb Z.compare].
  rewrite Z.add_0_r, section_steps_ok by lia. cbn [mbind result_bind app].
  f_equal. f_equal. unfold py_range. rewrite Z.sub_0_r.
  apply map_ext. intros k. unfold section_position.
  rewrite (py_round_comp _ (inject_Z (Z.of_nat k))).
  - rewrite py_round_inject_Z. lia.
  - unfold section_stride. destruct (N <=? 1) eqn:E; [ring|].
    apply Z.leb_gt in E. field. intros H0. unfold Qeq in H0. cbn in H0. lia.
Qed.

(** X13.  Keeping every step of a process of [N >= 1] steps: a single section
    that asks for all [N] steps retains exactly the indices 0, ..., N - 1. *)
Theorem space_timesteps_all_steps (N : Z) (x : Z) :
  1 <= N ->
  exists steps : gset Z,
    space_timesteps N (Counts [N]) = Ok steps
    /\ (x ∈ steps <-> 0 <= x < N)
    /\ Z.of_nat (size steps) = N.
Proof.
  intros HN. rewrite space_timesteps_one_section by done.
  eexists. split; [done|]. split.
  - rewrite elem_of_list_to_set. unfold py_range.
    rewrite list_elem_of_fmap. split.
    + intros (k & -> & Hk%elem_of_seq). lia.
    + intros Hx. exists (Z.to_nat x). split; [lia|]. apply elem_of_seq. lia.
  - rewrite size_list_to_set.
    + unfold py_range. rewrite length_map, length_seq. lia.
    + unfold py_range. apply NoDup_fmap_2; [|apply NoDup_seq].
      intros a b Hab. lia.
Qed.

Lemma space_timesteps_all_steps_witness :
  exists steps : gset Z,
    space_timesteps 1000 (Counts [1000]) = Ok steps
    /\ (999 ∈ steps <-> 0 <= 999 < 1000)
    /\ Z.of_nat (size steps) = 1000.
Proof. apply (space_timesteps_all_steps 1000 999). lia. Defined.

Lemma filter_Forall_id {A} (P : A -> Prop) `{!forall x, Decision (P x)}
    (l : list A) :
  Forall P l -> filter P l = l.
Proof.
  induction 1 as [|x l Hx _ IH]; [done|].
  rewrite filter_cons_True by done. by rewrite IH.
Qed.

Lemma respace_loop_all (use : gset Z) (bs : list R) : forall i last,
  (forall j, i <= j < i + Z.of_nat (length bs) -> j ∈ use) ->
  forallb beta_in_range
    (respace_loop use i (cumprod_from last (map (fun b => (1 - b)%R) bs))
                  last [] []).1 = true ->
  map finite_value
    (respace_loop use i (cumprod_from last (map (fun b => (1 - b)%R) bs))
                  last [] []).1 = bs.
Proof.
  induction bs as [|b bs IH]; intros i last Hall Hrange; [done|].
  cbn [map cumprod_from respace_loop] in *.
  rewrite bool_decide_true in * by (apply Hall; cbn; lia).
  rewrite respace_loop_acc in *. cbn [fst app map forallb] in *.
  apply andb_true_iff in Hrange as [Hb Hrange].
  destruct (beta_in_range_one_minus_div _ _ Hb) as [Hlast ->].
  cbn [finite_value]. f_equal; [by field|].
  apply IH; [|done]. intros j Hj. apply Hall. cbn [length]. lia.
Qed.

Lemma get_named_beta_schedule_length (schedule_name : string) (N : Z)
    (betas0 : list float64) :
  get_named_beta_schedule schedule_name N = Ok betas0 ->
  length betas0 = Z.to_nat N.
Proof.
  unfold get_named_beta_schedule.
  destruct (String.eqb schedule_name "linear").
  - destruct (N =? 0) eqn:E0; [done|]. destruct (N <? 0) eqn:E1; [done|].
    intros [= <-]. rewrite length_map. unfold linspace.
    destruct (N =? 1) eqn:E2.
    + apply Z.eqb_eq in E2. by subst N.
    + by rewrite length_map, length_seq.
  - destruct (String.eqb schedule_name "cosine"); [|done].
    unfold betas_for_alpha_bar. intros Hm%mapM_Ok_1.
    apply Forall2_length in Hm. rewrite <- Hm. unfold py_range.
    rewrite length_map, length_seq. f_equal. lia.
Qed.

Lemma SpacedDiffusion_init_betas (use : gset Z) (kw : kwargs)
    (betas0 : list float64) (sd : SpacedDiffusion) :
  SpacedDiffusion_init use kw betas0 = Ok sd ->
  (forall j, 0 <= j < Z.of_nat (length betas0) -> j ∈ use) ->
  betas sd = map finite_value betas0.
Proof.
  unfold SpacedDiffusion_init. intros H Hall.
  apply bind_Ok_inv in H as (base & Hbase & H).
  apply GaussianDiffusion_init_inv in Hbase as (_ & _ & _ & _ & _ & Hcp & _).
  rewrite Hcp in H. unfold cumprod in H.
  pose proof (respace_loop_all use (map finite_value betas0) 0 1%R) as Hid.
  rewrite length_map in Hid.
  destruct (respace_loop use 0 _ 1 [] []) as [new_betas tmap].
  apply bind_Ok_inv in H as (gd & Hgd & H). injection H as <-. cbn.
  apply GaussianDiffusion_init_inv in Hgd as (Hrange & -> & _).
  apply Hid; [|done]. intros j Hj. apply Hall. lia.
Qed.

(** X14.  Respacing that retains every step changes nothing: the time-step
    map of the respaced process is the identity, it has as many steps as the
    original schedule and, in exact arithmetic, the variances of the
    original schedule (the code recomputes them as
    [1 - cumprod[i] / cumprod[i - 1]], which in float64 differs from the
    original variance by rounding). *)
Theorem respacing_all_steps_identity (use : gset Z) (kw : kwargs)
    (betas0 : list float64) (sd : SpacedDiffusion) :
  SpacedDiffusion_init use kw betas0 = Ok sd ->
  (forall j, 0 <= j < Z.of_nat (length betas0) -> j ∈ use) ->
  betas sd = map finite_value betas0
  /\ timestep_map sd = py_range 0 (Z.of_nat (length betas0))
  /\ num_timesteps sd = original_num_steps sd.
Proof.
  intros H Hall.
  pose proof (SpacedDiffusion_init_timestep_map _ _ _ _ H) as Htm.
  assert (Hmap : timestep_map sd = py_range 0 (Z.of_nat (length betas0))).
  { rewrite Htm. apply filter_Forall_id. apply Forall_forall. intros j Hj.
    apply Hall. unfold py_range in Hj.
    apply list_elem_of_fmap in Hj as (k & -> & Hk%elem_of_seq). lia. }
  split; [by apply (SpacedDiffusion_init_betas use kw)|]. split; [done|].
  destruct (SpacedDiffusion_init_inv _ _ _ _ H) as (Ho & _ & _ & Hn & _).
  rewrite Hn, Ho, Hmap. unfold py_range.
  rewrite length_map, length_seq. lia.
Qed.

Lemma respacing_all_steps_identity_witness :
  exists sd,
    SpacedDiffusion_init {[0; 1; 2]}
      {| kw_rescale_timesteps := false; kw_annealing_time := false |}
      (map Finite [1 / 2; 1 / 2; 1 / 2]%R) = Ok sd
    /\ betas sd = [1 / 2; 1 / 2; 1 / 2]%R
    /\ timestep_map sd = [0; 1; 2].
Proof.
  destruct (SpacedDiffusion_init_succeeds {[0; 1; 2]}
              {| kw_rescale_timesteps := false; kw_annealing_time := false |}
              [1 / 2; 1 / 2; 1 / 2]%R 0 2) as [sd Hsd];
    [repeat constructor; lra|lia|set_solver|set_solver|cbn; lia|cbn; lia|].
  exists sd. split; [exact Hsd|].
  destruct (respacing_all_steps_identity _ _ _ sd Hsd) as (Hb & Hm & _).
  - cbn. intros j Hj.
    assert (j = 0 \/ j = 1 \/ j = 2) as [->|[->| ->]] by lia; set_solver.
  - split; [exact Hb|exact Hm].
Defined.

(** ** The sampler registry *)

(** X15.  A name is registered at most once, and what is registered under a name
    is what [get_sampler] returns: registration fails with [NameError]
    exactly on a name already present; after a registration the name gives
    back the class, every other name gives what it gave before, and a
    second registration of the name fails. *)
Theorem register_then_get (C : Type) (name : string) (cls : C)
    (registry : gmap string C) :
  (register_sampler C name cls registry = RaiseNameError
   <-> is_Some (registry !! name))
  /\ (get_sampler C name registry = RaiseNameError
      <-> registry !! name = None)
  /\ forall registry',
       register_sampler C name cls registry = Registered registry' ->
       get_sampler C name registry' = Registered cls
       /\ (forall other, other <> name ->
             get_sampler C other registry' = get_sampler C other registry)
       /\ forall cls', register_sampler C name cls' registry'
                       = RaiseNameError.
Proof.
  unfold register_sampler, get_sampler. split; [|split].
  - destruct (registry !! name) as [c|] eqn:E; split; intros H;
      first [done|by eexists|by destruct H].
  - destruct (registry !! name) as [c|] eqn:E; split; done.
  - intros registry'. destruct (registry !! name) as [c|] eqn:E; [done|].
    intros [= <-]. rewrite lookup_insert_eq. split; [done|]. split; [|done].
    intros other Hne. by rewrite lookup_insert_ne.
Qed.

Lemma register_then_get_witness :
  exists registry,
    __SAMPLER__ = Registered registry
    /\ get_sampler sampler "ddpm" registry = Registered DDPM
    /\ get_sampler sampler "ddim" registry = Registered DDIM
    /\ get_sampler sampler "dpm" registry = RaiseNameError
    /\ register_sampler sampler "ddim" DDPM registry = RaiseNameError.
Proof.
  eexists. split; [reflexivity|].
  destruct (register_then_get sampler "ddim" DDIM
              {["ddpm"%string := DDPM]})
    as (_ & _ & Hreg).
  destruct (Hreg _ eq_refl) as (Hget & Hother & Hagain).
  split; [by rewrite Hother|]. split; [exact Hget|].
  split; [by rewrite Hother|]. apply Hagain.
Defined.

(** ** The sampler factory *)

Lemma linear_entry_below_one (n m k : R) :
  (20 < n)%R -> m = (n - 1)%R -> (0 <= k <= m)%R ->
  (0 < 1000 / n * 0.0001
       + k * ((1000 / n * 0.02 - 1000 / n * 0.0001) / m) < 1)%R.
Proof.
  intros Hn Hm Hk.
  assert (Hs : (1000 / n * 0.0001 = 1 / (10 * n))%R).
  { replace 0.0001%R with (1 / 10000)%R by lra. field. lra. }
  assert (He : (1000 / n * 0.02 = 20 / n)%R).
  { replace 0.02%R with (2 / 100)%R by lra. field. lra. }
  rewrite Hs, He.
  assert (Hpos : (0 < 1 / (10 * n))%R).
  { apply Rdiv_lt_0_compat; lra. }
  assert (Hle : (20 / n < 1)%R).
  { apply (Rmult_lt_reg_r n); [lra|].
    replace (20 / n * n)%R with 20%R by (field; lra). lra. }
  assert (Hd : (0 <= (20 / n - 1 / (10 * n)) / m)%R).
  { apply Rle_mult_inv_pos; [|lra].
    replace (20 / n - 1 / (10 * n))%R with (199 / (10 * n))%R by (field; lra).
    apply Rlt_le, Rdiv_lt_0_compat; lra. }
  set (d := ((20 / n - 1 / (10 * n)) / m)%R) in *.
  assert (Hmd : (m * d = 20 / n - 1 / (10 * n))%R) by (unfold d; field; lra).
  split; nra.
Qed.

Lemma linear_schedule_below_one (N : Z) :
  21 <= N ->
  exists bs, get_named_beta_schedule "linear" N = Ok (map Finite bs)
             /\ length bs = Z.to_nat N
             /\ Forall (fun b => 0 < b < 1)%R bs.
Proof.
  intros HN. rewrite linear_schedule_value by lia.
  rewrite <- (map_map _ Finite). eexists. split; [done|].
  split; [by rewrite length_map, length_seq|].
  apply Forall_forall. intros b Hb%list_elem_of_In%in_map_iff.
  destruct Hb as (i & <- & Hi%in_seq).
  apply (linear_entry_below_one (IZR N) (IZR (N - 1)) (INR i)).
  - apply IZR_lt. lia.
  - by rewrite minus_IZR.
  - rewrite INR_IZR_INZ. split; apply IZR_le; lia.
Qed.

Lemma create_sampler_linear_returns (C : Type) (registry : gmap string C)
    (name : string) (cls : C) (kw : kwargs) (N : Z) :
  21 <= N -> registry !! name = Some cls ->
  exists sd, create_sampler C registry name N "linear" kw (Counts [])
             = Registered (Ok (cls, sd)).
Proof.
  intros HN Hreg. unfold create_sampler, get_sampler. rewrite Hreg.
  destruct (linear_schedule_below_one N HN) as (bs & -> & Hlen & Hbs).
  cbn [mbind result_bind]. rewrite space_timesteps_one_section by lia.
  cbn [mbind result_bind].
  destruct (SpacedDiffusion_init_succeeds (list_to_set (py_range 0 N)) kw
              bs 0 1 Hbs) as [sd Hsd]; try lia.
  - rewrite elem_of_list_to_set. unfold py_range. apply list_elem_of_fmap.
    exists 0%nat. split; [lia|]. apply elem_of_seq. lia.
  - rewrite elem_of_list_to_set. unfold py_range. apply list_elem_of_fmap.
    exists 1%nat. split; [lia|]. apply elem_of_seq. lia.
  - rewrite Hsd. cbn. eauto.
Qed.

(** X16.  The factory looks the sampler up first, so an unknown sampler name
    fails with [NameError] whatever the other arguments are.  With
    the default (empty) respacing it builds a process that keeps every
    step: as many steps as asked for, the identity as time-step map and, in
    exact arithmetic, the variances of the named schedule (in float64 the
    recomputed variances differ from them by rounding). *)
Theorem create_sampler_default (C : Type) (registry : gmap string C)
    (name : string) (steps : Z) (noise_schedule : string) (kw : kwargs) :
  (registry !! name = None ->
   forall respacing,
     create_sampler C registry name steps noise_schedule kw respacing
     = RaiseNameError)
  /\ forall cls sd,
       create_sampler C registry name steps noise_schedule kw (Counts [])
       = Registered (Ok (cls, sd)) ->
       registry !! name = Some cls
       /\ exists betas0,
            get_named_beta_schedule noise_schedule steps = Ok betas0
            /\ betas sd = map finite_value betas0
            /\ timestep_map sd = py_range 0 steps
            /\ num_timesteps sd = steps.
Proof.
  unfold create_sampler, get_sampler. split.
  - intros Hnone respacing. by rewrite Hnone.
  - intros cls sd H. destruct (registry !! name) as [c|] eqn:E; [|done].
    injection H as H.
    apply bind_Ok_inv in H as (betas0 & Hb & H).
    apply bind_Ok_inv in H as (use & Huse & H).
    apply bind_Ok_inv in H as (sd' & Hsd & H). injection H as <- <-.
    split; [done|]. exists betas0. split; [done|].
    pose proof (get_named_beta_schedule_length _ _ _ Hb) as Hlen.
    destruct (SpacedDiffusion_init_inv _ _ _ _ Hsd)
      as (_ & H2 & _ & Hn & _).
    assert (Hsteps : Z.of_nat (length betas0) = steps) by lia.
    change (space_timesteps steps (Counts [steps]) = Ok use) in Huse.
    rewrite space_timesteps_one_section in Huse by lia.
    injection Huse as <-.
    assert (Hall : forall j, 0 <= j < Z.of_nat (length betas0) ->
                             j ∈ (list_to_set (py_range 0 steps) : gset Z)).
    { intros j Hj. rewrite elem_of_list_to_set. unfold py_range.
      apply list_elem_of_fmap. exists (Z.to_nat j). split; [lia|].
      apply elem_of_seq. lia. }
    assert (Hmap : timestep_map sd' = py_range 0 steps).
    { rewrite (SpacedDiffusion_init_timestep_map _ _ _ _ Hsd), Hsteps.
      apply filter_Forall_id. apply Forall_forall. intros j Hj.
      by rewrite elem_of_list_to_set. }
    split; [exact (SpacedDiffusion_init_betas _ kw _ _ Hsd Hall)|].
    split; [done|].
    rewrite Hn, Hmap. unfold py_range. rewrite length_map, length_seq. lia.
Qed.

Lemma create_sampler_default_witness :
  exists registry sd,
    __SAMPLER__ = Registered registry
    /\ create_sampler sampler registry "ddim" 1000 "linear"
         {| kw_rescale_timesteps := false; kw_annealing_time := false |}
         (Counts []) = Registered (Ok (DDIM, sd))
    /\ num_timesteps sd = 1000
    /\ create_sampler sampler registry "dpm" 1000 "linear"
         {| kw_rescale_timesteps := false; kw_annealing_time := false |}
         (Ddim 50) = RaiseNameError.
Proof.
  destruct (create_sampler_linear_returns sampler
              (<["ddim"%string := DDIM]> (<["ddpm"%string := DDPM]> ∅))
              "ddim" DDIM
              {| kw_rescale_timesteps := false; kw_annealing_time := false |}
              1000) as [sd Hsd]; [lia|done|].
  exists (<["ddim"%string := DDIM]> (<["ddpm"%string := DDPM]> ∅)), sd.
  split; [reflexivity|]. split; [exact Hsd|].
  destruct (create_sampler_default sampler
              (<["ddim"%string := DDIM]> (<["ddpm"%string := DDPM]> ∅))
              "ddim" 1000 "linear"
              {| kw_rescale_timesteps := false; kw_annealing_time := false |})
    as [_ Hok].
  destruct (Hok DDIM sd Hsd) as (_ & betas0 & _ & _ & _ & Hn).
  split; [exact Hn|].
  exact (proj1 (create_sampler_default sampler
                  (<["ddim"%string := DDIM]> (<["ddpm"%string := DDPM]> ∅))
                  "dpm" 1000 "linear"
                  {| kw_rescale_timesteps := false;
                     kw_annealing_time := false |})
               eq_refl (Ddim 50)).
Defined.

(** ** Index errors of the schedule lookup *)

(** An index is accepted exactly when it lies in [-n, n); any other index
    raises [IndexError]. *)
Lemma py_index_cases {A} (l : list A) (i : Z) :
  (- Z.of_nat (length l) <= i < Z.of_nat (length l) ->
   exists a, py_index l i = Ok a)
  /\ (~ (- Z.of_nat (length l) <= i < Z.of_nat (length l)) ->
      py_index l i = Raise IndexError).
Proof.
  unfold py_index.
  set (j := if i <? 0 then i + Z.of_nat (length l) else i).
  assert (Hj : (i < 0 /\ j = i + Z.of_nat (length l)) \/ (0 <= i /\ j = i)).
  { unfold j. destruct (i <? 0) eqn:E.
    - apply Z.ltb_lt in E. left. lia.
    - apply Z.ltb_ge in E. right. lia. }
  clearbody j. split.
  - intros Hi.
    destruct (j <? 0) eqn:E1; [apply Z.ltb_lt in E1; lia|]. cbn [orb].
    destruct (Z.of_nat (length l) <=? j) eqn:E2; [apply Z.leb_le in E2; lia|].
    apply Z.leb_gt in E2. apply Z.ltb_ge in E1.
    destruct (lookup_lt_is_Some_2 l (Z.to_nat j)) as [a Ha]; [lia|].
    exists a. by rewrite Ha.
  - intros Hi.
    destruct (j <? 0) eqn:E1; [done|]. cbn [orb].
    destruct (Z.of_nat (length l) <=? j) eqn:E2; [done|].
    apply Z.leb_gt in E2. apply Z.ltb_ge in E1. lia.
Qed.

Lemma mapM_py_index_out_of_range {A} (l : list A) (t : list Z) :
  Exists (fun i => ~ (- Z.of_nat (length l) <= i < Z.of_nat (length l))) t ->
  mapM (py_index l) t = Raise IndexError.
Proof.
  induction t as [|i t IH]; intros Hex; [by apply Exists_nil in Hex|].
  cbn [mapM].
  destruct (decide (- Z.of_nat (length l) <= i < Z.of_nat (length l)))
    as [Hi|Hi].
  - destruct (proj1 (py_index_cases l i) Hi) as [a Ha]. rewrite Ha.
    cbn [mbind result_bind]. rewrite IH; [done|].
    apply Exists_cons in Hex as [Hex|Hex]; [done|exact Hex].
  - by rewrite (proj2 (py_index_cases l i) Hi).
Qed.

Lemma mapM_py_index_signed {A} (l : list A) (t : list Z) :
  Forall (fun i => - Z.of_nat (length l) <= i < Z.of_nat (length l)) t ->
  exists vs, mapM (py_index l) t = Ok vs /\ length vs = length t.
Proof.
  induction 1 as [|i t Hi _ (vs & Hvs & Hlen)]; [by exists []|].
  destruct (proj1 (py_index_cases l i) Hi) as [a Ha].
  exists (a :: vs). cbn [mapM]. rewrite Ha. cbn [mbind result_bind].
  rewrite Hvs. cbn. by rewrite Hlen.
Qed.

(** X19.  The three outcomes of the schedule lookup.  A time index outside
    [-n, n), for an array of [n] entries, raises [IndexError]; with every
    index inside, a time tensor that has neither one entry per batch element
    nor a single entry cannot be broadcast and raises [RuntimeError];
    otherwise the lookup returns a tensor of the shape of its target. *)
Theorem extract_and_expand_outcome (array : list R) (time : list Z)
    (target : Tensor) :
  (Exists (fun i => ~ (- Z.of_nat (length array) <= i
                       < Z.of_nat (length array))) time ->
   extract_and_expand array time target = Raise IndexError)
  /\ (Forall (fun i => - Z.of_nat (length array) <= i
                       < Z.of_nat (length array)) time ->
      (length time <> length target /\ length time <> 1%nat ->
       extract_and_expand array time target = Raise RuntimeError)
      /\ (length time = length target \/ length time = 1%nat ->
          exists y, extract_and_expand array time target = Ok y
                    /\ shape y = shape target)).
Proof.
  split.
  - intros Hex. unfold extract_and_expand.
    by rewrite (mapM_py_index_out_of_range _ _ Hex).
  - intros Hall.
    destruct (mapM_py_index_signed array time Hall) as (vs & Hvs & Hlen).
    split.
    + intros [Hne H1]. unfold extract_and_expand. rewrite Hvs.
      cbn [mbind result_bind]. rewrite bool_decide_false by congruence.
      destruct vs as [|v [|v' vs]]; cbn in Hlen; first [done|congruence].
    + intros Hcase.
      assert (exists y, extract_and_expand array time target = Ok y)
        as [y Hy].
      { unfold extract_and_expand. rewrite Hvs. cbn [mbind result_bind].
        case_bool_decide as Hl; [by eexists|].
        destruct Hcase as [Hcase|Hcase]; [congruence|].
        destruct vs as [|v [|v' vs]]; cbn in Hlen; try congruence.
        by eexists. }
      exists y. split; [done|]. by apply shape_extract_and_expand in Hy.
Qed.

Lemma extract_and_expand_outcome_witness :
  extract_and_expand [1; 2]%R [0; 2] [[[0%R]]; [[0%R]]] = Raise IndexError
  /\ extract_and_expand [1; 2]%R [0; 1] [[[0%R]]; [[0%R]]; [[0%R]]]
     = Raise RuntimeError
  /\ exists y, extract_and_expand [1; 2]%R [-1] [[[0%R]]; [[0%R]]] = Ok y
               /\ shape y = shape [[[0%R]]; [[0%R]]].
Proof.
  split; [|split].
  - apply (proj1 (extract_and_expand_outcome [1; 2]%R [0; 2]
                    [[[0%R]]; [[0%R]]])).
    apply Exists_cons_tl, Exists_cons_hd. cbn. lia.
  - apply (proj1 (proj2 (extract_and_expand_outcome [1; 2]%R [0; 1]
                           [[[0%R]]; [[0%R]]; [[0%R]]])
                        ltac:(repeat constructor; cbn; lia))).
    cbn. split; lia.
  - apply (proj2 (proj2 (extract_and_expand_outcome [1; 2]%R [-1]
                           [[[0%R]]; [[0%R]]])
                        ltac:(repeat constructor; cbn; lia))).
    by right.
Defined.

Section IndexErrors.

Variable get_mean_and_xstart :
  list R -> Tensor -> list Z -> Tensor -> result (Tensor * Tensor).
Variable get_variance :
  list R -> Tensor -> list Z -> result (Tensor * Tensor).

(** X20.  A step index outside the respaced range [-T, T), for [T] retained
    steps, never reaches the model: the remapping raises [IndexError], and
    so do the prediction and both sampling steps built on it. *)
Theorem respaced_index_out_of_range (use : gset Z) (kw : kwargs)
    (betas0 : list float64) (sd : SpacedDiffusion) (f : callable)
    (x : Tensor) (t : list Z) :
  SpacedDiffusion_init use kw betas0 = Ok sd ->
  Exists (fun i => ~ (- num_timesteps sd <= i < num_timesteps sd)) t ->
  SpacedDiffusion_p_mean_variance get_mean_and_xstart get_variance
    sd (Model f) x t = Raise IndexError
  /\ (forall omega,
        DDPM_p_sample get_mean_and_xstart get_variance sd (Model f) x t omega
        = Raise IndexError)
  /\ (forall eta omega,
        DDIM_p_sample get_mean_and_xstart get_variance sd (Model f) x t
          eta omega = Raise IndexError).
Proof.
  intros Hsd Hex.
  destruct (SpacedDiffusion_init_inv _ _ _ _ Hsd) as (_ & _ & _ & Hn & _).
  assert (Hp : SpacedDiffusion_p_mean_variance get_mean_and_xstart
                 get_variance sd (Model f) x t = Raise IndexError).
  { unfold SpacedDiffusion_p_mean_variance, GaussianDiffusion_p_mean_variance,
      SpacedDiffusion_scale_timesteps.
    cbn [_wrap_model call_model _WrappedModel_call].
    rewrite mapM_py_index_out_of_range; [done|].
    by rewrite <- Hn. }
  split; [exact Hp|]. split.
  - intros omega. unfold DDPM_p_sample. by rewrite Hp.
  - intros eta omega. unfold DDIM_p_sample. by rewrite Hp.
Qed.

(** X21.  The deterministic step tests [t != 0] on the whole time tensor: with
    two or more entries the test has no truth value, so the step raises
    whatever the model and the processors return. *)
Theorem DDIM_p_sample_batch_rejected (sd : SpacedDiffusion)
    (model : model_t) (x : Tensor) (t : list Z) (eta : R)
    (omega : noise_source) :
  (2 <= length t)%nat ->
  exists e,
    DDIM_p_sample get_mean_and_xstart get_variance sd model x t eta omega
    = Raise e.
Proof.
  intros Ht. unfold DDIM_p_sample.
  destruct (SpacedDiffusion_p_mean_variance _ _ sd model x t) as [out|e];
    [|by exists e].
  cbn [mbind result_bind].
  destruct (predict_eps_from_x_start sd x t (pred_xstart out)) as [eps|e];
    [|by exists e].
  cbn [mbind result_bind].
  destruct (extract_and_expand (alphas_cumprod sd) t x) as [ab|e];
    [|by exists e].
  cbn [mbind result_bind].
  destruct (extract_and_expand (alphas_cumprod_prev sd) t x) as [abp|e];
    [|by exists e].
  cbn [mbind result_bind].
  destruct t as [|t0 [|t1 t]]; cbn in Ht; try lia.
  by exists RuntimeError.
Qed.

End IndexErrors.

Lemma respaced_index_out_of_range_witness :
  exists sd,
    SpacedDiffusion_init {[0; 2]}
      {| kw_rescale_timesteps := false; kw_annealing_time := false |}
      (map Finite [1 / 2; 1 / 2; 1 / 2]%R) = Ok sd
    /\ SpacedDiffusion_p_mean_variance
         (fun _ _ _ y => Ok (y, y)) (fun _ v _ => Ok (v, v))
         sd (Model (fun x _ => Ok x)) [[[1%R]]] [2] = Raise IndexError.
Proof.
  destruct (SpacedDiffusion_init_succeeds {[0; 2]}
              {| kw_rescale_timesteps := false; kw_annealing_time := false |}
              [1 / 2; 1 / 2; 1 / 2]%R 0 2) as [sd Hsd];
    [repeat constructor; lra|lia|set_solver|set_solver|cbn; lia|cbn; lia|].
  exists sd. split; [exact Hsd|].
  pose proof (SpacedDiffusion_init_timestep_map _ _ _ _ Hsd) as Htm.
  assert (Hmap : timestep_map sd = [0; 2]) by (rewrite Htm; by vm_compute).
  destruct (SpacedDiffusion_init_inv _ _ _ _ Hsd) as (_ & _ & _ & Hn & _).
  apply (respaced_index_out_of_range _ _ _ _ _ sd _ _ [2] Hsd).
  apply Exists_cons_hd. rewrite Hn, Hmap. cbn. lia.
Defined.

Lemma DDIM_p_sample_batch_rejected_witness :
  exists sd,
    SpacedDiffusion_init {[0; 2]}
      {| kw_rescale_timesteps := false; kw_annealing_time := false |}
      (map Finite [1 / 2; 1 / 2; 1 / 2]%R) = Ok sd
    /\ exists e,
         DDIM_p_sample (fun _ _ _ y => Ok (y, y)) (fun _ v _ => Ok (v, v))
           sd (Model (fun x _ => Ok x)) [[[1%R]]; [[1%R]]] [1; 1] 0
           (fun _ _ _ => 0%R) = Raise e.
Proof.
  destruct (SpacedDiffusion_init_succeeds {[0; 2]}
              {| kw_rescale_timesteps := false; kw_annealing_time := false |}
              [1 / 2; 1 / 2; 1 / 2]%R 0 2) as [sd Hsd];
    [repeat constructor; lra|lia|set_solver|set_solver|cbn; lia|cbn; lia|].
  exists sd. split; [exact Hsd|].
  apply (DDIM_p_sample_batch_rejected _ _ sd). cbn. lia.
Defined.

(** ** The time tensor of the sampling loop *)

Section LoopTimes.

Variable Aux : Type.
Variable set_alternate_length : sample_pattern -> Z -> Z -> Z.
Variable repetition :
  GaussianDiffusion -> Z -> list Z -> bool -> Z -> Z ->
  Tensor * Aux -> result (Tensor * Aux).

(** X22.  In linear mode the loop reads its time tensor, one entry per image, as
    a scalar: with a batch that does not hold exactly one image and at
    least one step to run, the first iteration raises before any model call,
    whatever the collaborators do. *)
Theorem p_sample_loop_batch_rejected (gd : GaussianDiffusion)
    (sp : sample_pattern) (x_start : Tensor) (aux0 : Aux) :
  annealing_time gd = false ->
  1 <= num_timesteps gd ->
  length x_start <> 1%nat ->
  p_sample_loop Aux set_alternate_length repetition gd sp x_start aux0
  = Raise RuntimeError.
Proof.
  intros Hlin Hn Hb. unfold p_sample_loop, loop_indices. rewrite Z.mul_1_l.
  rewrite <- (Z2Nat.id (num_timesteps gd)) by lia. rewrite rev_py_range.
  destruct (Z.to_nat (num_timesteps gd)) as [|m] eqn:E; [lia|].
  cbn [seq map for_each]. unfold loop_body. rewrite Hlin. cbn [img].
  by destruct (length x_start) as [|[|b]].
Qed.

End LoopTimes.

Lemma p_sample_loop_batch_rejected_witness :
  exists gd,
    GaussianDiffusion_init
      {| kw_rescale_timesteps := false; kw_annealing_time := false |}
      (map Finite [1 / 2; 1 / 2; 1 / 2]%R) = Ok gd
    /\ p_sample_loop unit (fun _ _ _ => 1) (fun _ _ _ _ _ _ st => Ok st) gd
         {| pattern := Some "original"%string;
            start_guidance := 0; stop_guidance := 0 |}
         [[[1%R]]; [[1%R]]] tt = Raise RuntimeError.
Proof.
  destruct (GaussianDiffusion_init_succeeds
              {| kw_rescale_timesteps := false; kw_annealing_time := false |}
              (map Finite [1 / 2; 1 / 2; 1 / 2]%R)) as [gd Hgd].
  - cbn. rewrite !bool_decide_true by lra. done.
  - cbn. lia.
  - pose proof (GaussianDiffusion_init_inv _ _ _ Hgd)
      as (_ & _ & Hn & _ & Ha & _).
    cbn in Hn, Ha. exists gd. split; [exact Hgd|].
    apply p_sample_loop_batch_rejected; [exact Ha|rewrite Hn; lia|cbn; lia].
Defined.

(** ** Named schedules *)

Lemma linear_schedule_in_range_witness :
  exists betas0, get_named_beta_schedule "linear" 20 = Ok betas0
                 /\ length betas0 = 20%nat
                 /\ forallb beta_in_range betas0 = true.
Proof. apply (linear_schedule_in_range 20). right. lia. Defined.

Lemma cosine_schedule_in_range_witness :
  exists betas0, get_named_beta_schedule "cosine" 4 = Ok betas0
                 /\ length betas0 = 4%nat
                 /\ forallb beta_in_range betas0 = true.
Proof. apply (cosine_schedule_in_range 4). lia. Defined.

(** ** Marginal of the forward process *)

Lemma py_index_map_inv {A B} (f : A -> B) (l : list A) (i : Z) (b : B) :
  py_index (map f l) i = Ok b ->
  exists (a : A) (j : nat),
    py_index l i = Ok a /\ l !! j = Some a /\ b = f a.
Proof.
  intros H. apply py_index_Ok_inv in H. cbv zeta in H.
  rewrite length_map in H. destruct H as [Hj Hb].
  apply lookup_map_Some in Hb as (a & Ha & ->).
  exists a, (Z.to_nat (if i <? 0 then i + Z.of_nat (length l) else i)).
  split; [|done]. apply py_index_Ok_intro; [lia|done].
Qed.

(** X24.  The three tensors of the forward marginal have the shape of the input
    and agree entry by entry: the variance [v] lies in (0, 1], the log
    variance is [ln v], and the mean is the input scaled by
    [sqrt (1 - v)]. *)
Theorem q_mean_variance_consistent (kw : kwargs) (betas0 : list float64)
    (gd : GaussianDiffusion) (x_start : Tensor) (t : list Z)
    (mean var logvar : Tensor) :
  GaussianDiffusion_init kw betas0 = Ok gd ->
  q_mean_variance gd x_start t = Ok (mean, var, logvar) ->
  (shape mean = shape x_start /\ shape var = shape x_start
   /\ shape logvar = shape x_start)
  /\ forall n c k u,
       tget x_start n c k = Some u ->
       exists v, tget var n c k = Some v /\ (0 < v <= 1)%R
                 /\ tget logvar n c k = Some (ln v)
                 /\ tget mean n c k = Some (sqrt (1 - v) * u)%R.
Proof.
  intros Hgd H.
  destruct (GaussianDiffusion_init_fields _ _ _ Hgd)
    as (_ & Hsqrt & _ & Hlog & _).
  unfold q_mean_variance in H. rewrite Hsqrt, Hlog in H.
  apply bind_Ok_inv in H as (coef & Hcoef & H).
  apply bind_Ok_inv in H as (var' & Hvar & H).
  apply bind_Ok_inv in H as (lv & Hlv & H).
  injection H as <- <- <-.
  pose proof (shape_extract_and_expand _ _ _ _ Hcoef) as Hs1.
  pose proof (shape_extract_and_expand _ _ _ _ Hvar) as Hs2.
  pose proof (shape_extract_and_expand _ _ _ _ Hlv) as Hs3.
  split.
  { split; [solve_shape|]. split; done. }
  intros n c k u Hu.
  destruct (tget_extract_and_expand _ _ _ _ n c k u Hcoef Hu)
    as (i1 & s & Hi1 & Hs & Hgs).
  destruct (tget_extract_and_expand _ _ _ _ n c k u Hvar Hu)
    as (i2 & v & Hi2 & Hv & Hgv).
  destruct (tget_extract_and_expand _ _ _ _ n c k u Hlv Hu)
    as (i3 & w & Hi3 & Hw & Hgw).
  assert (i2 = i1) as -> by congruence.
  assert (i3 = i1) as -> by congruence.
  apply py_index_map_inv in Hv as (a & j & Ha & Hj & ->).
  pose proof (py_index_map sqrt _ _ _ Ha) as Hs'.
  pose proof (py_index_map (fun c => ln (1 - c)) _ _ _ Ha) as Hw'.
  assert (s = sqrt a) as -> by congruence.
  assert (w = ln (1 - a)) as -> by congruence.
  pose proof (cache_cumprod_range _ _ _ _ _ Hgd Hj) as Hrange.
  exists (1 - a)%R. split; [done|]. split; [lra|]. split; [done|].
  replace (1 - (1 - a))%R with a by ring.
  unfold tmul. by apply tget_tzip.
Qed.

Lemma q_mean_variance_consistent_witness :
  exists gd mean var logvar,
    GaussianDiffusion_init
      {| kw_rescale_timesteps := false; kw_annealing_time := false |}
      (map Finite [1 / 2; 1 / 2; 1 / 2]%R) = Ok gd
    /\ q_mean_variance gd [[[1%R]]] [1] = Ok (mean, var, logvar)
    /\ shape var = shape [[[1%R]]].
Proof.
  destruct (GaussianDiffusion_init_succeeds
              {| kw_rescale_timesteps := false; kw_annealing_time := false |}
              (map Finite [1 / 2; 1 / 2; 1 / 2]%R)) as [gd Hgd].
  - cbn. rewrite !bool_decide_true by lra. done.
  - cbn. lia.
  - destruct (GaussianDiffusion_init_fields _ _ _ Hgd)
      as (_ & Hsqrt & _ & Hlog & _).
    destruct (GaussianDiffusion_init_length _ _ _ Hgd) as (_ & Hl & _).
    destruct (extract_and_expand_single (sqrt_alphas_cumprod gd) 1
                [[[1%R]]]) as [coef Hcoef].
    { rewrite Hsqrt, length_map, Hl. cbn. lia. }
    destruct (extract_and_expand_single
                (map (fun c => (1 - c)%R) (alphas_cumprod gd)) 1
                [[[1%R]]]) as [var Hvar].
    { rewrite length_map, Hl. cbn. lia. }
    destruct (extract_and_expand_single (log_one_minus_alphas_cumprod gd) 1
                [[[1%R]]]) as [lv Hlv].
    { rewrite Hlog, length_map, Hl. cbn. lia. }
    assert (Hq : q_mean_variance gd [[[1%R]]] [1]
                 = Ok (tmul coef [[[1%R]]], var, lv)).
    { unfold q_mean_variance. rewrite Hcoef. cbn [mbind result_bind].
      rewrite Hvar. cbn [mbind result_bind]. rewrite Hlv. done. }
    exists gd, (tmul coef [[[1%R]]]), var, lv.
    split; [exact Hgd|]. split; [exact Hq|].
    exact (proj1 (proj2 (proj1
             (q_mean_variance_consistent _ _ gd _ _ _ _ _ Hgd Hq)))).
Defined.

(** * Properties in binary floating point *)

(** ** Section-based respacing with the running sum of Python floats *)












(** ** The deterministic step on float tensors *)

Lemma IEEE_fmul_zero_l (d : IEEE.dtype) (s : bool) (a : IEEE.float) :
  IEEE.zero_or_nan (IEEE.fmul d (SpecFloat.S754_zero s) a).
Proof. by destruct a. Qed.

Lemma IEEE_fmul_zero_or_nan (d : IEEE.dtype) (u a : IEEE.float) :
  IEEE.zero_or_nan u -> IEEE.zero_or_nan (IEEE.fmul d u a).
Proof. by destruct u, a. Qed.

Lemma IEEE_cast_zero_or_nan (d : IEEE.dtype) (u : IEEE.float) :
  IEEE.zero_or_nan u -> IEEE.zero_or_nan (IEEE.cast d u).
Proof. by destruct u. Qed.

(** The product of a zero with a finite draw is a zero, whose sign is that
    of the draw. *)
Lemma IEEE_fmul_noise (d : IEEE.dtype) (sg n1 n2 : IEEE.float) :
  IEEE.zero_or_nan sg -> IEEE.is_finite n1 -> IEEE.is_finite n2 ->
  IEEE.zeros_or_nans (IEEE.fmul d sg n1) (IEEE.fmul d sg n2).
Proof.
  unfold IEEE.zeros_or_nans.
  destruct sg, n1, n2; cbn; intros; try done; auto.
Qed.

(** Adding a zero changes no number, and changes no bit unless the other
    term is a zero too. *)
Lemma IEEE_fadd_zeros (d : IEEE.dtype) (a u v : IEEE.float) :
  IEEE.zeros_or_nans u v ->
  IEEE.same_number (IEEE.fadd d a u) (IEEE.fadd d a v).
Proof.
  unfold IEEE.zeros_or_nans, IEEE.same_number.
  intros [[Hu Hv]|[-> ->]]; [|by left].
  destruct u as [su| | |]; try done. destruct v as [sv| | |]; try done.
  destruct a as [sa|sa| |sa ma ea]; cbn.
  - right. by destruct sa, su, sv.
  - by left.
  - by left.
  - by left.
Qed.

Lemma Forall2_zip_with_r {A B C} (P : A -> Prop) (R' : B -> B -> Prop)
    (R : C -> C -> Prop) (f : A -> B -> C) (a : list A) :
  forall b1 b2 : list B,
  (forall x u v, P x -> R' u v -> R (f x u) (f x v)) ->
  Forall P a -> Forall2 R' b1 b2 ->
  Forall2 R (zip_with f a b1) (zip_with f a b2).
Proof.
  induction a as [|x a IH]; intros b1 b2 Hf Ha Hb; [constructor|].
  destruct Hb as [|u v b1 b2 Huv Hb]; [constructor|].
  apply Forall_cons in Ha as [Hx Ha]. cbn. constructor; [by apply Hf|].
  by apply IH.
Qed.

Lemma IEEE_tensor_rel_tzip_r (P : IEEE.float -> Prop)
    (R' R : IEEE.float -> IEEE.float -> Prop)
    (f : IEEE.float -> IEEE.float -> IEEE.float) (a b1 b2 : IEEE.Tensor) :
  (forall x u v, P x -> R' u v -> R (f x u) (f x v)) ->
  IEEE.tensor_all P a -> IEEE.tensor_rel R' b1 b2 ->
  IEEE.tensor_rel R (IEEE.tzip f a b1) (IEEE.tzip f a b2).
Proof.
  intros Hf. unfold IEEE.tensor_all, IEEE.tensor_rel, IEEE.tzip.
  apply Forall2_zip_with_r. intros e e1 e2.
  apply Forall2_zip_with_r. intros r r1 r2.
  by apply Forall2_zip_with_r.
Qed.

Lemma IEEE_tensor_rel_refl (R : IEEE.float -> IEEE.float -> Prop)
    (x : IEEE.Tensor) :
  (forall a, R a a) -> IEEE.tensor_rel R x x.
Proof.
  intros HR. unfold IEEE.tensor_rel.
  apply Forall2_same_length_lookup_2; [done|]. intros n e e' He He'.
  assert (e' = e) as -> by congruence.
  apply Forall2_same_length_lookup_2; [done|]. intros c r r' Hr Hr'.
  assert (r' = r) as -> by congruence.
  apply Forall2_same_length_lookup_2; [done|]. intros k a a' Ha Ha'.
  assert (a' = a) as -> by congruence. apply HR.
Qed.

Lemma IEEE_tensor_all_tmap (P Q : IEEE.float -> Prop)
    (f : IEEE.float -> IEEE.float) (x : IEEE.Tensor) :
  (forall u, P u -> Q (f u)) ->
  IEEE.tensor_all P x -> IEEE.tensor_all Q (IEEE.tmap f x).
Proof.
  intros Hf. unfold IEEE.tensor_all, IEEE.tmap.
  induction 1 as [|e x He _ IH]; constructor; [|exact IH].
  induction He as [|r e Hr _ IHe]; constructor; [|exact IHe].
  induction Hr as [|u r Hu _ IHr]; constructor; [by apply Hf|exact IHr].
Qed.

Lemma IEEE_tensor_all_True (x : IEEE.Tensor) :
  IEEE.tensor_all (fun _ => True) x.
Proof.
  unfold IEEE.tensor_all.
  induction x as [|e x IH]; constructor; [|exact IH].
  induction e as [|r e IHe]; constructor; [|exact IHe].
  induction r as [|u r IHr]; constructor; [done|exact IHr].
Qed.

Lemma IEEE_tensor_all_tzip_l (P Q : IEEE.float -> Prop)
    (f : IEEE.float -> IEEE.float -> IEEE.float) (x y : IEEE.Tensor) :
  (forall u v, P u -> Q (f u v)) ->
  IEEE.tensor_all P x -> IEEE.tensor_all Q (IEEE.tzip f x y).
Proof.
  intros Hf. unfold IEEE.tensor_all, IEEE.tzip.
  apply Forall_zip_with_l. intros e e'.
  apply Forall_zip_with_l. intros r r'.
  by apply Forall_zip_with_l.
Qed.

Lemma Forall2_imap {A B} (R : B -> B -> Prop) (l : list A) :
  forall f g : nat -> A -> B,
  (forall i a, R (f i a) (g i a)) -> Forall2 R (imap f l) (imap g l).
Proof.
  induction l as [|a l IH]; intros f g Hfg; [constructor|].
  cbn. constructor; [apply Hfg|]. apply IH. intros i b. apply Hfg.
Qed.

Lemma IEEE_randn_like_rel (R : IEEE.float -> IEEE.float -> Prop)
    (omega1 omega2 : IEEE.noise_source) (x : IEEE.Tensor) :
  (forall n c k, R (omega1 n c k) (omega2 n c k)) ->
  IEEE.tensor_rel R (IEEE.randn_like omega1 x) (IEEE.randn_like omega2 x).
Proof.
  intros HR. unfold IEEE.tensor_rel, IEEE.randn_like.
  apply Forall2_imap. intros n e.
  apply Forall2_imap. intros c r.
  apply Forall2_imap. intros k _. apply HR.
Qed.

Section FloatStep.

Variable d : IEEE.dtype.
Variable p_mean_variance : IEEE.Tensor -> list Z -> result IEEE.Tensor.

Local Abbreviation p_sample := (IEEE.DDIM_p_sample d p_mean_variance).

(** C5. The deterministic step with stochasticity parameter 0 on float
    tensors (float32 or float64), for any two noise draws without
    infinities and [nan].  Both calls raise the same exception, or both
    return, with the same predicted clean signal and samples that are equal
    as numbers: entry by entry the same bits, or two zeros.  At the time
    tensor [[0]] no noise term is added and the samples are the same bit
    for bit. *)
Theorem DDIM_p_sample_eta_zero_same_numbers (sd : IEEE.schedule)
    (x : IEEE.Tensor) (t : list Z) (omega1 omega2 : IEEE.noise_source) :
  (forall n c k, IEEE.is_finite (omega1 n c k)) ->
  (forall n c k, IEEE.is_finite (omega2 n c k)) ->
  match p_sample sd x t (SpecFloat.S754_zero false) omega1,
        p_sample sd x t (SpecFloat.S754_zero false) omega2 with
  | Ok (sample1, pred1), Ok (sample2, pred2) =>
      pred1 = pred2
      /\ IEEE.tensor_rel IEEE.same_number sample1 sample2
      /\ (t = [0] -> sample1 = sample2)
  | Raise e1, Raise e2 => e1 = e2
  | _, _ => False
  end.
Proof.
  intros H1 H2. unfold IEEE.DDIM_p_sample.
  destruct (p_mean_variance x t) as [pred|e]; [|done].
  cbn [mbind result_bind].
  destruct (IEEE.predict_eps_from_x_start d sd x t pred) as [eps|e];
    [|done].
  cbn [mbind result_bind].
  destruct (IEEE.extract_and_expand (IEEE.alphas_cumprod sd) t x)
    as [ab|e]; [|done].
  cbn [mbind result_bind].
  destruct (IEEE.extract_and_expand (IEEE.alphas_cumprod_prev sd) t x)
    as [abp|e]; [|done].
  cbn [mbind result_bind]. cbv zeta.
  destruct (tensor_nonzero t) as [[|]|e] eqn:Hnz; cbn [mbind result_bind];
    [| |done].
  - split; [done|]. split.
    + apply (IEEE_tensor_rel_tzip_r (fun _ => True) IEEE.zeros_or_nans).
      * intros a u v _. apply IEEE_fadd_zeros.
      * apply IEEE_tensor_all_True.
      * apply (IEEE_tensor_rel_tzip_r IEEE.zero_or_nan
                 (fun u v => IEEE.is_finite u /\ IEEE.is_finite v)).
        -- intros sg u v Hsg [Hu Hv]. by apply IEEE_fmul_noise.
        -- unfold IEEE.promote.
           apply (IEEE_tensor_all_tmap IEEE.zero_or_nan);
             [apply IEEE_cast_zero_or_nan|].
           apply (IEEE_tensor_all_tzip_l IEEE.zero_or_nan);
             [intros u v; apply IEEE_fmul_zero_or_nan|].
           apply (IEEE_tensor_all_tmap (fun _ => True));
             [|apply IEEE_tensor_all_True].
           intros u _. apply IEEE_fmul_zero_l.
        -- apply IEEE_randn_like_rel. intros n c k. split; [apply H1|apply H2].
    + intros ->. done.
  - split; [done|]. split; [|done].
    apply IEEE_tensor_rel_refl. intros a. by left.
Qed.

End FloatStep.

Lemma DDIM_p_sample_eta_zero_same_numbers_witness :
  exists sd,
    IEEE.SpacedDiffusion_init {[0; 1]}
      [IEEE.cast IEEE.float64 (SpecFloat.S754_finite false 1 (-4));
       IEEE.cast IEEE.float64 (SpecFloat.S754_finite false 1 (-1))] = Ok sd
    /\ match IEEE.DDIM_p_sample IEEE.float32
               (fun x _ => Ok x) sd
               [[[IEEE.of_int IEEE.float32 3]]] [1]
               (SpecFloat.S754_zero false)
               (fun _ _ _ => IEEE.of_int IEEE.float32 1),
             IEEE.DDIM_p_sample IEEE.float32
               (fun x _ => Ok x) sd
               [[[IEEE.of_int IEEE.float32 3]]] [1]
               (SpecFloat.S754_zero false)
               (fun _ _ _ => IEEE.of_int IEEE.float32 (-2)) with
       | Ok (sample1, pred1), Ok (sample2, pred2) =>
           pred1 = pred2
           /\ IEEE.tensor_rel IEEE.same_number sample1 sample2
           /\ ([1] = [0] -> sample1 = sample2)
       | Raise e1, Raise e2 => e1 = e2
       | _, _ => False
       end.
Proof.
  destruct (IEEE.SpacedDiffusion_init {[0; 1]}
              [IEEE.cast IEEE.float64 (SpecFloat.S754_finite false 1 (-4));
               IEEE.cast IEEE.float64 (SpecFloat.S754_finite false 1 (-1))])
    as [sd|e] eqn:Hsd; [|by vm_compute in Hsd].
  exists sd. split; [done|].
  apply (DDIM_p_sample_eta_zero_same_numbers IEEE.float32 (fun x _ => Ok x)
           sd [[[IEEE.of_int IEEE.float32 3]]] [1]);
    intros n c k; by vm_compute.
Defined.

(** With the variances [1/16] and [1/2], both steps retained, a predicted
    clean signal [-0.0] and the smallest negative float32 as the only pixel,
    the sample before the noise term is [-0.0] at time index 1.  The noise
    term [0.0 * noise] is [+0.0] for the draw [1.0] and [-0.0] for the draw
    [-2.0], so the two samples are [+0.0] and [-0.0]: equal numbers, not
    the same bits. *)
Lemma DDIM_p_sample_eta_zero_sign_of_zero :
  let run (noise : IEEE.float) :=
    IEEE.SpacedDiffusion_init {[0; 1]}
      [IEEE.cast IEEE.float64 (SpecFloat.S754_finite false 1 (-4));
       IEEE.cast IEEE.float64 (SpecFloat.S754_finite false 1 (-1))]
    ≫= λ sd : IEEE.schedule,
         IEEE.DDIM_p_sample IEEE.float32
           (fun _ _ => Ok [[[SpecFloat.S754_zero true]]]) sd
           [[[SpecFloat.S754_finite true 1 (-149)]]] [1]
           (SpecFloat.S754_zero false) (fun _ _ _ => noise) in
  run (IEEE.of_int IEEE.float32 1)
  = Ok ([[[SpecFloat.S754_zero false]]], [[[SpecFloat.S754_zero true]]])
  /\ run (IEEE.of_int IEEE.float32 (-2))
     = Ok ([[[SpecFloat.S754_zero true]]], [[[SpecFloat.S754_zero true]]])
  /\ [[[SpecFloat.S754_zero false]]]
     <> ([[[SpecFloat.S754_zero true]]] : IEEE.Tensor).
Proof. cbv zeta. split; [by vm_compute|]. split; [by vm_compute|]. done. Qed.
